(** * Chem-app streaming pipeline: a shallow embedding of the client hooks

    The development follows the JavaScript sources hook by hook:

    - [JS], [Regex], [JSV]  the fragment of the JavaScript platform the hooks
                       rely on: strings, regular expressions, values with
                       their truth value and [ToString];
    - [Json]           a reference implementation of [JSON.parse], used to
                       run the hooks on concrete inputs;
    - [Voice]          chat-ui/hooks/useVoice.js ([extractStableSentences],
                       [speakText]);
    - [Chat]           the chats and messages the hooks update;
    - [Send]           the optimistic update with which [sendMessage] opens
                       an answer, in both chat hooks;
    - [ChatContext]    the store of chats and the selection ([createChat],
                       [deleteChat], the chat the shell shows);
    - [SSEChat]        frontend/src/hooks/useSSEChat.js ([sendMessage] with
                       its read loop and its [catch] block, [parseSSEEvent],
                       [handleSSEEvent]);
    - [StreamingVoice] frontend/src/hooks/useStreamingVoice.js (the playback
                       queue, [stopSpeaking]);
    - [AppShell]       frontend/src/components/AppShell.js (the callbacks that
                       connect the hooks);
    - [ChatStream]     chat-ui/hooks/useChatStream.js ([processStreamChunk] and
                       the display path of [sendMessage]);
    - [BrowserTTS]     useBrowserTTS (the speech queue of the browser
                       fallback);
    - [ApiService]     the fetch wrapper ([request] and its retries).

    A JavaScript string is modelled as a [string] whose characters are its code
    units; the model covers code units below 256, which is where every
    character the hooks test for (terminators, white space, quotes, braces,
    back-ticks, line feeds) lives.  Platform functions the hooks call but do
    not define ([JSON.parse], [atob]) are parameters of the sections that
    model the hooks; [React] state and refs are fields of explicit state
    records, and a state setter applies its updater at once.  A function made
    by [useCallback] sees the state of the render that made it: where the
    callers keep such a function across renders ([playAudio] of the playback
    hook, called by the stream in flight) the value it closes over is an
    argument of the function. *)

From Stdlib Require Import String Ascii List ZArith Lia Bool.
From stdpp Require Import base strings list gmap pretty.


(* ===================================================================== *)
(** * The JavaScript platform *)
(* ===================================================================== *)

Module JS.

(** ** Strings *)

Definition LF : ascii := "010"%char.

Definition is_lf (c : ascii) : bool := Ascii.eqb c LF.

(** White space as [String.prototype.trim] and the regular expression class
    [\s] see it, within the modelled alphabet: TAB, LF, VT, FF, CR, SPACE and
    NBSP. *)
Definition is_ws (c : ascii) : bool :=
  match nat_of_ascii c with
  | 9 | 10 | 11 | 12 | 13 | 32 | 160 => true
  | _ => false
  end.

Fixpoint trimStart (s : string) : string :=
  match s with
  | String c rest => if is_ws c then trimStart rest else s
  | EmptyString => EmptyString
  end.

Definition trimEnd (s : string) : string :=
  String.rev (trimStart (String.rev s)).

Definition trim (s : string) : string := trimEnd (trimStart s).

(** [s.slice(n)] for a non-negative [n]. *)
Fixpoint slice_from (n : nat) (s : string) : string :=
  match n, s with
  | O, _ => s
  | S n', String _ rest => slice_from n' rest
  | S _, EmptyString => EmptyString
  end.

(** [s.slice(0, n)]. *)
Fixpoint slice_to (n : nat) (s : string) : string :=
  match n, s with
  | S n', String c rest => String c (slice_to n' rest)
  | _, _ => EmptyString
  end.

(** [s.startsWith(p)]. *)
Fixpoint startsWith (p s : string) : bool :=
  match p with
  | EmptyString => true
  | String a p' =>
      match s with
      | String b s' => Ascii.eqb a b && startsWith p' s'
      | EmptyString => false
      end
  end.

(** [parts.join(sep)]. *)
Fixpoint join (sep : string) (parts : list string) : string :=
  match parts with
  | [] => ""
  | [p] => p
  | p :: rest => p +:+ sep +:+ join sep rest
  end.

Fixpoint concat_all (parts : list string) : string :=
  match parts with
  | [] => ""
  | p :: rest => p +:+ concat_all rest
  end.

(** [c] put in front of the first of the pieces of a split. *)
Definition cons_first (c : ascii) (parts : list string) : list string :=
  match parts with
  | h :: t => String c h :: t
  | [] => [String c ""]
  end.

(** [s.split('\n')]. *)
Fixpoint split_lines (s : string) : list string :=
  match s with
  | EmptyString => [""]
  | String c rest =>
      if is_lf c then "" :: split_lines rest
      else cons_first c (split_lines rest)
  end.

(** [s.split('\n\n')]: the separator is searched left to right and matches do
    not overlap, so of three line feeds in a row the first two separate. *)
Fixpoint split_blank (s : string) : list string :=
  match s with
  | EmptyString => [""]
  | String c rest =>
      match rest with
      | String c2 rest2 =>
          if is_lf c && is_lf c2 then "" :: split_blank rest2
          else cons_first c (split_blank rest)
      | EmptyString => [String c ""]
      end
  end.

(** [s.includes(sub)]. *)
Fixpoint includes (sub s : string) : bool :=
  startsWith sub s ||
  match s with
  | String _ rest => includes sub rest
  | EmptyString => false
  end.

(** The separator of frames, a blank line. *)
Definition sep : string := String LF (String LF "").

Definition head_lf (x : string) : bool :=
  match x with String c _ => is_lf c | EmptyString => false end.

(** The truth value of a string. *)
Definition nonempty (s : string) : bool :=
  match s with EmptyString => false | _ => true end.

Fixpoint has_nonws (s : string) : bool :=
  match s with
  | String c rest => negb (is_ws c) || has_nonws rest
  | EmptyString => false
  end.

End JS.

(** ** Facts about strings and splitting *)

Module JSFacts.
Import JS.

Lemma app_cons c s t : String c s +:+ t = String c (s +:+ t).
Proof. reflexivity. Qed.

Lemma app_empty_r s : s +:+ "" = s.
Proof. induction s as [|c s IH]; [reflexivity|]. now rewrite app_cons, IH. Qed.

Lemma app_assoc_s a b c : (a +:+ b) +:+ c = a +:+ (b +:+ c).
Proof. induction a as [|x a IH]; [reflexivity|]. now rewrite !app_cons, IH. Qed.

Lemma split_blank_not_nil s : split_blank s <> [].
Proof.
  destruct s as [|c [|c2 s]]; simpl; try discriminate.
  destruct (is_lf c && is_lf c2); [discriminate|].
  unfold cons_first. destruct (match s with "" => _ | String _ _ => _ end); discriminate.
Qed.

(** Two-step induction on strings. *)
Lemma string_ind2 (P : string -> Prop) :
  P "" -> (forall c, P (String c "")) ->
  (forall c c2 s, P s -> P (String c2 s) -> P (String c (String c2 s))) ->
  forall s, P s.
Proof.
  intros H0 H1 H2 s.
  enough (P s /\ forall c, P (String c s)) by tauto.
  induction s as [|c s [IHa IHb]]; split; auto.
Qed.

Lemma split_blank_cons2 c c2 s :
  split_blank (String c (String c2 s)) =
  if is_lf c && is_lf c2 then "" :: split_blank s
  else cons_first c (split_blank (String c2 s)).
Proof. reflexivity. Qed.

Lemma split_blank_single s l : split_blank s = [l] -> l = s.
Proof.
  revert l. induction s as [| c | c c2 s IH1 IH2] using string_ind2; intros l.
  - simpl. congruence.
  - simpl. congruence.
  - rewrite split_blank_cons2. destruct (is_lf c && is_lf c2).
    + intros H. inversion H as [[H1 H2]]. exfalso. eapply split_blank_not_nil; eauto.
    + destruct (split_blank (String c2 s)) as [|h [|h2 t]] eqn:E; simpl.
      * now apply split_blank_not_nil in E.
      * intros H. injection H as <-. f_equal. now apply IH2.
      * discriminate.
Qed.

Lemma split_blank_app a : forall b,
  split_blank (a +:+ b) =
  removelast (split_blank a) ++ split_blank (List.last (split_blank a) "" +:+ b).
Proof.
  induction a as [| c | c c2 a IH1 IH2] using string_ind2; intros b.
  - reflexivity.
  - reflexivity.
  - rewrite !app_cons, !split_blank_cons2.
    destruct (is_lf c && is_lf c2) eqn:E.
    + rewrite IH1.
      destruct (split_blank a) as [|h t] eqn:Ea; [now apply split_blank_not_nil in Ea|].
      reflexivity.
    + rewrite <- app_cons. rewrite IH2.
      destruct (split_blank (String c2 a)) as [|h [|h2 t]] eqn:Ea.
      * now apply split_blank_not_nil in Ea.
      * apply split_blank_single in Ea. subst h. simpl. now rewrite E.
      * reflexivity.
Qed.

Lemma join_cons_first c l : l <> [] -> join sep (cons_first c l) = String c (join sep l).
Proof. destruct l as [|h [|h2 t]]; [congruence| |]; reflexivity. Qed.

Lemma split_blank_join s : join sep (split_blank s) = s.
Proof.
  induction s as [| c | c c2 s IH1 IH2] using string_ind2; try reflexivity.
  rewrite split_blank_cons2. destruct (is_lf c && is_lf c2) eqn:E.
  - apply andb_prop in E as [E1 E2].
    apply Ascii.eqb_eq in E1, E2. subst.
    destruct (split_blank s) as [|h t] eqn:Es; [now apply split_blank_not_nil in Es|].
    change (join sep ("" :: h :: t)) with ("" +:+ sep +:+ join sep (h :: t)).
    now rewrite IH1.
  - rewrite join_cons_first by apply split_blank_not_nil. now rewrite IH2.
Qed.

Lemma includes_cons c x :
  includes sep (String c x) = (is_lf c && head_lf x) || includes sep x.
Proof.
  change (includes sep (String c x))
    with (startsWith sep (String c x) || includes sep x).
  f_equal. unfold sep. cbn [startsWith].
  unfold is_lf, head_lf. rewrite (Ascii.eqb_sym LF c).
  destruct (Ascii.eqb c LF); [|reflexivity].
  destruct x as [|c2 x]; [reflexivity|].
  cbn [startsWith]. rewrite (Ascii.eqb_sym LF c2). simpl. now rewrite andb_true_r.
Qed.

Lemma split_blank_no_sep b : includes sep b = false -> split_blank b = [b].
Proof.
  induction b as [| c | c c2 s IH1 IH2] using string_ind2; try reflexivity.
  rewrite includes_cons. intros H. apply orb_false_iff in H as [H1 H2].
  rewrite split_blank_cons2. simpl in H1. rewrite H1.
  now rewrite IH2.
Qed.

Lemma head_lf_app_lf h : head_lf (h +:+ String LF "") = match h with "" => true | String c _ => is_lf c end.
Proof. destruct h; reflexivity. Qed.

Lemma split_blank_pieces s :
  Forall (fun f => includes sep (f +:+ String LF "") = false) (removelast (split_blank s))
  /\ includes sep (List.last (split_blank s) "") = false.
Proof.
  induction s as [| c | c c2 s IH1 IH2] using string_ind2.
  - split; [constructor|reflexivity].
  - split; [constructor|].
    change (List.last (split_blank (String c "")) "") with (String c "").
    rewrite includes_cons. simpl. now rewrite andb_false_r.
  - rewrite split_blank_cons2. destruct (is_lf c && is_lf c2) eqn:E.
    + destruct IH1 as [IHa IHb].
      destruct (split_blank s) as [|h t] eqn:Es; [now apply split_blank_not_nil in Es|].
      split; [|exact IHb].
      change (removelast ("" :: h :: t)) with ("" :: removelast (h :: t)).
      constructor; [reflexivity | exact IHa].
    + destruct IH2 as [IHa IHb].
      pose proof (split_blank_join (String c2 s)) as J.
      destruct (split_blank (String c2 s)) as [|h [|h2 t]] eqn:Es.
      * now apply split_blank_not_nil in Es.
      * split; [constructor|].
        change (List.last (cons_first c [h]) "") with (String c h).
        change (List.last [h] "") with h in IHb.
        change (join sep [h]) with h in J.
        rewrite includes_cons, IHb, orb_false_r. subst h. exact E.
      * split; [|exact IHb].
        change (removelast (cons_first c (h :: h2 :: t)))
          with (String c h :: removelast (h2 :: t)).
        change (removelast (h :: h2 :: t)) with (h :: removelast (h2 :: t)) in IHa.
        inversion IHa as [|? ? Hh Ht]; subst.
        constructor; [|exact Ht].
        rewrite app_cons, includes_cons, Hh, orb_false_r, head_lf_app_lf.
        change (join sep (h :: h2 :: t)) with (h +:+ sep +:+ join sep (h2 :: t)) in J.
        destruct h as [|c' h'].
        -- simpl in J. injection J as J1 _. rewrite <- J1 in E.
           change (is_lf LF) with true in E. now rewrite andb_true_r in E |- *.
        -- rewrite app_cons in J. injection J as J1 _. now subst c'.
Qed.

Lemma last_app_not_nil {A : Type} (l l' : list A) (d : A) :
  l' <> [] -> List.last (l ++ l') d = List.last l' d.
Proof.
  intros H. induction l as [|x l IH]; [reflexivity|].
  simpl. destruct (l ++ l') eqn:E; [|exact IH].
  apply app_eq_nil in E as [_ E]. contradiction.
Qed.

Lemma last_cons_default {A : Type} (l : list A) : forall (x d : A),
  List.last (x :: l) d = List.last l x.
Proof.
  induction l as [|y l IH]; intros x d; [reflexivity|].
  change (List.last (x :: y :: l) d) with (List.last (y :: l) d).
  now rewrite (IH y d), (IH y x).
Qed.

Lemma join_snoc (frames : list string) (t : string) :
  join sep (frames ++ [t]) = concat_all (map (fun f => f +:+ sep) frames) +:+ t.
Proof.
  induction frames as [|f frames IH]; [reflexivity|].
  change (concat_all (map (fun f0 => f0 +:+ sep) (f :: frames)) +:+ t)
    with (((f +:+ sep) +:+ concat_all (map (fun f0 => f0 +:+ sep) frames)) +:+ t).
  rewrite !app_assoc_s, <- IH.
  change ((f :: frames) ++ [t]) with (f :: (frames ++ [t])).
  destruct (frames ++ [t]) eqn:E; [|reflexivity].
  apply app_eq_nil in E as [_ E]. discriminate.
Qed.

Lemma has_nonws_rev_app s : forall t,
  has_nonws (String.rev_app s t) = has_nonws s || has_nonws t.
Proof.
  induction s as [|c s IH]; intros t; [reflexivity|].
  cbn [String.rev_app has_nonws]. rewrite IH. cbn [has_nonws].
  now destruct (is_ws c), (has_nonws s), (has_nonws t).
Qed.

Lemma has_nonws_rev s : has_nonws (String.rev s) = has_nonws s.
Proof. unfold String.rev. rewrite has_nonws_rev_app. apply orb_false_r. Qed.

Lemma has_nonws_trimStart s : has_nonws (trimStart s) = has_nonws s.
Proof.
  induction s as [|c s IH]; [reflexivity|].
  cbn [trimStart]. destruct (is_ws c) eqn:E; [|reflexivity].
  cbn [has_nonws]. now rewrite E, IH.
Qed.

Lemma has_nonws_trim s : has_nonws (trim s) = has_nonws s.
Proof.
  unfold trim, trimEnd.
  now rewrite has_nonws_rev, has_nonws_trimStart, has_nonws_rev, has_nonws_trimStart.
Qed.

Lemma has_nonws_split_lines s line :
  In line (split_lines s) -> has_nonws line = true -> has_nonws s = true.
Proof.
  revert line. induction s as [|c s IH]; intros line Hin Hl.
  - destruct Hin as [<-|[]]. discriminate.
  - cbn [split_lines] in Hin. unfold cons_first in Hin. cbn [has_nonws].
    destruct (is_lf c) eqn:E.
    + destruct Hin as [<-|Hin]; [discriminate|].
      rewrite (IH _ Hin Hl). apply orb_true_r.
    + destruct (split_lines s) as [|h t] eqn:Es.
      * destruct Hin as [<-|[]]. cbn [has_nonws] in Hl.
        rewrite orb_false_r in Hl. now rewrite Hl.
      * destruct Hin as [<-|Hin].
        -- cbn [has_nonws] in Hl. apply orb_prop in Hl as [->|Hl]; [reflexivity|].
           rewrite (IH h (or_introl eq_refl) Hl). apply orb_true_r.
        -- rewrite (IH line (or_intror Hin) Hl). apply orb_true_r.
Qed.

End JSFacts.

(** ** Regular expressions

    The hooks use a handful of regular expression literals.  Each literal is
    transcribed as a term of [re]; [rmatch] is a backtracking matcher with the
    priorities of the JavaScript engine (a greedy quantifier tries the longer
    match first, a lazy one the shorter, and an iteration of a star must
    consume input).  The literals of the hooks have at most one
    capture group, so a single capture slot is tracked. *)

Module Regex.

Inductive re : Type :=
| Cls (p : ascii -> bool)  (* one character of a class *)
| Lit (l : string)         (* a literal run of characters *)
| Seq (r1 r2 : re)
| Opt (r : re)             (* r? *)
| Star (r : re)            (* r* *)
| StarLazy (r : re)        (* r*? *)
| Grp (r : re)             (* ( r ), capture 1 *)
| Bos                      (* ^ *)
| Eos.                     (* $ *)

Definition Plus (r : re) : re := Seq r (Star r).

Fixpoint seqs (rs : list re) : re :=
  match rs with
  | [] => Lit ""
  | [r] => r
  | r :: rest => Seq r (seqs rest)
  end.

(** Result of a match attempt: the end index and capture 1. *)
Definition mres : Type := option (nat * option string).

(** [rmatch r s pos cap k]: match [r] against [s], the input from index [pos]
    on, then continue with [k]; alternatives are tried in priority order. *)
Fixpoint rmatch (r : re) (s : string) (pos : nat) (cap : option string)
    (k : string -> nat -> option string -> mres) {struct r} : mres :=
  match r with
  | Cls p =>
      match s with
      | String c rest => if p c then k rest (S pos) cap else None
      | EmptyString => None
      end
  | Lit l =>
      if JS.startsWith l s
      then k (JS.slice_from (String.length l) s) (pos + String.length l) cap
      else None
  | Seq r1 r2 =>
      rmatch r1 s pos cap (fun s' pos' cap' => rmatch r2 s' pos' cap' k)
  | Opt r1 =>
      match rmatch r1 s pos cap k with
      | Some x => Some x
      | None => k s pos cap
      end
  | Star r1 =>
      (fix iter (n : nat) (s : string) (pos : nat) (cap : option string) : mres :=
         match n with
         | O => k s pos cap
         | S n' =>
             match rmatch r1 s pos cap
                     (fun s' pos' cap' =>
                        if pos <? pos' then iter n' s' pos' cap' else None) with
             | Some x => Some x
             | None => k s pos cap
             end
         end) (String.length s) s pos cap
  | StarLazy r1 =>
      (fix iter (n : nat) (s : string) (pos : nat) (cap : option string) : mres :=
         match k s pos cap with
         | Some x => Some x
         | None =>
             match n with
             | O => None
             | S n' =>
                 rmatch r1 s pos cap
                   (fun s' pos' cap' =>
                      if pos <? pos' then iter n' s' pos' cap' else None)
             end
         end) (String.length s) s pos cap
  | Grp r1 =>
      rmatch r1 s pos cap
        (fun s' pos' _ => k s' pos' (Some (JS.slice_to (pos' - pos) s)))
  | Bos => if pos =? 0 then k s pos cap else None
  | Eos => match s with EmptyString => k s pos cap | _ => None end
  end.

(** A match attempt anchored at index [pos]. *)
Definition exec_at (r : re) (s : string) (pos : nat) : mres :=
  rmatch r s pos None (fun _ e c => Some (e, c)).

(** The leftmost match starting at index [pos] or later:
    (start, end, capture 1). *)
Fixpoint search (r : re) (s : string) (pos : nat)
    : option (nat * nat * option string) :=
  match exec_at r s pos with
  | Some (e, c) => Some (pos, e, c)
  | None =>
      match s with
      | String _ rest => search r rest (S pos)
      | EmptyString => None
      end
  end.

(** [re.test(s)] / the truth value of [s.match(re)]. *)
Definition test (r : re) (s : string) : bool :=
  match search r s 0 with Some _ => true | None => false end.

(** One match of a global scan: the text before it since the previous match,
    the matched text m[0], and capture m[1]. *)
Record rx_match : Type := mkMatch {
  m_before : string;
  m_full : string;
  m_group : option string
}.

(** All matches of a global regular expression, left to right, and the text
    left after the last one: what [while ((m = re.exec(s)) !== null)],
    [s.matchAll(re)] and [s.replace(re, ...)] iterate over.  The expressions
    of the hooks never match the empty string; the scan steps over an empty
    match the way [matchAll] does. *)
Fixpoint scan_go (fuel : nat) (r : re) (s : string) (pos : nat)
    : list rx_match * string :=
  match fuel with
  | O => ([], s)
  | S fuel' =>
      match search r s pos with
      | None => ([], s)
      | Some (st, e, c) =>
          let before := JS.slice_to (st - pos) s in
          let from_st := JS.slice_from (st - pos) s in
          let full := JS.slice_to (e - st) from_st in
          let after := JS.slice_from (e - st) from_st in
          if e =? st then
            match after with
            | String ch after' =>
                let '(ms, tl) := scan_go fuel' r after' (S e) in
                (mkMatch before full c ::
                   match ms with
                   | m1 :: ms' =>
                       mkMatch (String ch (m_before m1)) (m_full m1) (m_group m1) :: ms'
                   | [] => []
                   end,
                 match ms with [] => String ch tl | _ => tl end)
            | EmptyString => ([mkMatch before full c], "")
            end
          else
            let '(ms, tl) := scan_go fuel' r after e in
            (mkMatch before full c :: ms, tl)
      end
  end.

Definition scan (r : re) (s : string) : list rx_match * string :=
  scan_go (S (String.length s)) r s 0.

(** The successive [m] of an exec loop / of [matchAll]. *)
Definition match_all (r : re) (s : string) : list rx_match := fst (scan r s).

(** [s.replace(re, f)] for a global [re]: every match is replaced by what
    [f] makes of it. *)
Definition replace_all (r : re) (f : rx_match -> string) (s : string) : string :=
  let '(ms, tl) := scan r s in
  JS.concat_all (map (fun m => m_before m +:+ f m) ms) +:+ tl.

(** [s.replace(re, '')] for a global [re]. *)
Definition remove_all (r : re) (s : string) : string :=
  replace_all r (fun _ => "") s.

(** [s.replace(re, f)] for a [re] without the global flag: the leftmost match
    only. *)
Definition replace_first (r : re) (f : rx_match -> string) (s : string) : string :=
  match search r s 0 with
  | None => s
  | Some (st, e, c) =>
      let from_st := JS.slice_from st s in
      JS.slice_to st s +:+
      f (mkMatch (JS.slice_to st s) (JS.slice_to (e - st) from_st) c) +:+
      JS.slice_from (e - st) from_st
  end.

(** The replacement pattern [$1]. *)
Definition dollar1 (m : rx_match) : string :=
  match m_group m with Some g => g | None => "" end.

Definition cap_list (c : option string) : list string :=
  match c with Some x => [x] | None => [""] end.

(** [s.split(re)] for a non-empty [s]: [sp] is the input from the start [p] of
    the piece being built, [sq] the input from the index [q] being tried.
    Captures are spliced in after each piece; a capture that did not take part
    is rendered as the empty string, which the caller of the hooks skips like
    [undefined]. *)
Fixpoint split_go (fuel : nat) (r : re) (sp : string) (p : nat)
    (sq : string) (q : nat) : list string :=
  match fuel with
  | O => [sp]
  | S fuel' =>
      match sq with
      | EmptyString => [sp]
      | String _ sq' =>
          match exec_at r sq q with
          | None => split_go fuel' r sp p sq' (S q)
          | Some (e, c) =>
              if e =? p then split_go fuel' r sp p sq' (S q)
              else
                let rest := JS.slice_from (e - q) sq in
                JS.slice_to (q - p) sp :: cap_list c ++ split_go fuel' r rest e rest e
          end
      end
  end.

Definition split (r : re) (s : string) : list string :=
  match s with
  | EmptyString =>
      match exec_at r "" 0 with Some _ => [] | None => [""] end
  | _ => split_go (2 * String.length s + 2) r s 0 s 0
  end.

End Regex.

(** ** Values *)

Module JSV.

(** A Number is represented by the two observations the hooks make of one:
    its truth value ([ToBoolean]) and its rendering ([ToString]). *)
Record jsnum : Type := mkNum {
  num_truthy : bool;
  num_text : string
}.

(** The values [JSON.parse] produces, and [undefined].  An object is the list
    of its own properties in insertion order; a later binding of a key
    overrides an earlier one. *)
#[local] Unset Elimination Schemes.
Inductive jsval : Type :=
| JUndefined
| JNull
| JBool (b : bool)
| JNum (n : jsnum)
| JStr (s : string)
| JArr (items : list jsval)
| JObj (props : list (string * jsval)).
#[local] Set Elimination Schemes.

Definition props : Type := list (string * jsval).

(** [ToBoolean]. *)
Definition truthy (v : jsval) : bool :=
  match v with
  | JUndefined | JNull => false
  | JBool b => b
  | JNum n => num_truthy n
  | JStr s => match s with EmptyString => false | _ => true end
  | JArr _ | JObj _ => true
  end.

(** [a || b]. *)
Definition or_else (a b : jsval) : jsval := if truthy a then a else b.

Fixpoint find (k : string) (ps : props) : option jsval :=
  match ps with
  | [] => None
  | (k', v) :: rest =>
      match find k rest with
      | Some x => Some x
      | None => if String.eqb k k' then Some v else None
      end
  end.

(** [o.k] on an object given by its own properties. *)
Definition get (k : string) (ps : props) : jsval :=
  match find k ps with Some v => v | None => JUndefined end.

(** [v.k] for the field names the hooks read ([tool], [items], [name],
    [smiles], [type]): none of them is a property of a primitive, of an array
    or of [Object.prototype]. *)
Definition field (k : string) (v : jsval) : jsval :=
  match v with
  | JObj ps => get k ps
  | _ => JUndefined
  end.

Definition has_key (k : string) (ps : props) : bool :=
  match find k ps with Some _ => true | None => false end.

(** [ToString], [None] when the conversion throws a [TypeError]: an object
    parsed from JSON converts through the inherited [toString] unless a key
    of its own shadows it with a value that cannot be called. *)
Fixpoint to_string (v : jsval) : option string :=
  match v with
  | JUndefined => Some "undefined"
  | JNull => Some "null"
  | JBool true => Some "true"
  | JBool false => Some "false"
  | JNum n => Some (num_text n)
  | JStr s => Some s
  | JArr items =>
      (fix join_items (first : bool) (l : list jsval) : option string :=
         match l with
         | [] => Some ""
         | x :: rest =>
             let sep := if first then "" else "," in
             match (match x with
                    | JUndefined | JNull => Some ""
                    | _ => to_string x
                    end), join_items false rest with
             | Some sx, Some sr => Some (sep +:+ sx +:+ sr)
             | _, _ => None
             end
         end) true items
  | JObj ps => if has_key "toString" ps then None else Some "[object Object]"
  end.

Fixpoint index_props_str (i : nat) (s : string) : props :=
  match s with
  | EmptyString => []
  | String c rest => (pretty i, JStr (String c "")) :: index_props_str (S i) rest
  end.

Fixpoint index_props_arr (i : nat) (l : list jsval) : props :=
  match l with
  | [] => []
  | v :: rest => (pretty i, v) :: index_props_arr (S i) rest
  end.

(** The own enumerable properties [{...v}] copies. *)
Definition spread (v : jsval) : props :=
  match v with
  | JObj ps => ps
  | JStr s => index_props_str 0 s
  | JArr l => index_props_arr 0 l
  | _ => []
  end.

End JSV.

(** ** JSON.parse

    The hooks are stated over an arbitrary [JSON.parse]; [Json.parse] is a
    reference implementation of the JSON grammar used to run them on concrete
    inputs.  A number literal is rendered by the digit rules of
    [Number::toString] applied to its own decimal digits, which is what the
    platform prints for literals of up to 15 significant digits within the
    range of a double; a [\u] escape above code unit 255 lies outside the modelled
    alphabet and is refused. *)

Module Json.
Import JSV.

Definition dquote : ascii := "034"%char.
Definition backslash : ascii := "092"%char.

Definition is_json_ws (c : ascii) : bool :=
  match nat_of_ascii c with
  | 9 | 10 | 13 | 32 => true
  | _ => false
  end.

Fixpoint skip_ws (s : string) : string :=
  match s with
  | String c rest => if is_json_ws c then skip_ws rest else s
  | EmptyString => EmptyString
  end.

Definition is_digit (c : ascii) : bool :=
  (48 <=? nat_of_ascii c) && (nat_of_ascii c <=? 57).

Definition hex_val (c : ascii) : option nat :=
  let n := nat_of_ascii c in
  if (48 <=? n) && (n <=? 57) then Some (n - 48)
  else if (65 <=? n) && (n <=? 70) then Some (n - 55)
  else if (97 <=? n) && (n <=? 102) then Some (n - 87)
  else None.

Definition simple_escape (e : ascii) : option ascii :=
  match e with
  | "034"%char => Some "034"%char
  | "092"%char => Some "092"%char
  | "/"%char => Some "/"%char
  | "b"%char => Some "008"%char
  | "f"%char => Some "012"%char
  | "n"%char => Some "010"%char
  | "r"%char => Some "013"%char
  | "t"%char => Some "009"%char
  | _ => None
  end.

Definition hex4 (h1 h2 h3 h4 : ascii) : option nat :=
  match hex_val h1, hex_val h2, hex_val h3, hex_val h4 with
  | Some a, Some b, Some c, Some d => Some (((a * 16 + b) * 16 + c) * 16 + d)
  | _, _, _, _ => None
  end.

(** The characters of a string literal after its opening quote, and the text
    after its closing quote. *)
Fixpoint parse_chars (s : string) : option (string * string) :=
  match s with
  | EmptyString => None
  | String c rest =>
      if Ascii.eqb c dquote then Some ("", rest)
      else if Ascii.eqb c backslash then
        match rest with
        | String e rest1 =>
            match simple_escape e with
            | Some ch =>
                match parse_chars rest1 with
                | Some (str, r) => Some (String ch str, r)
                | None => None
                end
            | None =>
                if Ascii.eqb e "u"%char then
                  match rest1 with
                  | String h1 (String h2 (String h3 (String h4 rest2))) =>
                      match hex4 h1 h2 h3 h4 with
                      | Some n =>
                          if n <? 256 then
                            match parse_chars rest2 with
                            | Some (str, r) => Some (String (ascii_of_nat n) str, r)
                            | None => None
                            end
                          else None
                      | None => None
                      end
                  | _ => None
                  end
                else None
            end
        | EmptyString => None
        end
      else if nat_of_ascii c <? 32 then None
      else
        match parse_chars rest with
        | Some (str, r) => Some (String c str, r)
        | None => None
        end
  end.

Fixpoint take_digits (s : string) : string * string :=
  match s with
  | String c rest =>
      if is_digit c then let '(d, r) := take_digits rest in (String c d, r)
      else ("", s)
  | EmptyString => ("", "")
  end.

Fixpoint strip_zeros (s : string) : string :=
  match s with
  | String "0" rest => strip_zeros rest
  | _ => s
  end.

Fixpoint zeros (n : nat) : string :=
  match n with O => "" | S n' => String "0" (zeros n') end.

Fixpoint digits_value (s : string) (acc : N) : N :=
  match s with
  | String c rest => digits_value rest (acc * 10 + N.of_nat (nat_of_ascii c - 48))
  | EmptyString => acc
  end.

(** [Number::toString] on the decimal with digits [ds] (no leading or
    trailing zero, not empty) and value 0.ds x 10^n. *)
Definition render_decimal (ds : string) (n : Z) : string :=
  let k := Z.of_nat (String.length ds) in
  if ((k <=? n) && (n <=? 21))%Z then ds +:+ zeros (Z.to_nat (n - k))
  else if ((0 <? n) && (n <=? 21))%Z then
    JS.slice_to (Z.to_nat n) ds +:+ "." +:+ JS.slice_from (Z.to_nat n) ds
  else if ((-6 <? n) && (n <=? 0))%Z then "0." +:+ zeros (Z.to_nat (- n)) +:+ ds
  else
    let e := (n - 1)%Z in
    let es := (if (e <? 0)%Z then "-" else "+") +:+ pretty (Z.abs e) in
    match ds with
    | String d EmptyString => String d "e" +:+ es
    | String d more => String d "." +:+ more +:+ "e" +:+ es
    | EmptyString => "0"
    end.

Definition number_of_literal (neg : bool) (int frac : string) (exp : Z) : jsnum :=
  let ds := strip_zeros (int +:+ frac) in
  match ds with
  | EmptyString => mkNum false "0"
  | _ =>
      let rds := strip_zeros (String.rev ds) in
      let trailing := String.length ds - String.length rds in
      let ds' := String.rev rds in
      let n := (Z.of_nat (String.length ds) + exp - Z.of_nat (String.length frac))%Z in
      mkNum true ((if neg then "-" else "") +:+ render_decimal ds' n)
  end.

Definition parse_number (s : string) : option (jsnum * string) :=
  let '(neg, s1) :=
    match s with
    | String "-" r => (true, r)
    | _ => (false, s)
    end in
  let '(int, s2) := take_digits s1 in
  match int with
  | EmptyString => None
  | String "0" (String _ _) => None
  | _ =>
      let frac_part :=
        match s2 with
        | String "." r =>
            let '(f, r') := take_digits r in
            match f with EmptyString => None | _ => Some (f, r') end
        | _ => Some ("", s2)
        end in
      match frac_part with
      | None => None
      | Some (frac, s3) =>
          let exp_part :=
            match s3 with
            | String c r =>
                if Ascii.eqb c "e" || Ascii.eqb c "E" then
                  let '(eneg, r1) :=
                    match r with
                    | String "-" r' => (true, r')
                    | String "+" r' => (false, r')
                    | _ => (false, r)
                    end in
                  let '(ed, r2) := take_digits r1 in
                  match ed with
                  | EmptyString => None
                  | _ =>
                      let v := Z.of_N (digits_value ed 0) in
                      Some ((if eneg then - v else v)%Z, r2)
                  end
                else Some (0%Z, s3)
            | EmptyString => Some (0%Z, s3)
            end in
          match exp_part with
          | None => None
          | Some (exp, s4) => Some (number_of_literal neg int frac exp, s4)
          end
      end
  end.

(** A value at the head of [s] and the text after it; [parse_elements] and
    [parse_members] read what follows an opening bracket or brace. *)
Fixpoint parse_value (fuel : nat) (s : string) {struct fuel}
    : option (jsval * string) :=
  match fuel with
  | O => None
  | S fuel' =>
      match skip_ws s with
      | EmptyString => None
      | String c rest as s0 =>
          if Ascii.eqb c "{" then
            match skip_ws rest with
            | String "}" r => Some (JObj [], r)
            | r0 =>
                match parse_members fuel' r0 with
                | Some (ps, r) => Some (JObj ps, r)
                | None => None
                end
            end
          else if Ascii.eqb c "[" then
            match skip_ws rest with
            | String "]" r => Some (JArr [], r)
            | r0 =>
                match parse_elements fuel' r0 with
                | Some (vs, r) => Some (JArr vs, r)
                | None => None
                end
            end
          else if Ascii.eqb c dquote then
            match parse_chars rest with
            | Some (str, r) => Some (JStr str, r)
            | None => None
            end
          else if JS.startsWith "true" s0 then Some (JBool true, JS.slice_from 4 s0)
          else if JS.startsWith "false" s0 then Some (JBool false, JS.slice_from 5 s0)
          else if JS.startsWith "null" s0 then Some (JNull, JS.slice_from 4 s0)
          else
            match parse_number s0 with
            | Some (n, r) => Some (JNum n, r)
            | None => None
            end
      end
  end
with parse_elements (fuel : nat) (s : string) {struct fuel}
    : option (list jsval * string) :=
  match fuel with
  | O => None
  | S fuel' =>
      match parse_value fuel' s with
      | None => None
      | Some (v, r) =>
          match skip_ws r with
          | String "," r1 =>
              match parse_elements fuel' r1 with
              | Some (vs, r2) => Some (v :: vs, r2)
              | None => None
              end
          | String "]" r1 => Some ([v], r1)
          | _ => None
          end
      end
  end
with parse_members (fuel : nat) (s : string) {struct fuel}
    : option (list (string * jsval) * string) :=
  match fuel with
  | O => None
  | S fuel' =>
      match skip_ws s with
      | String c r =>
          if Ascii.eqb c dquote then
            match parse_chars r with
            | None => None
            | Some (key, r1) =>
                match skip_ws r1 with
                | String ":" r2 =>
                    match parse_value fuel' r2 with
                    | None => None
                    | Some (v, r3) =>
                        match skip_ws r3 with
                        | String "," r4 =>
                            match parse_members fuel' r4 with
                            | Some (ps, r5) => Some ((key, v) :: ps, r5)
                            | None => None
                            end
                        | String "}" r4 => Some ([(key, v)], r4)
                        | _ => None
                        end
                    end
                | _ => None
                end
            end
          else None
      | EmptyString => None
      end
  end.

(** [JSON.parse(s)]: [None] stands for the [SyntaxError]. *)
Definition parse (s : string) : option jsval :=
  match parse_value (2 * String.length s + 2) s with
  | Some (v, rest) =>
      match skip_ws rest with
      | EmptyString => Some v
      | _ => None
      end
  | None => None
  end.

(** Test data is written with an apostrophe wherever the text has a double
    quote. *)
Fixpoint q (s : string) : string :=
  match s with
  | String c rest => String (if Ascii.eqb c "'" then dquote else c) (q rest)
  | EmptyString => EmptyString
  end.

End Json.

(* ===================================================================== *)
(** * chat-ui/hooks/useVoice.js *)
(* ===================================================================== *)

Module Voice.
Import Regex.

Definition is_terminator (c : ascii) : bool :=
  match c with
  | "."%char | "!"%char | "?"%char => true
  | _ => false
  end.

(** [/([.!?])\s+/] *)
Definition sentence_re : re := Seq (Grp (Cls is_terminator)) (Plus (Cls JS.is_ws)).

(** [/^[.!?]$/] *)
Definition terminator_re : re := seqs [Bos; Cls is_terminator; Eos].

Record extracted : Type := mkExtracted {
  sentences : list string;
  nextIndex : nat
}.

(** The [for] loop of [extractStableSentences] over [parts], from the values
    [acc] and [sentences] reached so far. *)
Fixpoint collect (parts : list string) (acc : string) (sentences : list string)
    : list string :=
  match parts with
  | [] => sentences
  | seg :: rest =>
      if negb (JS.nonempty seg) then collect rest acc sentences
      else
        let acc1 := acc +:+ (if JS.nonempty acc then " " else "") +:+ JS.trim seg in
        if Regex.test terminator_re seg then
          let s := JS.trim acc1 in
          collect rest ""
            (if 0 <? String.length s then sentences ++ [s] else sentences)
        else collect rest acc1 sentences
  end.

Definition extractStableSentences (text : string) (startIndex : nat) : extracted :=
  let slice := JS.slice_from startIndex text in
  let parts := Regex.split sentence_re slice in
  if length parts <=? 1 then mkExtracted [] startIndex
  else
    let sentences := collect parts "" [] in
    let consumed := String.length (JS.join " " sentences +:+ " ") in
    mkExtracted sentences (startIndex + consumed).

(** ** speakText *)

(** The character class [.] without the [s] flag. *)
Definition dot (c : ascii) : bool :=
  negb (Ascii.eqb c "010" || Ascii.eqb c "013").

Definition any (c : ascii) : bool := true.

Definition is_char (x : ascii) (c : ascii) : bool := Ascii.eqb c x.

Definition upper (c : ascii) : ascii :=
  let n := nat_of_ascii c in
  if (97 <=? n) && (n <=? 122) then ascii_of_nat (n - 32) else c.

(** A literal under the [i] flag. *)
Definition lit_ci (l : string) : re :=
  seqs (map (fun x => Cls (fun c => Ascii.eqb (upper c) (upper x)))
          (list_ascii_of_string l)).

Definition hash : re := Cls (is_char "#").

(** The replacements of [speakText], in the order of the source. *)
Definition cleanText (text : string) : string :=
  let t := replace_all (Plus (Cls JS.is_lf)) (fun _ => " ") text in
  let t := replace_all (Plus (Cls JS.is_ws)) (fun _ => " ") t in
  (* /Sources?:.*$/i and /References?:.*$/i *)
  let t := replace_first
             (seqs [lit_ci "Source"; Opt (lit_ci "s"); Lit ":"; Star (Cls dot); Eos])
             (fun _ => "") t in
  let t := replace_first
             (seqs [lit_ci "Reference"; Opt (lit_ci "s"); Lit ":"; Star (Cls dot); Eos])
             (fun _ => "") t in
  (* /\[EVENT\].*$/g *)
  let t := remove_all (seqs [Lit "[EVENT]"; Star (Cls dot); Eos]) t in
  (* /```.*?```/gs *)
  let t := remove_all (seqs [Lit "```"; StarLazy (Cls any); Lit "```"]) t in
  (* /\*\*(.*?)\*\*/g, /\*(.*?)\*/g and /`(.*?)`/g, each replaced by $1 *)
  let t := replace_all (seqs [Lit "**"; Grp (StarLazy (Cls dot)); Lit "**"]) dollar1 t in
  let t := replace_all (seqs [Lit "*"; Grp (StarLazy (Cls dot)); Lit "*"]) dollar1 t in
  let t := replace_all (seqs [Lit "`"; Grp (StarLazy (Cls dot)); Lit "`"]) dollar1 t in
  (* /\[(.*?)\]\(.*?\)/g replaced by $1 *)
  let t := replace_all
             (seqs [Lit "["; Grp (StarLazy (Cls dot)); Lit "]("; StarLazy (Cls dot); Lit ")"])
             dollar1 t in
  (* /#{1,6}\s+/g *)
  let t := remove_all
             (seqs [hash; Opt (Seq hash (Opt (Seq hash (Opt (Seq hash
                      (Opt (Seq hash (Opt hash))))))));
                    Plus (Cls JS.is_ws)]) t in
  JS.trim t.

(** The state [speakText] reads and writes: the mute flag, the ids of the
    messages spoken in full, the index reached in each message, and the
    sentences handed to [enqueueTts], oldest first. *)
Record voice_state : Type := mkVoice {
  isMuted : bool;
  spokenMessageIds : gset Z;
  lastSpokenIndex : gmap Z nat;
  tts_jobs : list string
}.

Definition voice_init : voice_state := mkVoice false ∅ ∅ [].

(** [speakText(text, messageId)] for a message id that is given. *)
Definition speakText (text : string) (messageId : Z) (st : voice_state) : voice_state :=
  if isMuted st then st
  else if bool_decide (messageId ∈ spokenMessageIds st) then st
  else
    let clean := cleanText text in
    let prevIndex := default 0 (lastSpokenIndex st !! messageId) in
    let r := extractStableSentences clean prevIndex in
    match sentences r with
    | [] => st
    | _ =>
        mkVoice (isMuted st) (spokenMessageIds st)
          (<[messageId := nextIndex r]> (lastSpokenIndex st))
          (tts_jobs st ++ sentences r)
    end.

(** The text of a message after each of its fragments. *)
Fixpoint growing (sofar : string) (fragments : list string) : list string :=
  match fragments with
  | [] => []
  | f :: rest => (sofar +:+ f) :: growing (sofar +:+ f) rest
  end.

(** [speakText] called on the message as it grows, fragment by fragment. *)
Definition speak_growing (fragments : list string) (messageId : Z) : voice_state :=
  fold_left (fun st text => speakText text messageId st) (growing "" fragments) voice_init.

(** ** C5 *)

(** C5, the code on the scenario: the two fragments joined give two
    sentences, each with a space put before its terminator, and a next index
    two past the end of the 39 characters of the text. *)
Theorem benzene_scenario_sentences :
  let text := "Benzene is a ring" +:+ ". It has six carbons. " in
  extractStableSentences text 0
  = mkExtracted ["Benzene is a ring ."; "It has six carbons ."] 41
  /\ String.length text = 39.
Proof. split; vm_compute; reflexivity. Qed.

(** ** C4 *)

(** C4, the code on a fragmented text: fed whole, the text gives two
    sentences; fed in two fragments, with the next index carried over, the
    second sentence comes out without its first letter, because the index
    returned after the first fragment lies one character past the text the
    first sentence consumed. *)
Theorem fragmented_extraction_differs :
  let fragments := ["It is a ring. It"; " has six carbons. Done"] in
  let whole := JS.concat_all fragments in
  cleanText "It is a ring. It" = "It is a ring. It"
  /\ cleanText whole = whole
  /\ sentences (extractStableSentences whole 0)
     = ["It is a ring ."; "It has six carbons ."]
  /\ tts_jobs (speak_growing [whole] 11)
     = ["It is a ring ."; "It has six carbons ."]
  /\ extractStableSentences "It is a ring. It" 0 = mkExtracted ["It is a ring ."] 15
  /\ extractStableSentences whole 15 = mkExtracted ["t has six carbons ."] 35
  /\ tts_jobs (speak_growing fragments 11)
     = ["It is a ring ."; "t has six carbons ."].
Proof. repeat split; vm_compute; reflexivity. Qed.

(** ** Which texts yield sentences, and what the sentences look like *)

(** A sentence break: a terminator followed by white space. *)
Definition break_at (s : string) : bool :=
  match s with
  | String c (String d _) => is_terminator c && JS.is_ws d
  | _ => false
  end.

Fixpoint has_break (s : string) : bool :=
  match s with
  | String _ rest => break_at s || has_break rest
  | EmptyString => false
  end.

Fixpoint last_char (s : string) : option ascii :=
  match s with
  | EmptyString => None
  | String c rest =>
      match rest with
      | EmptyString => Some c
      | _ => last_char rest
      end
  end.

Definition ends_with_terminator (s : string) : bool :=
  match last_char s with
  | Some c => is_terminator c
  | None => false
  end.

(** *** Strings *)

Lemma terminator_not_ws c : is_terminator c = true -> JS.is_ws c = false.
Proof.
  destruct c as [[] [] [] [] [] [] [] []]; try discriminate; reflexivity.
Qed.

Lemma last_char_snoc (y : string) (c : ascii) : last_char (y +:+ String c "") = Some c.
Proof.
  induction y as [|a y IH]; [reflexivity|].
  rewrite JSFacts.app_cons. cbn [last_char]. rewrite IH.
  destruct y; reflexivity.
Qed.

Lemma length_snoc_pos (y : string) (c : ascii) :
  0 < String.length (y +:+ String c "").
Proof.
  destruct y as [|a y].
  - change ("" +:+ String c "") with (String c ""). cbn [String.length]. lia.
  - rewrite JSFacts.app_cons. cbn [String.length]. lia.
Qed.

Lemma rev_app_snoc (y : string) (c : ascii) : forall t,
  String.rev_app (y +:+ String c "") t = String c (String.rev_app y t).
Proof.
  induction y as [|a y IH]; intros t; [reflexivity|].
  rewrite JSFacts.app_cons. cbn [String.rev_app]. apply IH.
Qed.

Lemma rev_app_rev_app (y : string) : forall u t,
  String.rev_app (String.rev_app y u) t = String.rev_app u (y +:+ t).
Proof.
  induction y as [|a y IH]; intros u t; [reflexivity|].
  cbn [String.rev_app]. rewrite IH. cbn [String.rev_app].
  now rewrite JSFacts.app_cons.
Qed.

Lemma trimStart_snoc (x : string) (c : ascii) :
  JS.is_ws c = false ->
  exists y, JS.trimStart (x +:+ String c "") = y +:+ String c "".
Proof.
  intros Hc. induction x as [|a x IH].
  - exists "". change ("" +:+ String c "") with (String c "").
    cbn [JS.trimStart]. now rewrite Hc.
  - rewrite JSFacts.app_cons. cbn [JS.trimStart].
    destruct (JS.is_ws a); [exact IH|].
    exists (String a x). now rewrite JSFacts.app_cons.
Qed.

Lemma trimEnd_snoc (y : string) (c : ascii) :
  JS.is_ws c = false -> JS.trimEnd (y +:+ String c "") = y +:+ String c "".
Proof.
  intros Hc. unfold JS.trimEnd, String.rev.
  rewrite rev_app_snoc. cbn [JS.trimStart]. rewrite Hc.
  cbn [String.rev_app]. now rewrite rev_app_rev_app.
Qed.

Lemma trim_snoc (x : string) (c : ascii) :
  JS.is_ws c = false ->
  exists y, JS.trim (x +:+ String c "") = y +:+ String c "".
Proof.
  intros Hc. unfold JS.trim.
  destruct (trimStart_snoc x c Hc) as [y ->].
  exists y. now apply trimEnd_snoc.
Qed.

Lemma trim_single (c : ascii) :
  JS.is_ws c = false -> JS.trim (String c "") = String c "".
Proof.
  intros Hc. unfold JS.trim. cbn [JS.trimStart]. rewrite Hc.
  change (String c "") with ("" +:+ String c ""). now apply trimEnd_snoc.
Qed.

(** *** The two regular expressions *)

Lemma terminator_re_later (s : string) : forall pos,
  pos <> 0 -> search terminator_re s pos = None.
Proof.
  induction s as [|c s IH]; intros pos Hpos.
  - cbn [search]. unfold exec_at, terminator_re. cbn [seqs rmatch].
    destruct pos; [contradiction | reflexivity].
  - cbn [search]. unfold exec_at at 1, terminator_re at 1. cbn [seqs rmatch].
    destruct pos; [contradiction|]. cbn [Nat.eqb]. now apply IH.
Qed.

(** [seg.match(/^[.!?]$/)] holds of the one-character strings that are a
    terminator. *)
Lemma terminator_re_matches (seg : string) :
  Regex.test terminator_re seg = true ->
  exists c, seg = String c "" /\ is_terminator c = true.
Proof.
  unfold Regex.test. destruct seg as [|c seg].
  - cbn. discriminate.
  - cbn [search]. unfold exec_at at 1, terminator_re at 1. cbn [seqs rmatch Nat.eqb].
    destruct (is_terminator c) eqn:Ec.
    + destruct seg as [|d seg].
      * intros _. now exists c.
      * rewrite terminator_re_later by discriminate. discriminate.
    + rewrite terminator_re_later by discriminate. discriminate.
Qed.

Lemma terminator_re_accepts (c : ascii) :
  is_terminator c = true -> Regex.test terminator_re (String c "") = true.
Proof.
  intros Hc. unfold Regex.test. cbn [search].
  unfold exec_at, terminator_re. cbn [seqs rmatch Nat.eqb]. now rewrite Hc.
Qed.

(** Where [/([.!?])\s+/] does not match: anywhere but at a break. *)
Lemma sentence_re_no_break (s : string) (q : nat) :
  break_at s = false -> exec_at sentence_re s q = None.
Proof.
  unfold break_at, exec_at, sentence_re, Plus. cbn [rmatch].
  destruct s as [|c [|d r]]; intros H.
  - reflexivity.
  - now destruct (is_terminator c).
  - destruct (is_terminator c); [|reflexivity].
    cbn [andb] in H. now rewrite H.
Qed.

(** Where it does: at a break, with the terminator as its capture, and it
    ends past the break. *)
Lemma sentence_re_break (c d : ascii) (r : string) (q : nat) :
  is_terminator c = true -> JS.is_ws d = true ->
  exists e, q < e /\ exec_at sentence_re (String c (String d r)) q
                     = Some (e, Some (String c "")).
Proof.
  intros Hc Hd. unfold exec_at, sentence_re, Plus. cbn [rmatch].
  rewrite Hc, Hd.
  replace (S q - q) with 1 by lia. cbn [JS.slice_to].
  generalize (String.length r) as n.
  assert (H : forall n s pos,
            exists e, pos <= e /\
              (fix iter (n : nat) (s : string) (pos : nat) (cap : option string)
                 {struct n} : mres :=
                 match n with
                 | 0 => Some (pos, cap)
                 | S n' =>
                     match
                       match s with
                       | String c0 rest =>
                           if JS.is_ws c0
                           then if pos <? S pos then iter n' rest (S pos) cap else None
                           else None
                       | EmptyString => None
                       end
                     with
                     | Some x => Some x
                     | None => Some (pos, cap)
                     end
                 end) n s pos (Some (String c "")) = Some (e, Some (String c ""))).
  { induction n as [|n IH]; intros s pos.
    - exists pos. split; [lia | reflexivity].
    - destruct s as [|c0 rest]; [exists pos; split; [lia | reflexivity]|].
      destruct (JS.is_ws c0); [|exists pos; split; [lia | reflexivity]].
      assert (Hlt : (pos <? S pos) = true) by (apply Nat.ltb_lt; lia).
      rewrite Hlt.
      destruct (IH rest (S pos)) as (e & He & ->).
      exists e. split; [lia | reflexivity]. }
  intros n. destruct (H n r (S (S q))) as (e & He & Heq).
  exists e. split; [lia | exact Heq].
Qed.

(** *** split *)

Lemma has_break_tail c s : has_break (String c s) = false -> has_break s = false.
Proof. cbn [has_break]. intros H. now apply orb_false_iff in H as [_ H]. Qed.

Lemma has_break_head c s :
  has_break (String c s) = false -> break_at (String c s) = false.
Proof. cbn [has_break]. intros H. now apply orb_false_iff in H as [H _]. Qed.

Lemma split_go_no_break (fuel : nat) : forall sp p sq q,
  has_break sq = false -> split_go fuel sentence_re sp p sq q = [sp].
Proof.
  induction fuel as [|fuel IH]; intros sp p sq q H; [reflexivity|].
  cbn [split_go]. destruct sq as [|c sq]; [reflexivity|].
  rewrite (sentence_re_no_break _ q (has_break_head _ _ H)).
  apply IH. now apply has_break_tail in H.
Qed.

Lemma split_no_break (s : string) :
  has_break s = false -> length (Regex.split sentence_re s) <= 1.
Proof.
  intros H. unfold Regex.split. destruct s as [|c s].
  - destruct (exec_at sentence_re "" 0); cbn; lia.
  - rewrite split_go_no_break by exact H. cbn. lia.
Qed.

(** With a break in what is left to scan, the split yields a piece, the
    terminator, and more. *)
Lemma split_go_break (fuel : nat) : forall sp p sq q,
  has_break sq = true -> String.length sq <= fuel -> p <= q ->
  exists piece c rest,
    is_terminator c = true
    /\ split_go fuel sentence_re sp p sq q = piece :: String c "" :: rest.
Proof.
  induction fuel as [|fuel IH]; intros sp p sq q H Hfuel Hpq.
  - destruct sq; [discriminate | cbn in Hfuel; lia].
  - destruct sq as [|c sq]; [discriminate|].
    cbn [split_go].
    destruct (break_at (String c sq)) eqn:Eb.
    + destruct sq as [|d r]; [discriminate|].
      cbn [break_at] in Eb. apply andb_prop in Eb as [Hc Hd].
      destruct (sentence_re_break c d r q Hc Hd) as (e & He & ->).
      assert (Hep : (e =? p) = false) by (apply Nat.eqb_neq; lia).
      rewrite Hep. cbn [cap_list app].
      eexists _, c, _. split; [exact Hc | reflexivity].
    + rewrite (sentence_re_no_break _ q Eb).
      cbn [has_break] in H. rewrite Eb in H. cbn [orb] in H.
      apply IH; [exact H | cbn in Hfuel; lia | lia].
Qed.

(** *** collect *)

Lemma collect_keeps (parts : list string) : forall acc sentences,
  exists new, collect parts acc sentences = sentences ++ new.
Proof.
  induction parts as [|seg parts IH]; intros acc sentences.
  - exists []. cbn. now rewrite app_nil_r.
  - cbn [collect]. destruct (negb (JS.nonempty seg)); [apply IH|].
    destruct (Regex.test terminator_re seg); [|apply IH].
    destruct (0 <? String.length _); [|apply IH].
    destruct (IH "" (sentences ++ [JS.trim (acc +:+ (if JS.nonempty acc then " " else "")
                                            +:+ JS.trim seg)])) as [new ->].
    eexists. now rewrite <- app_assoc.
Qed.

Lemma collect_terminated (parts : list string) : forall acc sentences,
  Forall (fun s => ends_with_terminator s = true) sentences ->
  Forall (fun s => ends_with_terminator s = true) (collect parts acc sentences).
Proof.
  induction parts as [|seg parts IH]; intros acc sentences H; [exact H|].
  cbn [collect]. destruct (negb (JS.nonempty seg)); [now apply IH|].
  destruct (Regex.test terminator_re seg) eqn:Et; [|now apply IH].
  apply IH.
  destruct (0 <? String.length _); [|exact H].
  apply Forall_app. split; [exact H|]. constructor; [|constructor].
  apply terminator_re_matches in Et as (c & -> & Hc).
  pose proof (terminator_not_ws c Hc) as Hws.
  rewrite (trim_single c Hws), <- JSFacts.app_assoc_s.
  destruct (trim_snoc (acc +:+ (if JS.nonempty acc then " " else "")) c Hws) as [y ->].
  unfold ends_with_terminator. now rewrite last_char_snoc.
Qed.

Lemma collect_cons (seg : string) (rest : list string) (acc : string)
    (sentences : list string) :
  collect (seg :: rest) acc sentences
  = if negb (JS.nonempty seg) then collect rest acc sentences
    else
      let acc1 := acc +:+ (if JS.nonempty acc then " " else "") +:+ JS.trim seg in
      if Regex.test terminator_re seg then
        let s := JS.trim acc1 in
        collect rest ""
          (if 0 <? String.length s then sentences ++ [s] else sentences)
      else collect rest acc1 sentences.
Proof. reflexivity. Qed.

Lemma collect_terminator (c : ascii) (rest : list string) (acc : string)
    (sentences : list string) :
  is_terminator c = true ->
  collect (String c "" :: rest) acc sentences <> [].
Proof.
  intros Hc. rewrite collect_cons. cbn [JS.nonempty negb]. cbn zeta.
  rewrite (terminator_re_accepts c Hc).
  pose proof (terminator_not_ws c Hc) as Hws.
  rewrite (trim_single c Hws), <- JSFacts.app_assoc_s.
  destruct (trim_snoc (acc +:+ (if JS.nonempty acc then " " else "")) c Hws) as [y ->].
  assert (Hlen : (0 <? String.length (y +:+ String c "")) = true)
    by (apply Nat.ltb_lt; apply length_snoc_pos).
  rewrite Hlen.
  destruct (collect_keeps rest "" (sentences ++ [y +:+ String c ""])) as [new ->].
  destruct sentences; discriminate.
Qed.

Lemma collect_break (piece : string) (c : ascii) (rest : list string) :
  is_terminator c = true ->
  collect (piece :: String c "" :: rest) "" [] <> [].
Proof.
  intros Hc. rewrite collect_cons. cbn zeta.
  destruct (negb (JS.nonempty piece)); [now apply collect_terminator|].
  destruct (Regex.test terminator_re piece); [|now apply collect_terminator].
  destruct (0 <? String.length _); now apply collect_terminator.
Qed.

(** Only whole sentences are spoken.  Every sentence
    [extractStableSentences] returns ends with one of the terminators [.],
    [!] and [?]; so does every job [speakText] hands to the queue, and
    [speakText] only ever adds jobs at the end of the queue. *)
Theorem sentences_end_with_terminator (text : string) (startIndex : nat) :
  Forall (fun s => ends_with_terminator s = true)
    (sentences (extractStableSentences text startIndex))
  /\ forall messageId st,
       exists new,
         tts_jobs (speakText text messageId st) = tts_jobs st ++ new
         /\ Forall (fun s => ends_with_terminator s = true) new.
Proof.
  assert (H : forall t i,
            Forall (fun s => ends_with_terminator s = true)
              (sentences (extractStableSentences t i))).
  { intros t i. unfold extractStableSentences.
    destruct (length _ <=? 1); [constructor|].
    cbn [sentences]. apply collect_terminated. constructor. }
  split; [apply H|].
  intros messageId st. unfold speakText.
  assert (Hsame : exists new, tts_jobs st = tts_jobs st ++ new
                    /\ Forall (fun s => ends_with_terminator s = true) new).
  { exists []. split; [now rewrite app_nil_r | constructor]. }
  destruct (isMuted st); [exact Hsame|].
  destruct (bool_decide _); [exact Hsame|].
  specialize (H (cleanText text) (default 0 (lastSpokenIndex st !! messageId))).
  destruct (sentences (extractStableSentences (cleanText text) _)) as [|s l] eqn:E;
    [exact Hsame|].
  exists (s :: l). split; [reflexivity | exact H].
Qed.

(** A sentence is spoken once its terminator is followed by white space, and
    not before.  [extractStableSentences] returns sentences exactly when the
    text, from the start index on, holds a terminator followed by a white
    space character; when it holds none, the index it returns is the start
    index, and [speakText] leaves the queue and the indices as they were. *)
Theorem sentences_need_a_break (text : string) (startIndex : nat) :
  (sentences (extractStableSentences text startIndex) = []
   <-> has_break (JS.slice_from startIndex text) = false)
  /\ (has_break (JS.slice_from startIndex text) = false ->
      extractStableSentences text startIndex = mkExtracted [] startIndex)
  /\ (forall raw messageId st,
        cleanText raw = text ->
        default 0 (lastSpokenIndex st !! messageId) = startIndex ->
        has_break (JS.slice_from startIndex text) = false ->
        speakText raw messageId st = st).
Proof.
  assert (Hnone : has_break (JS.slice_from startIndex text) = false ->
                  extractStableSentences text startIndex = mkExtracted [] startIndex).
  { intros H. unfold extractStableSentences.
    pose proof (split_no_break _ H) as Hl.
    apply Nat.leb_le in Hl. now rewrite Hl. }
  split; [|split; [exact Hnone|]].
  - split.
    + intros H. destruct (has_break (JS.slice_from startIndex text)) eqn:Eb;
        [|reflexivity].
      exfalso. revert H. unfold extractStableSentences.
      destruct (JS.slice_from startIndex text) as [|c s] eqn:Es; [discriminate|].
      unfold Regex.split.
      destruct (split_go_break (2 * String.length (String c s) + 2) (String c s) 0
                  (String c s) 0 Eb) as (piece & t & rest & Ht & ->); [lia | lia |].
      cbn [length Nat.leb sentences].
      now apply collect_break.
    + intros H. now rewrite (Hnone H).
  - intros raw messageId st <- <- H. unfold speakText.
    destruct (isMuted st); [reflexivity|].
    destruct (bool_decide _); [reflexivity|].
    now rewrite (Hnone H).
Qed.

End Voice.

(* ===================================================================== *)
(** * The chat store (ChatContext) *)
(* ===================================================================== *)

Module Chat.
Import JSV.

(** [{ kind: 'molecule', name, smiles }] *)
Record attachment : Type := mkAttachment {
  att_name : jsval;
  att_smiles : jsval
}.

(** A message; [msg_attachments] is [None] while the field is absent. *)
Record message : Type := mkMessage {
  msg_id : Z;
  msg_role : string;
  msg_text : string;
  msg_attachments : option (list attachment)
}.

Record chat : Type := mkChat {
  chat_id : Z;
  chat_title : string;
  chat_updatedAt : Z;
  chat_messages : list message
}.

Definition set_messages (c : chat) (ms : list message) : chat :=
  mkChat (chat_id c) (chat_title c) (chat_updatedAt c) ms.

Definition set_text (m : message) (t : string) : message :=
  mkMessage (msg_id m) (msg_role m) t (msg_attachments m).

Definition set_attachments (m : message) (a : list attachment) : message :=
  mkMessage (msg_id m) (msg_role m) (msg_text m) (Some a).

(** [Array.isArray(last.attachments) ? last.attachments.slice() : []] *)
Definition attachments_of (m : message) : list attachment :=
  match msg_attachments m with Some a => a | None => [] end.

Definition is_assistant (m : message) : bool := String.eqb (msg_role m) "assistant".

(** The updater every handler passes to [setChats]:

      prev.map(c => {
        if (c.id !== selectedId) return c;
        const lastIndex = c.messages.length - 1;
        const last = c.messages[lastIndex];
        if (last && last.role === 'assistant') {
          const updated = f(last);
          return { ...c, messages: [...c.messages.slice(0, lastIndex), updated] };
        }
        return c;
      })
*)
Definition update_chat (f : message -> message) (c : chat) : chat :=
  match last (chat_messages c) with
  | Some l =>
      if is_assistant l
      then set_messages c (removelast (chat_messages c) ++ [f l])
      else c
  | None => c
  end.

Definition update_last (selectedId : Z) (f : message -> message)
    (chats : list chat) : list chat :=
  map (fun c => if Z.eqb (chat_id c) selectedId then update_chat f c else c) chats.

Definition append_text (t : string) (m : message) : message :=
  set_text m (msg_text m +:+ t).

Definition push_attachments (a : list attachment) (m : message) : message :=
  set_attachments m (attachments_of m ++ a).

(** The last message of the chat [selectedId], when it is the assistant's. *)
Definition in_flight (selectedId : Z) (chats : list chat) : list message :=
  flat_map
    (fun c =>
       if Z.eqb (chat_id c) selectedId then
         match last (chat_messages c) with
         | Some l => if is_assistant l then [l] else []
         | None => []
         end
       else [])
    chats.

(** ** Facts *)

Lemma in_flight_update_last selectedChatId (f : message -> message) chats :
  (forall l, is_assistant (f l) = is_assistant l) ->
  in_flight selectedChatId (update_last selectedChatId f chats)
  = map f (in_flight selectedChatId chats).
Proof.
  intros Hf. unfold in_flight, update_last.
  induction chats as [|c chats IH]; [reflexivity|].
  cbn [map flat_map]. rewrite map_app, IH. f_equal.
  destruct (Z.eqb (chat_id c) selectedChatId) eqn:E.
  - unfold update_chat.
    destruct (last (chat_messages c)) as [l|] eqn:El.
    + destruct (is_assistant l) eqn:Ea.
      * cbn [set_messages chat_id chat_messages]. rewrite E, last_snoc, Hf, Ea.
        reflexivity.
      * now rewrite E, El, Ea.
    + now rewrite E, El.
  - now rewrite E.
Qed.

Lemma attachments_update_last selectedChatId (a : list attachment) chats :
  map attachments_of (in_flight selectedChatId
                        (update_last selectedChatId (push_attachments a) chats))
  = map (fun old => old ++ a) (map attachments_of (in_flight selectedChatId chats)).
Proof.
  rewrite in_flight_update_last by reflexivity.
  rewrite !map_map. reflexivity.
Qed.

End Chat.

(* ===================================================================== *)
(** * The optimistic update of [sendMessage] (both chat hooks) *)
(* ===================================================================== *)

Module Send.
Import Chat.

(** [[...next].sort((a, b) => b.updatedAt - a.updatedAt)]: the comparator is
    a consistent order on numbers and the sort is stable, which fixes the
    result: the chats by descending [updatedAt], chats that compare equal in
    the order they had.  [insert_chat c l] puts [c], which stood before every
    chat of [l], in its place. *)
Fixpoint insert_chat (c : chat) (l : list chat) : list chat :=
  match l with
  | [] => [c]
  | d :: rest =>
      if Z.ltb (chat_updatedAt c) (chat_updatedAt d)
      then d :: insert_chat c rest
      else c :: d :: rest
  end.

Definition sort_by_updatedAt (l : list chat) : list chat :=
  fold_right insert_chat [] l.

(** [c.title === 'New Chat' && text ? text.slice(0, 40) : c.title] *)
Definition next_title (c : chat) (text : string) : string :=
  if String.eqb (chat_title c) "New Chat" && JS.nonempty text
  then JS.slice_to 40 text
  else chat_title c.

(** The callback of [prev.map] in the optimistic update; [now k] is the
    [k]-th reading of [Date.now()], and a chat that is updated takes three
    readings: for the id of the user message, for the id of the assistant
    message and for [updatedAt]. *)
Fixpoint add_messages (now : nat -> Z) (k : nat) (text : string)
    (selectedChatId : Z) (prev : list chat) : list chat :=
  match prev with
  | [] => []
  | c :: rest =>
      if Z.eqb (chat_id c) selectedChatId then
        let userMsg := mkMessage (now k) "user" text None in
        let botMsg := mkMessage (now (k + 1) + 1) "assistant" "" None in
        mkChat (chat_id c) (next_title c text) (now (k + 2))
          (chat_messages c ++ [userMsg; botMsg])
        :: add_messages now (k + 3) text selectedChatId rest
      else c :: add_messages now k text selectedChatId rest
  end.

(** The updater [sendMessage] passes to [setChats] before it contacts the
    server. *)
Definition optimistic_add (now : nat -> Z) (text : string) (selectedChatId : Z)
    (prev : list chat) : list chat :=
  sort_by_updatedAt (add_messages now 0 text selectedChatId prev).

(** The chats have their [updatedAt] in descending order. *)
Fixpoint newest_first (l : list chat) : bool :=
  match l with
  | [] => true
  | c :: rest =>
      forallb (fun d => Z.leb (chat_updatedAt d) (chat_updatedAt c)) rest
      && newest_first rest
  end.

(** The empty assistant message an answer streams into. *)
Definition is_fresh_answer (m : message) : bool :=
  is_assistant m
  && negb (JS.nonempty (msg_text m))
  && match msg_attachments m with None => true | Some _ => false end.

(** ** Facts *)

Lemma insert_chat_perm c l : Permutation (insert_chat c l) (c :: l).
Proof.
  induction l as [|d l IH]; [reflexivity|].
  cbn [insert_chat]. destruct (Z.ltb _ _); [|reflexivity].
  rewrite IH. apply perm_swap.
Qed.

Lemma sort_by_updatedAt_perm l : Permutation (sort_by_updatedAt l) l.
Proof.
  induction l as [|c l IH]; [reflexivity|].
  cbn [sort_by_updatedAt fold_right]. fold (sort_by_updatedAt l).
  rewrite insert_chat_perm. now constructor.
Qed.

Lemma insert_chat_newest_first c l :
  newest_first l = true -> newest_first (insert_chat c l) = true.
Proof.
  induction l as [|d l IH]; [reflexivity|].
  cbn [insert_chat newest_first]. intros H.
  apply andb_prop in H as [Hd Hl].
  destruct (Z.ltb (chat_updatedAt c) (chat_updatedAt d)) eqn:E.
  - cbn [newest_first]. rewrite (IH Hl), andb_true_r.
    apply forallb_forall. intros x Hx.
    apply (Permutation_in _ (insert_chat_perm c l)) in Hx.
    destruct Hx as [<-|Hx].
    + apply Z.leb_le. apply Z.ltb_lt in E. lia.
    + rewrite forallb_forall in Hd. now apply Hd.
  - cbn [newest_first forallb]. rewrite Hd, Hl, !andb_true_r.
    apply Z.ltb_ge in E. apply andb_true_intro. split.
    + now apply Z.leb_le.
    + apply forallb_forall. intros x Hx.
      rewrite forallb_forall in Hd. specialize (Hd x Hx).
      apply Z.leb_le in Hd. apply Z.leb_le. lia.
Qed.

Lemma sort_by_updatedAt_newest_first l : newest_first (sort_by_updatedAt l) = true.
Proof.
  induction l as [|c l IH]; [reflexivity|].
  cbn [sort_by_updatedAt fold_right]. now apply insert_chat_newest_first.
Qed.

(** The chats of the selected id, in order: sorting only moves them. *)
Lemma in_flight_perm selectedChatId l l' :
  Permutation l l' ->
  Permutation (in_flight selectedChatId l) (in_flight selectedChatId l').
Proof.
  intros H. unfold in_flight.
  induction H; cbn [flat_map].
  - reflexivity.
  - now apply Permutation_app_head.
  - rewrite !app_assoc. apply Permutation_app_tail, Permutation_app_comm.
  - etransitivity; eassumption.
Qed.

Lemma add_messages_ids now text selectedChatId prev : forall k,
  map chat_id (add_messages now k text selectedChatId prev) = map chat_id prev.
Proof.
  induction prev as [|c prev IH]; intros k; [reflexivity|].
  cbn [add_messages]. destruct (Z.eqb _ _); cbn [map chat_id]; now rewrite IH.
Qed.

Lemma add_messages_in_flight now text selectedChatId prev : forall k,
  Forall (fun m => is_fresh_answer m = true)
    (in_flight selectedChatId (add_messages now k text selectedChatId prev))
  /\ length (in_flight selectedChatId (add_messages now k text selectedChatId prev))
     = length (List.filter (fun c => Z.eqb (chat_id c) selectedChatId) prev).
Proof.
  induction prev as [|c prev IH]; intros k.
  - split; [constructor | reflexivity].
  - cbn [add_messages List.filter].
    destruct (Z.eqb (chat_id c) selectedChatId) eqn:E.
    + unfold in_flight. cbn [flat_map chat_id chat_messages]. rewrite E.
      rewrite last_app. cbn [last]. unfold is_assistant at 1 3. cbn [msg_role].
      change (String.eqb "assistant" "assistant") with true. cbn iota.
      destruct (IH (k + 3)) as [Hf Hl]. split.
      * constructor; [reflexivity | exact Hf].
      * cbn [app length]. f_equal. exact Hl.
    + unfold in_flight. cbn [flat_map]. rewrite E. cbn [app].
      apply IH.
Qed.

Lemma add_messages_others now text selectedChatId prev : forall k c',
  In c' (add_messages now k text selectedChatId prev) ->
  if Z.eqb (chat_id c') selectedChatId then
    exists c u b,
      In c prev /\ chat_id c = chat_id c'
      /\ chat_messages c' = chat_messages c ++ [u; b]
      /\ msg_role u = "user" /\ msg_text u = text
      /\ is_fresh_answer b = true
      /\ chat_title c' = next_title c text
  else In c' prev.
Proof.
  induction prev as [|c prev IH]; intros k c' Hin; [destruct Hin|].
  cbn [add_messages] in Hin.
  destruct (Z.eqb (chat_id c) selectedChatId) eqn:E.
  - destruct Hin as [<-|Hin].
    + cbn [chat_id]. rewrite E.
      eexists c, _, _. repeat split; try reflexivity. now left.
    + specialize (IH _ _ Hin).
      destruct (Z.eqb (chat_id c') selectedChatId).
      * destruct IH as (c0 & u & b & H0 & H).
        exists c0, u, b. split; [now right | exact H].
      * now right.
  - destruct Hin as [<-|Hin].
    + rewrite E. now left.
    + specialize (IH _ _ Hin).
      destruct (Z.eqb (chat_id c') selectedChatId).
      * destruct IH as (c0 & u & b & H0 & H).
        exists c0, u, b. split; [now right | exact H].
      * now right.
Qed.

Lemma optimistic_add_ids now text selectedChatId prev :
  Permutation (map chat_id (optimistic_add now text selectedChatId prev))
    (map chat_id prev).
Proof.
  unfold optimistic_add.
  rewrite <- (add_messages_ids now text selectedChatId prev 0).
  apply Permutation_map, sort_by_updatedAt_perm.
Qed.

Lemma add_opens_answer now text selectedChatId prev :
  Forall (fun m => is_fresh_answer m = true)
    (in_flight selectedChatId (optimistic_add now text selectedChatId prev))
  /\ length (in_flight selectedChatId (optimistic_add now text selectedChatId prev))
     = length (List.filter (fun c => Z.eqb (chat_id c) selectedChatId) prev).
Proof.
  unfold optimistic_add.
  pose proof (sort_by_updatedAt_perm (add_messages now 0 text selectedChatId prev)) as Hp.
  destruct (add_messages_in_flight now text selectedChatId prev 0) as [Hf Hl].
  split.
  - rewrite List.Forall_forall in Hf |- *. intros m Hm. apply Hf.
    eapply Permutation_in; [|exact Hm].
    symmetry. now apply in_flight_perm.
  - rewrite <- Hl. apply Permutation_length. now apply in_flight_perm.
Qed.

(** What the optimistic update does.  The chats are the chats there were
    (same ids), newest first; a chat of another id is one of the chats there
    were, unchanged; a chat of the selected id has the user's message and an
    empty assistant message appended to the messages it had and, when it was
    still called New Chat and the text is not empty, the first 40 characters
    of the text as its title; and the last message of every chat of the
    selected id is such an empty assistant message: the answer has a place to
    stream into. *)
Theorem optimistic_add_opens_answer (now : nat -> Z) (text : string)
    (selectedChatId : Z) (prev : list chat) :
  let next := optimistic_add now text selectedChatId prev in
  Permutation (map chat_id next) (map chat_id prev)
  /\ newest_first next = true
  /\ (forall c', In c' next ->
        if Z.eqb (chat_id c') selectedChatId then
          exists c u b,
            In c prev /\ chat_id c = chat_id c'
            /\ chat_messages c' = chat_messages c ++ [u; b]
            /\ msg_role u = "user" /\ msg_text u = text
            /\ is_fresh_answer b = true
            /\ chat_title c' = next_title c text
        else In c' prev)
  /\ Forall (fun m => is_fresh_answer m = true) (in_flight selectedChatId next)
  /\ length (in_flight selectedChatId next)
     = length (List.filter (fun c => Z.eqb (chat_id c) selectedChatId) prev).
Proof.
  intros next. unfold next, optimistic_add.
  pose proof (sort_by_updatedAt_perm (add_messages now 0 text selectedChatId prev)) as Hp.
  split; [|split; [|split; [|split]]].
  - apply optimistic_add_ids.
  - apply sort_by_updatedAt_newest_first.
  - intros c' Hin. apply (Permutation_in _ Hp) in Hin.
    now apply add_messages_others in Hin.
  - apply add_opens_answer.
  - apply add_opens_answer.
Qed.

End Send.

(* ===================================================================== *)
(** * ChatContext: the chats and the selection *)
(* ===================================================================== *)

Module ChatContext.
Import Chat.

(** The two pieces of state of [ChatProvider]; [None] is [null]. *)
Record store : Type := mkStore {
  store_chats : list chat;
  store_selected : option Z
}.

(** [l[0]?.id || null], and the truth value of [l[0]?.id]: the id of the
    first chat when there is one and it is not zero. *)
Definition first_id (l : list chat) : option Z :=
  match l with
  | c :: _ => if Z.eqb (chat_id c) 0 then None else Some (chat_id c)
  | [] => None
  end.

(** The seed of a first visit:
    [[{ id: Date.now(), title: 'New Chat', messages: [], updatedAt: Date.now() }]]
    and no selection. *)
Definition seed (id_now updated_now : Z) : store :=
  mkStore [mkChat id_now "New Chat" updated_now []] None.

(** The effect that follows every change of the chats or of the selection:
    [if (selectedChatId == null && chats[0]?.id) setSelectedChatId(chats[0].id)]. *)
Definition initialize_selection (st : store) : store :=
  match store_selected st with
  | None => mkStore (store_chats st) (first_id (store_chats st))
  | Some _ => st
  end.

Definition createChat (id_now updated_now : Z) (st : store) : store :=
  mkStore (mkChat id_now "New Chat" updated_now [] :: store_chats st) (Some id_now).

Definition deleteChat (chatId : Z) (st : store) : store :=
  let remaining :=
    List.filter (fun c => negb (Z.eqb (chat_id c) chatId)) (store_chats st) in
  let nextSelected :=
    match store_selected st with
    | Some s => if Z.eqb s chatId then first_id remaining else Some s
    | None => None
    end in
  mkStore remaining nextSelected.

(** [chats.find((c) => c.id === selectedChatId) || chats[0]] of the shells. *)
Definition activeChat (st : store) : option chat :=
  match store_selected st with
  | Some s =>
      match List.find (fun c => Z.eqb (chat_id c) s) (store_chats st) with
      | Some c => Some c
      | None => head (store_chats st)
      end
  | None => head (store_chats st)
  end.

(** What the user can do to the store: start a chat (the clock gives its id
    and its date), pick the [i]-th chat of the list, delete a chat, send a
    message (the optimistic update re-orders the chats). *)
Inductive action : Type :=
| NewChat (id_now updated_now : Z)
| SelectChat (i : nat)
| DeleteChat (chatId : Z)
| SendMessage (now : nat -> Z) (text : string).

(** An action and the effect that follows it; [None] when the action cannot
    happen: the clock reads a positive number, and the list offers the chats
    there are. *)
Definition act (st : store) (a : action) : option store :=
  match a with
  | NewChat id_now updated_now =>
      if Z.ltb 0 id_now
      then Some (initialize_selection (createChat id_now updated_now st))
      else None
  | SelectChat i =>
      match nth_error (store_chats st) i with
      | Some c => Some (initialize_selection (mkStore (store_chats st) (Some (chat_id c))))
      | None => None
      end
  | DeleteChat chatId => Some (initialize_selection (deleteChat chatId st))
  | SendMessage now text =>
      Some (initialize_selection
              (mkStore
                 (match store_selected st with
                  | Some s => Send.optimistic_add now text s (store_chats st)
                  | None => Send.sort_by_updatedAt (store_chats st)
                  end)
                 (store_selected st)))
  end.

Fixpoint acts (st : store) (l : list action) : option store :=
  match l with
  | [] => Some st
  | a :: rest =>
      match act st a with
      | Some st' => acts st' rest
      | None => None
      end
  end.

(** The selection names a chat of the list, and is absent only when the list
    is empty; no chat has the id zero. *)
Definition selection_ok (st : store) : Prop :=
  Forall (fun c => chat_id c <> 0%Z) (store_chats st)
  /\ match store_selected st with
     | Some s => In s (map chat_id (store_chats st))
     | None => store_chats st = []
     end.

(** ** Facts *)

Lemma first_id_ok (l : list chat) :
  Forall (fun c => chat_id c <> 0%Z) l ->
  match first_id l with
  | Some s => In s (map chat_id l)
  | None => l = []
  end.
Proof.
  intros H. destruct l as [|c l]; [reflexivity|].
  cbn [first_id]. inversion H as [|? ? Hc _]; subst.
  destruct (Z.eqb (chat_id c) 0) eqn:E.
  - apply Z.eqb_eq in E. contradiction.
  - now left.
Qed.

Lemma initialize_selection_ok st :
  Forall (fun c => chat_id c <> 0%Z) (store_chats st) ->
  match store_selected st with
  | Some s => In s (map chat_id (store_chats st))
  | None => True
  end ->
  selection_ok (initialize_selection st).
Proof.
  intros Hids Hsel. unfold initialize_selection, selection_ok.
  destruct (store_selected st) as [s|] eqn:E.
  - rewrite E. now split.
  - cbn [store_chats store_selected]. split; [exact Hids|].
    now apply first_id_ok.
Qed.

Lemma act_ok st a st' : selection_ok st -> act st a = Some st' -> selection_ok st'.
Proof.
  intros [Hids Hsel] H. destruct a as [id_now updated_now|i|chatId|now text];
    cbn [act] in H.
  - destruct (Z.ltb 0 id_now) eqn:E; [|discriminate].
    injection H as <-. apply Z.ltb_lt in E.
    apply initialize_selection_ok; cbn [createChat store_chats store_selected].
    + constructor; [cbn; lia | exact Hids].
    + now left.
  - destruct (nth_error (store_chats st) i) as [c|] eqn:E; [|discriminate].
    injection H as <-.
    apply initialize_selection_ok; cbn [store_chats store_selected]; [exact Hids|].
    apply in_map. eapply nth_error_In. exact E.
  - injection H as <-.
    assert (Hrem : Forall (fun c => chat_id c <> 0%Z)
                     (List.filter (fun c => negb (Z.eqb (chat_id c) chatId))
                        (store_chats st))).
    { rewrite List.Forall_forall in Hids |- *. intros c Hc.
      apply filter_In in Hc as [Hc _]. now apply Hids. }
    unfold deleteChat.
    destruct (store_selected st) as [s|] eqn:Es.
    + destruct (Z.eqb s chatId) eqn:E.
      * unfold initialize_selection. cbn [store_selected store_chats].
        pose proof (first_id_ok _ Hrem) as Hf.
        destruct (first_id _) as [s'|]; cbn [store_selected store_chats];
          (split; [exact Hrem | exact Hf]).
      * apply initialize_selection_ok; cbn [store_chats store_selected];
          [exact Hrem|].
        apply in_map_iff in Hsel as (c & Hc & Hin).
        apply in_map_iff. exists c. split; [exact Hc|].
        apply filter_In. split; [exact Hin|].
        rewrite Hc, E. reflexivity.
    + subst. apply initialize_selection_ok; cbn [store_chats store_selected];
        [exact Hrem | exact I].
  - injection H as <-.
    destruct (store_selected st) as [s|] eqn:Es.
    + pose proof (Send.optimistic_add_ids now text s (store_chats st)) as Hp.
      apply initialize_selection_ok; cbn [store_chats store_selected].
      * rewrite List.Forall_forall in Hids |- *. intros c Hc.
        apply (in_map chat_id) in Hc.
        apply (Permutation_in _ Hp) in Hc.
        apply in_map_iff in Hc as (c0 & <- & Hc0). now apply Hids.
      * eapply Permutation_in; [symmetry; exact Hp | exact Hsel].
    + rewrite Hsel. cbn. split; [constructor | reflexivity].
Qed.

Lemma acts_ok l : forall st st',
  selection_ok st -> acts st l = Some st' -> selection_ok st'.
Proof.
  induction l as [|a l IH]; intros st st' Hok H; cbn [acts] in H.
  - now injection H as <-.
  - destruct (act st a) as [st1|] eqn:E; [|discriminate].
    eapply IH; [|exact H]. now apply (act_ok st a).
Qed.

Lemma seed_ok id_now updated_now :
  (0 < id_now)%Z -> selection_ok (initialize_selection (seed id_now updated_now)).
Proof.
  intros H. apply initialize_selection_ok; cbn [seed store_chats store_selected].
  - constructor; [cbn; lia | constructor].
  - exact I.
Qed.

(** The selection never dangles.  From a store in which the selection names
    a chat of the list (the seeded store of a first visit is one), whatever
    the user does - new chats, picking a chat, deleting chats, the selected
    one included, sending messages - the selection still names a chat of the
    list, it is absent only when no chat is left, and the chat the shell
    shows is the selected chat, not the fallback to the first of the list. *)
Theorem selection_names_shown_chat (st st' : store) (l : list action) :
  selection_ok st ->
  acts st l = Some st' ->
  selection_ok st'
  /\ match activeChat st' with
     | Some c => store_selected st' = Some (chat_id c) /\ In c (store_chats st')
     | None => store_selected st' = None /\ store_chats st' = []
     end.
Proof.
  intros Hok H. pose proof (acts_ok l st st' Hok H) as Hok'.
  split; [exact Hok'|].
  destruct Hok' as [_ Hsel]. unfold activeChat.
  destruct (store_selected st') as [s|].
  - destruct (List.find (fun c => Z.eqb (chat_id c) s) (store_chats st')) as [c|] eqn:E.
    + apply find_some in E as [Hin Hc]. apply Z.eqb_eq in Hc.
      split; [now rewrite Hc | exact Hin].
    + exfalso. apply in_map_iff in Hsel as (c & Hc & Hin).
      pose proof (find_none _ _ E c Hin) as Hn. cbn in Hn.
      rewrite Hc, Z.eqb_refl in Hn. discriminate.
  - rewrite Hsel. now split.
Qed.

Lemma selection_names_shown_chat_witness :
  let st := initialize_selection (seed 1700 1700) in
  let l := [SendMessage (fun k => 1800 + Z.of_nat k)%Z "What is benzene?";
            NewChat 1900 1900; DeleteChat 1900] in
  selection_ok st
  /\ exists st',
       acts st l = Some st'
       /\ store_selected st' = Some 1700%Z
       /\ map chat_title (store_chats st') = ["What is benzene?"]
       /\ selection_ok st'.
Proof.
  intros st l.
  assert (Hst : selection_ok st) by (apply seed_ok; lia).
  split; [exact Hst|].
  eexists. split; [vm_compute; reflexivity|].
  split; [reflexivity|]. split; [reflexivity|].
  exact (proj1 (selection_names_shown_chat st _ l Hst eq_refl)).
Defined.

End ChatContext.

(* ===================================================================== *)
(** * frontend/src/hooks/useSSEChat.js *)
(* ===================================================================== *)

Module SSEChat.
Import JSV Chat.

(** What a handler leaves on the console. *)
Inductive log : Type :=
| LogEvent (eventType : jsval) (event : props)  (* '[SSE Event]' *)
| LogAudio (sentence_id : jsval)                (* 'Triggering audio playback' *)
| LogComplete                                   (* 'Stream complete' *)
| LogError (message : jsval)                    (* console.error *)
| WarnUnknown (eventType : jsval).              (* 'Unknown event type:' *)

Section Hook.

(** [JSON.parse], [None] when it throws. *)
Variable JSON_parse : string -> option jsval.

(** The state the two callbacks of the hook act on, and the callbacks; a
    callback that is not supplied is [None]. *)
Variable S : Type.
Variable onAudioEvent : option (jsval -> jsval -> jsval -> S -> S).
Variable onTextEvent : option (props -> S -> S).

(** ** parseSSEEvent *)

(** The [for] loop over the lines of a block, from the values of [eventType]
    and [data] reached so far. *)
Fixpoint parse_lines (lines : list string) (eventType : string) (data : jsval)
    : string * jsval :=
  match lines with
  | [] => (eventType, data)
  | line :: rest =>
      if JS.startsWith "event:" line then
        parse_lines rest (JS.trim (JS.slice_from 6 line)) data
      else if JS.startsWith "data:" line then
        let dataStr := JS.trim (JS.slice_from 5 line) in
        parse_lines rest eventType
          (match JSON_parse dataStr with
           | Some v => v
           | None => JObj [("raw", JStr dataStr)]
           end)
      else parse_lines rest eventType data
  end.

(** [None] is the [null] result. *)
Definition parseSSEEvent (eventBlock : string) : option props :=
  let '(eventType, data) := parse_lines (JS.split_lines eventBlock) "message" JNull in
  if truthy data then Some (("type", JStr eventType) :: spread data)
  else None.

(** ** handleSSEEvent *)

Record session : Type := mkSession {
  chats : list chat;
  console : list log;
  sink : S
}.

(** How a call ends: normally, or by an exception thrown in the state given. *)
Inductive outcome (A : Type) : Type :=
| Ok (a : A)
| Throw (w : session).
Arguments Ok {A} a.
Arguments Throw {A} w.

Definition say (l : log) (w : session) : session :=
  mkSession (chats w) (console w ++ [l]) (sink w).

Definition setChats (f : list chat -> list chat) (w : session) : session :=
  mkSession (f (chats w)) (console w) (sink w).

Definition on_sink (f : S -> S) (w : session) : session :=
  mkSession (chats w) (console w) (f (sink w)).

Definition is_type (name : string) (v : jsval) : bool :=
  match v with JStr s => String.eqb s name | _ => false end.

(** [content.trim()] for the [content] of a text event: a string is trimmed,
    anything else has no [trim] method. *)
Definition content_trim (content : jsval) : option string :=
  match content with
  | JStr s => Some (JS.trim s)
  | _ => None
  end.

(** The updater of the text case concatenates [content] to the text of the
    in-flight message, when there is one; the conversion to a string is only
    attempted then, and an exception it raises is taken to be raised by the
    call of [setChats]. *)
Definition append_content (selectedChatId : Z) (content : jsval) (w : session)
    : outcome session :=
  match in_flight selectedChatId (chats w), to_string content with
  | _ :: _, None => Throw w
  | _, Some t => Ok (setChats (update_last selectedChatId (append_text t)) w)
  | [], None => Ok w
  end.

Definition handleSSEEvent (event : props) (selectedChatId : Z) (w0 : session)
    : outcome session :=
  let eventType := get "type" event in
  let w := say (LogEvent eventType event) w0 in
  if is_type "text" eventType then
    let content := or_else (get "content" event) (JStr "") in
    match append_content selectedChatId content w with
    | Throw w' => Throw w'
    | Ok w1 =>
        match onTextEvent with
        | None => Ok w1
        | Some cb =>
            match content_trim content with
            | None => Throw w1
            | Some EmptyString => Ok w1
            | Some _ => Ok (on_sink (cb event) w1)
            end
        end
    end
  else if is_type "audio" eventType then
    match onAudioEvent with
    | Some cb =>
        if truthy (get "audio_base64" event) then
          Ok (on_sink
                (cb (get "audio_base64" event) (get "sentence_id" event)
                   (get "text" event))
                (say (LogAudio (get "sentence_id" event)) w))
        else Ok w
    | None => Ok w
    end
  else if is_type "molecule" eventType then
    Ok (setChats
          (update_last selectedChatId
             (push_attachments [mkAttachment (get "name" event) (get "smiles" event)]))
          w)
  else if is_type "complete" eventType || is_type "done" eventType then
    Ok (say LogComplete w)
  else if is_type "error" eventType then
    let w1 := say (LogError (get "message" event)) w in
    match to_string (get "message" event) with
    | None => Throw w1
    | Some m =>
        let errorMsg := String JS.LF ("[Error: " +:+ m +:+ "]") in
        Ok (setChats (update_last selectedChatId (append_text errorMsg)) w1)
    end
  else Ok (say (WarnUnknown eventType) w).

Definition known_type (eventType : jsval) : bool :=
  is_type "text" eventType || is_type "audio" eventType
  || is_type "molecule" eventType || is_type "complete" eventType
  || is_type "done" eventType || is_type "error" eventType.

(** ** The read loop of sendMessage *)

Definition is_blank (s : string) : bool :=
  match JS.trim s with EmptyString => true | _ => false end.

(** [for (const eventBlock of events) ...] *)
Fixpoint dispatch (selectedChatId : Z) (events : list string) (w : session)
    : outcome session :=
  match events with
  | [] => Ok w
  | eventBlock :: rest =>
      if is_blank eventBlock then dispatch selectedChatId rest w
      else
        match parseSSEEvent eventBlock with
        | Some parsedEvent =>
            match handleSSEEvent parsedEvent selectedChatId w with
            | Ok w' => dispatch selectedChatId rest w'
            | Throw w' => Throw w'
            end
        | None => dispatch selectedChatId rest w
        end
  end.

(** One turn of [while (true)]: the decoded chunk is appended to the buffer,
    the buffer is split at blank lines, the last piece stays in the buffer
    and the others are dispatched. *)
Definition on_chunk (selectedChatId : Z) (buffer chunk : string) (w : session)
    : outcome (string * session) :=
  let events := JS.split_blank (buffer +:+ chunk) in
  let buffer' := List.last events "" in
  match dispatch selectedChatId (removelast events) w with
  | Ok w' => Ok (buffer', w')
  | Throw w' => Throw w'
  end.

Fixpoint read_loop (selectedChatId : Z) (chunks : list string) (buffer : string)
    (w : session) : outcome (string * session) :=
  match chunks with
  | [] => Ok (buffer, w)
  | chunk :: rest =>
      match on_chunk selectedChatId buffer chunk w with
      | Ok (buffer', w') => read_loop selectedChatId rest buffer' w'
      | Throw w' => Throw w'
      end
  end.

(** The blank-line-terminated frames of a stream, and what follows the last
    of them. *)
Definition complete_frames (stream : string) : list string :=
  removelast (JS.split_blank stream).

Definition trailing (stream : string) : string :=
  List.last (JS.split_blank stream) "".

(** The events handed to [handleSSEEvent] so far, as its first console line
    records them, and the events a list of blocks parses to. *)
Definition handled (w : session) : list props :=
  flat_map (fun l => match l with LogEvent _ ev => [ev] | _ => [] end) (console w).

Definition parsed_events (events : list string) : list props :=
  flat_map
    (fun eventBlock =>
       if is_blank eventBlock then []
       else match parseSSEEvent eventBlock with
            | Some ev => [ev]
            | None => []
            end)
    events.

(** The payloads of the data lines of a block, in order, and the event name
    it declares. *)
Definition data_payloads (eventBlock : string) : list string :=
  map (fun line => JS.trim (JS.slice_from 5 line))
    (List.filter (JS.startsWith "data:") (JS.split_lines eventBlock)).

Definition last_payload (eventBlock : string) : option string :=
  last (data_payloads eventBlock).

Definition declared_type (eventBlock : string) : string :=
  List.last
    (map (fun line => JS.trim (JS.slice_from 6 line))
       (List.filter (JS.startsWith "event:") (JS.split_lines eventBlock)))
    "message".

(** ** Facts *)

Lemma data_line_not_event line :
  JS.startsWith "data:" line = true -> JS.startsWith "event:" line = false.
Proof.
  destruct line as [|c line]; [discriminate|].
  cbn [JS.startsWith]. intros H. apply andb_prop in H as [H _].
  apply Ascii.eqb_eq in H. now subst c.
Qed.

Lemma parse_lines_closed lines : forall eventType data,
  parse_lines lines eventType data =
  (List.last
     (map (fun line => JS.trim (JS.slice_from 6 line))
        (List.filter (JS.startsWith "event:") lines)) eventType,
   match last
           (map (fun line => JS.trim (JS.slice_from 5 line))
              (List.filter (JS.startsWith "data:") lines)) with
   | None => data
   | Some dataStr =>
       match JSON_parse dataStr with
       | Some v => v
       | None => JObj [("raw", JStr dataStr)]
       end
   end).
Proof.
  induction lines as [|line rest IH]; intros eventType data; [reflexivity|].
  cbn [parse_lines List.filter].
  destruct (JS.startsWith "event:" line) eqn:Ee.
  - destruct (JS.startsWith "data:" line) eqn:Ed.
    { apply data_line_not_event in Ed. congruence. }
    rewrite IH. cbn [map]. f_equal.
    now rewrite JSFacts.last_cons_default.
  - destruct (JS.startsWith "data:" line) eqn:Ed.
    + rewrite IH. cbn [map]. f_equal.
      rewrite last_cons.
      now destruct (last (map _ (List.filter (JS.startsWith "data:") rest))).
    + apply IH.
Qed.

Lemma dispatch_app selectedChatId (a b : list string) (w : session) :
  dispatch selectedChatId (a ++ b) w =
  match dispatch selectedChatId a w with
  | Ok w' => dispatch selectedChatId b w'
  | Throw w' => Throw w'
  end.
Proof.
  revert w. induction a as [|x a IH]; intros w; [reflexivity|].
  cbn [app dispatch].
  destruct (is_blank x); [apply IH|].
  destruct (parseSSEEvent x) as [ev|]; [|apply IH].
  destruct (handleSSEEvent ev selectedChatId w); [apply IH|reflexivity].
Qed.

Lemma read_loop_from selectedChatId (chunks : list string) :
  forall (buffer : string) (w : session),
  JS.includes JS.sep buffer = false ->
  read_loop selectedChatId chunks buffer w =
  match dispatch selectedChatId
          (complete_frames (buffer +:+ JS.concat_all chunks)) w with
  | Ok w' => Ok (trailing (buffer +:+ JS.concat_all chunks), w')
  | Throw w' => Throw w'
  end.
Proof.
  induction chunks as [|chunk rest IH]; intros buffer w Hb.
  - cbn [read_loop JS.concat_all]. rewrite JSFacts.app_empty_r.
    unfold complete_frames, trailing.
    now rewrite (JSFacts.split_blank_no_sep _ Hb).
  - cbn [read_loop JS.concat_all]. unfold on_chunk.
    rewrite <- JSFacts.app_assoc_s.
    unfold complete_frames, trailing.
    rewrite (JSFacts.split_blank_app (buffer +:+ chunk)).
    rewrite removelast_app by apply JSFacts.split_blank_not_nil.
    rewrite JSFacts.last_app_not_nil by apply JSFacts.split_blank_not_nil.
    rewrite dispatch_app.
    destruct (dispatch selectedChatId (removelast (JS.split_blank (buffer +:+ chunk))) w)
      as [w'|w']; [|reflexivity].
    rewrite IH; [reflexivity|].
    apply JSFacts.split_blank_pieces.
Qed.

Lemma handled_say l w :
  handled (say l w)
  = handled w ++ match l with LogEvent _ ev => [ev] | _ => [] end.
Proof. unfold handled, say. cbn [console]. rewrite flat_map_app. cbn. now rewrite app_nil_r. Qed.

Lemma handle_logs event selectedChatId w w' :
  handleSSEEvent event selectedChatId w = Ok w' ->
  handled w' = handled w ++ [event].
Proof.
  unfold handleSSEEvent.
  set (w1 := say (LogEvent (get "type" event) event) w).
  assert (H1 : handled w1 = handled w ++ [event]) by apply handled_say.
  clearbody w1.
  destruct (is_type "text" (get "type" event)).
  { unfold append_content.
    destruct (in_flight selectedChatId (chats w1)),
      (to_string (or_else (get "content" event) (JStr ""))),
      onTextEvent, (content_trim (or_else (get "content" event) (JStr ""))) as [[|]|];
      intros H; inversion H; subst; exact H1. }
  destruct (is_type "audio" (get "type" event)).
  { destruct onAudioEvent; [destruct (truthy (get "audio_base64" event))|];
      intros H; inversion H; subst; try exact H1.
    unfold on_sink. cbn [console chats sink]. unfold handled in *. cbn [console say].
    rewrite flat_map_app. cbn. rewrite app_nil_r. exact H1. }
  destruct (is_type "molecule" (get "type" event)).
  { intros H; inversion H; subst; exact H1. }
  destruct (is_type "complete" (get "type" event) || is_type "done" (get "type" event)).
  { intros H; inversion H; subst. rewrite handled_say, app_nil_r. exact H1. }
  destruct (is_type "error" (get "type" event)).
  { destruct (to_string (get "message" event)); intros H; inversion H; subst.
    unfold setChats. unfold handled in *. cbn [console say].
    rewrite flat_map_app. cbn. rewrite app_nil_r. exact H1. }
  intros H; inversion H; subst. rewrite handled_say, app_nil_r. exact H1.
Qed.

Lemma dispatch_logs selectedChatId (events : list string) : forall w w',
  dispatch selectedChatId events w = Ok w' ->
  handled w' = handled w ++ parsed_events events.
Proof.
  induction events as [|eventBlock rest IH]; intros w w' H.
  - inversion H; subst. cbn. now rewrite app_nil_r.
  - cbn [dispatch] in H. cbn [parsed_events flat_map]. fold (parsed_events rest).
    destruct (is_blank eventBlock); [now apply IH|].
    destruct (parseSSEEvent eventBlock) as [ev|]; [|now apply IH].
    destruct (handleSSEEvent ev selectedChatId w) as [w1|] eqn:E; [|discriminate].
    rewrite (IH _ _ H), (handle_logs _ _ _ _ E). now rewrite <- app_assoc.
Qed.

(** ** C3 *)

(** C3. Frame reassembly and in-order dispatch.  However the stream is cut
    into transport chunks, the read loop hands to [parseSSEEvent] and
    [handleSSEEvent] exactly the blank-line-terminated frames of the
    concatenated stream, each once and in stream order (stopping only if a
    handler throws), and keeps what follows the last blank line, the
    incomplete frame, in the buffer: when the loop has read every chunk the
    events handled are the events the frames parse to, in the order of the
    stream.  The frames are those of the stream: joined with their blank
    lines and followed by the incomplete tail they give the stream back, each
    frame ends at the first blank line after its start, and the tail holds no
    blank line. *)
Theorem frames_reassembled_in_order (selectedChatId : Z) (chunks : list string)
    (w : session) :
  let stream := JS.concat_all chunks in
  let frames := complete_frames stream in
  stream = JS.concat_all (map (fun f => f +:+ JS.sep) frames) +:+ trailing stream
  /\ Forall (fun f => JS.includes JS.sep (f +:+ String JS.LF "") = false) frames
  /\ JS.includes JS.sep (trailing stream) = false
  /\ read_loop selectedChatId chunks "" w =
     match dispatch selectedChatId frames w with
     | Ok w' => Ok (trailing stream, w')
     | Throw w' => Throw w'
     end
  /\ (forall buffer w',
        read_loop selectedChatId chunks "" w = Ok (buffer, w') ->
        buffer = trailing stream
        /\ handled w' = handled w ++ parsed_events frames).
Proof.
  intros stream frames. unfold frames, complete_frames, trailing.
  assert (Hloop : read_loop selectedChatId chunks "" w =
     match dispatch selectedChatId (removelast (JS.split_blank stream)) w with
     | Ok w' => Ok (List.last (JS.split_blank stream) "", w')
     | Throw w' => Throw w'
     end) by now rewrite read_loop_from.
  split; [|split; [|split; [|split]]].
  - rewrite <- JSFacts.join_snoc.
    rewrite <- (app_removelast_last "" (JSFacts.split_blank_not_nil stream)).
    symmetry. apply JSFacts.split_blank_join.
  - apply JSFacts.split_blank_pieces.
  - apply JSFacts.split_blank_pieces.
  - exact Hloop.
  - intros buffer w' H. rewrite Hloop in H.
    destruct (dispatch selectedChatId (removelast (JS.split_blank stream)) w)
      as [w1|] eqn:E; [|discriminate].
    inversion H; subst. split; [reflexivity|].
    now apply dispatch_logs in E.
Qed.

Lemma parseSSEEvent_usable (eventBlock : string) :
  parseSSEEvent eventBlock =
  match last_payload eventBlock with
  | None => None
  | Some dataStr =>
      match JSON_parse dataStr with
      | None =>
          Some [("type", JStr (declared_type eventBlock)); ("raw", JStr dataStr)]
      | Some v =>
          if truthy v
          then Some (("type", JStr (declared_type eventBlock)) :: spread v)
          else None
      end
  end.
Proof.
  unfold parseSSEEvent, last_payload, data_payloads, declared_type.
  rewrite parse_lines_closed.
  destruct (last _) as [dataStr|]; [|reflexivity].
  destruct (JSON_parse dataStr) as [v|]; reflexivity.
Qed.

(** ** C10 *)

(** C10 (as amended).  [parseSSEEvent] returns an event exactly when the block
    has a data line whose payload, for the last such line, either is not valid
    JSON or parses to a truthy value: a block without a data line is dropped
    whatever event name it declares, and so is one whose payload parses to
    [null], [false], [0] or the empty string; a payload that is not valid JSON
    is kept and returned as an event of the declared type carrying the raw
    text. *)
Theorem parseSSEEvent_needs_usable_data (eventBlock : string) :
  parseSSEEvent eventBlock =
    match last_payload eventBlock with
    | None => None
    | Some dataStr =>
        match JSON_parse dataStr with
        | None =>
            Some [("type", JStr (declared_type eventBlock)); ("raw", JStr dataStr)]
        | Some v =>
            if truthy v
            then Some (("type", JStr (declared_type eventBlock)) :: spread v)
            else None
        end
    end
  /\ (is_Some (parseSSEEvent eventBlock) <->
      exists dataStr,
        last_payload eventBlock = Some dataStr
        /\ (JSON_parse dataStr = None
            \/ exists v, JSON_parse dataStr = Some v /\ truthy v = true)).
Proof.
  split; [apply parseSSEEvent_usable|].
  rewrite parseSSEEvent_usable.
  destruct (last_payload eventBlock) as [dataStr|].
  - destruct (JSON_parse dataStr) as [v|] eqn:Ej.
    + destruct (truthy v) eqn:Et.
      * split; [|intros _; eexists; reflexivity].
        intros _. exists dataStr. split; [reflexivity|]. right. now exists v.
      * split; [intros [x Hx]; discriminate|].
        intros (d & Hd & [Hn | (v' & Hv' & Ht')]).
        -- injection Hd as <-. congruence.
        -- injection Hd as <-. rewrite Ej in Hv'. injection Hv' as <-. congruence.
    + split; [|intros _; eexists; reflexivity].
      intros _. exists dataStr. split; [reflexivity|]. now left.
  - split; [intros [x Hx]; discriminate|].
    intros (d & Hd & _). discriminate.
Qed.

Lemma data_block_not_blank eventBlock dataStr :
  last_payload eventBlock = Some dataStr -> is_blank eventBlock = false.
Proof.
  unfold last_payload, data_payloads. intros H.
  apply last_Some_elem_of in H. apply list_elem_of_In in H.
  apply in_map_iff in H as (line & _ & Hin).
  apply filter_In in Hin as [Hin Hd].
  assert (Hn : JS.has_nonws eventBlock = true).
  { apply (JSFacts.has_nonws_split_lines _ line Hin).
    destruct line as [|c line]; [discriminate|].
    cbn [JS.startsWith] in Hd. apply andb_prop in Hd as [Hc _].
    apply Ascii.eqb_eq in Hc. now subst c. }
  unfold is_blank. rewrite <- JSFacts.has_nonws_trim in Hn.
  now destruct (JS.trim eventBlock).
Qed.

Lemma handle_unknown_type event selectedChatId w :
  known_type (get "type" event) = false ->
  handleSSEEvent event selectedChatId w =
  Ok (say (WarnUnknown (get "type" event)) (say (LogEvent (get "type" event) event) w)).
Proof.
  unfold known_type, handleSSEEvent. intros H.
  repeat (apply orb_false_iff in H as [H ?]).
  repeat match goal with E : is_type _ _ = false |- _ => rewrite E; clear E end.
  reflexivity.
Qed.

Lemma handle_raw_event_ok (eventType dataStr : string) selectedChatId w :
  exists w',
    handleSSEEvent [("type", JStr eventType); ("raw", JStr dataStr)] selectedChatId w
    = Ok w'.
Proof.
  unfold handleSSEEvent.
  assert (Ht : get "type" [("type", JStr eventType); ("raw", JStr dataStr)] = JStr eventType)
    by reflexivity.
  rewrite Ht.
  assert (Hu : forall k, String.eqb k "type" = false -> String.eqb k "raw" = false ->
             get k [("type", JStr eventType); ("raw", JStr dataStr)] = JUndefined).
  { intros k H1 H2. unfold get. cbn [find]. now rewrite H1, H2. }
  rewrite !Hu by reflexivity.
  cbn [or_else truthy to_string].
  destruct (is_type "text" (JStr eventType)).
  { unfold append_content. cbn [to_string].
    destruct (in_flight selectedChatId _); destruct onTextEvent; cbn; eauto. }
  destruct (is_type "audio" (JStr eventType)).
  { destruct onAudioEvent; eauto. }
  destruct (is_type "molecule" (JStr eventType)); [eauto|].
  destruct (is_type "complete" (JStr eventType) || is_type "done" (JStr eventType)); [eauto|].
  destruct (is_type "error" (JStr eventType)); eauto.
Qed.

(** ** C8 *)

(** C8 (as amended).  A frame whose dispatched type (the declared event name,
    unless the data object has a type field of its own, which replaces it) is
    not a known one is logged and skipped: the chats and the sinks are left
    as they were and the loop goes on with the next frame.  A frame whose data
    line is not valid JSON does not stop the loop either, but it is not
    skipped: it is handled as an event of its declared type with the raw text
    as payload, the handler returns normally, and the loop goes on with the
    next frame. *)
Theorem dispatch_survives_bad_frames (selectedChatId : Z) :
  (forall eventBlock event rest w,
     is_blank eventBlock = false ->
     parseSSEEvent eventBlock = Some event ->
     known_type (get "type" event) = false ->
     exists w',
       dispatch selectedChatId (eventBlock :: rest) w = dispatch selectedChatId rest w'
       /\ chats w' = chats w
       /\ sink w' = sink w
       /\ console w' = console w ++ [LogEvent (get "type" event) event;
                                     WarnUnknown (get "type" event)])
  /\ (forall eventBlock dataStr rest w,
        last_payload eventBlock = Some dataStr ->
        JSON_parse dataStr = None ->
        let event := [("type", JStr (declared_type eventBlock)); ("raw", JStr dataStr)] in
        parseSSEEvent eventBlock = Some event
        /\ exists w',
             handleSSEEvent event selectedChatId w = Ok w'
             /\ dispatch selectedChatId (eventBlock :: rest) w
                = dispatch selectedChatId rest w').
Proof.
  split.
  - intros eventBlock event rest w Hb Hp Hk.
    eexists. cbn [dispatch]. rewrite Hb, Hp, (handle_unknown_type _ _ _ Hk).
    split; [reflexivity|]. cbn. rewrite <- app_assoc. auto.
  - intros eventBlock dataStr rest w Hl Hj event.
    assert (Hp : parseSSEEvent eventBlock = Some event).
    { rewrite parseSSEEvent_usable. now rewrite Hl, Hj. }
    split; [exact Hp|].
    destruct (handle_raw_event_ok (declared_type eventBlock) dataStr selectedChatId w)
      as [w' Hw'].
    exists w'. split; [exact Hw'|].
    cbn [dispatch]. rewrite (data_block_not_blank _ _ Hl), Hp.
    subst event. now rewrite Hw'.
Qed.

End Hook.

Arguments Ok {S A} a.
Arguments Throw {S A} w.
Arguments mkSession {S} chats console sink.
Arguments chats {S} s.
Arguments console {S} s.
Arguments sink {S} s.
Arguments handled {S} w.

(** ** Sample runs *)

(** A chat with a question and the answer in flight, and a hook without
    callbacks. *)
Definition sample_chats : list chat :=
  [mkChat 1 "New Chat" 0
     [mkMessage 10 "user" "What is benzene?" None;
      mkMessage 11 "assistant" "Benzene is" None]].

Definition sample_session : session unit := mkSession sample_chats [] tt.

Definition texts {S : Type} (o : outcome S (session S)) : list (list string) :=
  match o with
  | Ok w | Throw w => map (fun c => map msg_text (chat_messages c)) (chats w)
  end.

(** A block given line by line. *)
Definition block (lines : list string) : string := JS.join (String JS.LF "") lines.

(** C10, counterexample to the claim as stated: a block with a data line whose
    payload is the JSON [null] yields no event. *)
Lemma falsy_data_line_is_dropped :
  let eventBlock := block ["event: text"; "data: null"] in
  existsb (JS.startsWith "data:") (JS.split_lines eventBlock) = true
  /\ parseSSEEvent Json.parse eventBlock = None.
Proof. split; reflexivity. Qed.

(** C8, counterexample to the claim as stated: an error frame whose data is
    not valid JSON is not skipped, it appends an annotation to the answer;
    and a frame with an unknown event name whose data object carries a type
    field of its own changes the answer as a text frame would. *)
Lemma unparseable_frame_is_dispatched :
  let bad := block ["event: error"; "data: oops"] in
  let odd := block ["event: note"; Json.q "data: {'type':'text','content':' a ring'}"] in
  (Json.parse "oops" = None
   /\ texts (dispatch Json.parse unit None None 1 [bad] sample_session)
      = [["What is benzene?"; "Benzene is" +:+ String JS.LF "[Error: undefined]"]])
  /\ (known_type (JStr "note") = false
      /\ texts (dispatch Json.parse unit None None 1 [odd] sample_session)
         = [["What is benzene?"; "Benzene is a ring"]]).
Proof. repeat split; reflexivity. Qed.

Lemma frames_reassembled_in_order_witness :
  let text := block ["event: text"; Json.q "data: {'content':' a ring'}"] in
  let done := block ["event: done"; "data: {}"] in
  let stream := text +:+ JS.sep +:+ done +:+ JS.sep +:+ "event: te" in
  let chunks :=
    [JS.slice_to 9 stream; JS.slice_from 9 (JS.slice_to 44 stream);
     JS.slice_from 44 stream] in
  JS.concat_all chunks = stream
  /\ exists w',
       read_loop Json.parse unit None None 1 chunks "" sample_session
       = Ok ("event: te", w')
       /\ handled w'
          = [[("type", JStr "text"); ("content", JStr " a ring")];
             [("type", JStr "done")]].
Proof.
  intros text done stream chunks.
  split; [reflexivity|].
  destruct (frames_reassembled_in_order Json.parse unit None None 1 chunks sample_session)
    as (_ & _ & _ & Hloop & Hlog).
  assert (E : exists w', read_loop Json.parse unit None None 1 chunks "" sample_session
                         = Ok ("event: te", w')).
  { rewrite Hloop. vm_compute. eexists. reflexivity. }
  destruct E as [w' E]. exists w'. split; [exact E|].
  destruct (Hlog _ _ E) as [_ ->]. reflexivity.
Defined.

Lemma dispatch_survives_bad_frames_witness :
  let ping := block ["event: ping"; "data: {}"] in
  let bad := block ["event: text"; "data: oops"] in
  let next := block ["event: text"; Json.q "data: {'content':' a ring'}"] in
  (is_blank ping = false
   /\ parseSSEEvent Json.parse ping = Some [("type", JStr "ping")]
   /\ known_type (get "type" [("type", JStr "ping")]) = false
   /\ last_payload bad = Some "oops"
   /\ Json.parse "oops" = None)
  /\ (exists w',
        dispatch Json.parse unit None None 1 [ping; next] sample_session
        = dispatch Json.parse unit None None 1 [next] w'
        /\ chats w' = sample_chats)
  /\ (exists w',
        dispatch Json.parse unit None None 1 [bad; next] sample_session
        = dispatch Json.parse unit None None 1 [next] w').
Proof.
  intros ping bad next.
  destruct (dispatch_survives_bad_frames Json.parse unit None None 1) as [Hunknown Hraw].
  split; [repeat split; reflexivity|]. split.
  - destruct (Hunknown ping [("type", JStr "ping")] [next] sample_session
                eq_refl eq_refl eq_refl) as (w' & Hd & Hc & _).
    exists w'. split; [exact Hd | exact Hc].
  - destruct (Hraw bad "oops" [next] sample_session eq_refl eq_refl)
      as (_ & w' & _ & Hd).
    exists w'. exact Hd.
Defined.

(** ** sendMessage *)

Section Sending.

Variable JSON_parse : string -> option jsval.
Variable S : Type.
Variable onAudioEvent : option (jsval -> jsval -> jsval -> S -> S).
Variable onTextEvent : option (props -> S -> S).

(** The readings of [Date.now()], and [String(err)] for the exception a
    handler raised (a [TypeError], worded by the engine). *)
Variable now : nat -> Z.
Variable thrown_text : string.

(** How the request goes: [fetch] rejects ([err] is [String(err)]); the
    response is not [ok]; or the body is read, chunk by chunk, until the
    stream is done or [reader.read()] rejects. *)
Inductive response : Type :=
| FetchRejected (err : string)
| NotOk (status : nat) (statusText : string)
| Body (chunks : list string) (failure : option string).

(** [`\n[Error: ${...}]`] *)
Definition error_note (m : string) : string :=
  String JS.LF ("[Error: " +:+ m +:+ "]").

(** The [catch] block of [sendMessage]. *)
Definition show_error (selectedChatId : Z) (err : string) (w : session S)
    : session S :=
  setChats S (update_last selectedChatId (append_text (error_note err))) w.

(** [sendMessage(text)]: the optimistic update, the request, the read loop,
    and the [catch] block around the last two.  The lines [sendMessage]
    itself writes to the console are left out. *)
Definition sendMessage (text : string) (selectedChatId : Z) (r : response)
    (w : session S) : session S :=
  let w1 := setChats S (Send.optimistic_add now text selectedChatId) w in
  match r with
  | FetchRejected err => show_error selectedChatId err w1
  | NotOk status statusText =>
      show_error selectedChatId
        ("Error: HTTP " +:+ pretty status +:+ ": " +:+ statusText) w1
  | Body chunks failure =>
      match read_loop JSON_parse S onAudioEvent onTextEvent selectedChatId
              chunks "" w1 with
      | Ok (_, w2) =>
          match failure with
          | None => w2
          | Some err => show_error selectedChatId err w2
          end
      | Throw w2 => show_error selectedChatId thrown_text w2
      end
  end.

(** The events handled one after the other, up to the first exception. *)
Fixpoint handle_all (selectedChatId : Z) (events : list props) (w : session S)
    : outcome S (session S) :=
  match events with
  | [] => Ok w
  | event :: rest =>
      match handleSSEEvent S onAudioEvent onTextEvent event selectedChatId w with
      | Ok w' => handle_all selectedChatId rest w'
      | Throw w' => Throw w'
      end
  end.

(** What an event adds to the answer in flight: the text it appends and the
    attachment it pushes. *)
Definition shown_text (event : props) : string :=
  if is_type "text" (get "type" event) then
    default "" (to_string (or_else (get "content" event) (JStr "")))
  else if is_type "error" (get "type" event) then
    error_note (default "" (to_string (get "message" event)))
  else "".

Definition shown_attachments (event : props) : list attachment :=
  if is_type "molecule" (get "type" event)
  then [mkAttachment (get "name" event) (get "smiles" event)]
  else [].



(** A chat without its message in flight. *)
Definition settled (selectedChatId : Z) (c : chat) : chat :=
  if Z.eqb (chat_id c) selectedChatId then
    match last (chat_messages c) with
    | Some l =>
        if is_assistant l then set_messages c (removelast (chat_messages c)) else c
    | None => c
    end
  else c.

(** [m'] is [m] with text appended and attachments pushed. *)
Definition grows (m m' : message) : Prop :=
  msg_id m' = msg_id m
  /\ msg_role m' = msg_role m
  /\ (exists t, msg_text m' = msg_text m +:+ t)
  /\ (exists a, attachments_of m' = attachments_of m ++ a).

(** The state a call leaves, however it ends. *)
Definition state_after (o : outcome S (string * session S)) : session S :=
  match o with
  | Ok (_, w) => w
  | Throw w => w
  end.

(** ** Facts *)

Lemma dispatch_handle_all selectedChatId (events : list string) : forall w,
  dispatch JSON_parse S onAudioEvent onTextEvent selectedChatId events w
  = handle_all selectedChatId (parsed_events JSON_parse events) w.
Proof.
  induction events as [|eventBlock rest IH]; intros w; [reflexivity|].
  cbn [dispatch parsed_events flat_map].
  fold (parsed_events JSON_parse rest).
  destruct (is_blank eventBlock); [apply IH|].
  destruct (parseSSEEvent JSON_parse eventBlock) as [ev|]; [|apply IH].
  cbn [app handle_all].
  destruct (handleSSEEvent S onAudioEvent onTextEvent ev selectedChatId w);
    [apply IH | reflexivity].
Qed.

Lemma type_is (name : string) (v : jsval) : is_type name v = true -> v = JStr name.
Proof.
  destruct v; try discriminate. cbn [is_type]. intros H.
  apply String.eqb_eq in H. now subst.
Qed.








(** *** Only the answer in flight changes *)

Definition appended (selectedChatId : Z) (cs cs' : list chat) : Prop :=
  map (settled selectedChatId) cs' = map (settled selectedChatId) cs
  /\ Forall2 grows (in_flight selectedChatId cs) (in_flight selectedChatId cs').

Lemma grows_refl m : grows m m.
Proof.
  repeat split; [exists "" | exists []].
  - now rewrite JSFacts.app_empty_r.
  - now rewrite app_nil_r.
Qed.

Lemma grows_trans m1 m2 m3 : grows m1 m2 -> grows m2 m3 -> grows m1 m3.
Proof.
  intros (Hi & Hr & [t Ht] & [a Ha]) (Hi' & Hr' & [t' Ht'] & [a' Ha']).
  repeat split; try congruence.
  - exists (t +:+ t'). now rewrite Ht', Ht, JSFacts.app_assoc_s.
  - exists (a ++ a'). now rewrite Ha', Ha, app_assoc.
Qed.

Lemma appended_refl selectedChatId cs : appended selectedChatId cs cs.
Proof.
  split; [reflexivity|].
  induction (in_flight selectedChatId cs); constructor; [apply grows_refl | assumption].
Qed.

Lemma Forall2_grows_trans (l1 : list message) : forall l2 l3,
  Forall2 grows l1 l2 -> Forall2 grows l2 l3 -> Forall2 grows l1 l3.
Proof.
  induction l1 as [|m l1 IH]; intros l2 l3 H12 H23.
  - inversion H12; subst. inversion H23; subst. constructor.
  - inversion H12 as [|? m2 ? l2' Hm Hl]; subst.
    inversion H23 as [|? m3 ? l3' Hm' Hl']; subst.
    constructor; [now apply (grows_trans m m2) | now apply (IH l2')].
Qed.

Lemma appended_trans selectedChatId cs1 cs2 cs3 :
  appended selectedChatId cs1 cs2 -> appended selectedChatId cs2 cs3 ->
  appended selectedChatId cs1 cs3.
Proof.
  intros [H1 G1] [H2 G2]. split; [congruence|].
  now apply (Forall2_grows_trans _ _ _ G1).
Qed.

Lemma settled_update_chat selectedChatId (f : message -> message) c :
  (forall l, is_assistant (f l) = is_assistant l) ->
  settled selectedChatId
    (if Z.eqb (chat_id c) selectedChatId then update_chat f c else c)
  = settled selectedChatId c.
Proof.
  intros Hf. destruct (Z.eqb (chat_id c) selectedChatId) eqn:E; [|reflexivity].
  unfold update_chat.
  destruct (last (chat_messages c)) as [l|] eqn:El; [|reflexivity].
  destruct (is_assistant l) eqn:Ea; [|reflexivity].
  unfold settled. cbn [set_messages chat_id chat_messages].
  rewrite E, El, Ea, last_snoc, Hf, Ea.
  unfold set_messages. cbn [chat_id chat_title chat_updatedAt].
  now rewrite removelast_last.
Qed.

Lemma appended_update_last selectedChatId (f : message -> message) cs :
  (forall l, is_assistant (f l) = is_assistant l) ->
  (forall l, grows l (f l)) ->
  appended selectedChatId cs (update_last selectedChatId f cs).
Proof.
  intros Hf Hg. split.
  - unfold update_last. rewrite map_map. apply map_ext.
    intros c. now apply settled_update_chat.
  - rewrite in_flight_update_last by exact Hf.
    induction (in_flight selectedChatId cs); constructor; [apply Hg | assumption].
Qed.

Lemma appended_append_text selectedChatId (t : string) cs :
  appended selectedChatId cs (update_last selectedChatId (append_text t) cs).
Proof.
  apply appended_update_last; [reflexivity|].
  intros l. repeat split; [now exists t | exists []].
  unfold attachments_of. cbn. now rewrite app_nil_r.
Qed.

Lemma appended_push_attachments selectedChatId (a : list attachment) cs :
  appended selectedChatId cs (update_last selectedChatId (push_attachments a) cs).
Proof.
  apply appended_update_last; [reflexivity|].
  intros l. repeat split; [exists "" | now exists a].
  cbn. now rewrite JSFacts.app_empty_r.
Qed.

Definition handled_state (o : outcome S (session S)) : session S :=
  match o with
  | Ok w => w
  | Throw w => w
  end.

Lemma handle_appends event selectedChatId w :
  appended selectedChatId (chats w)
    (chats (handled_state
              (handleSSEEvent S onAudioEvent onTextEvent event selectedChatId w))).
Proof.
  unfold handleSSEEvent.
  destruct (is_type "text" (get "type" event)).
  { unfold append_content. cbn [chats say].
    destruct (in_flight selectedChatId (chats w));
      destruct (to_string (or_else (get "content" event) (JStr "")));
      destruct onTextEvent;
      try destruct (content_trim (or_else (get "content" event) (JStr "")))
        as [[|c1 s1]|];
      cbn [handled_state chats setChats on_sink say];
      first [apply appended_refl | apply appended_append_text]. }
  destruct (is_type "audio" (get "type" event)).
  { destruct onAudioEvent; [destruct (truthy (get "audio_base64" event))|];
      cbn [handled_state chats on_sink say]; apply appended_refl. }
  destruct (is_type "molecule" (get "type" event)).
  { cbn [handled_state chats setChats say]. apply appended_push_attachments. }
  destruct (is_type "complete" (get "type" event) || is_type "done" (get "type" event)).
  { apply appended_refl. }
  destruct (is_type "error" (get "type" event)).
  { destruct (to_string (get "message" event));
      cbn [handled_state chats setChats say];
      first [apply appended_append_text | apply appended_refl]. }
  apply appended_refl.
Qed.

Lemma dispatch_appends selectedChatId (events : list string) : forall w,
  appended selectedChatId (chats w)
    (chats (handled_state
              (dispatch JSON_parse S onAudioEvent onTextEvent selectedChatId events w))).
Proof.
  induction events as [|eventBlock rest IH]; intros w; cbn [dispatch].
  - apply appended_refl.
  - destruct (is_blank eventBlock); [apply IH|].
    destruct (parseSSEEvent JSON_parse eventBlock) as [ev|]; [|apply IH].
    pose proof (handle_appends ev selectedChatId w) as H.
    destruct (handleSSEEvent S onAudioEvent onTextEvent ev selectedChatId w) as [w1|w1];
      cbn [handled_state] in H.
    + eapply appended_trans; [exact H | apply IH].
    + exact H.
Qed.

Lemma read_loop_appends selectedChatId (chunks : list string) : forall buffer w,
  appended selectedChatId (chats w)
    (chats (state_after
              (read_loop JSON_parse S onAudioEvent onTextEvent selectedChatId
                 chunks buffer w))).
Proof.
  induction chunks as [|chunk rest IH]; intros buffer w; cbn [read_loop].
  - apply appended_refl.
  - unfold on_chunk.
    pose proof (dispatch_appends selectedChatId
                  (removelast (JS.split_blank (buffer +:+ chunk))) w) as H.
    destruct (dispatch JSON_parse S onAudioEvent onTextEvent selectedChatId _ w)
      as [w1|w1]; cbn [handled_state] in H.
    + eapply appended_trans; [exact H | apply IH].
    + exact H.
Qed.

(** Streaming only appends to the answer in flight.  Whatever the server
    sends and however the request ends - the stream is done, [fetch] or the
    reader fails, a handler raises an exception - everything [sendMessage]
    does after its optimistic update leaves the other chats and the earlier
    messages of the selected chat as they were, and changes the last message
    of the selected chat, when it is the assistant's, only by appending to
    its text and to its attachments: its id and role stay, the text and the
    attachments it had remain a prefix of what it has. *)
Theorem sendMessage_only_appends (text : string) (selectedChatId : Z)
    (r : response) (w : session S) :
  let opened := Send.optimistic_add now text selectedChatId (chats w) in
  let final := chats (sendMessage text selectedChatId r w) in
  map (settled selectedChatId) final = map (settled selectedChatId) opened
  /\ Forall2 grows (in_flight selectedChatId opened) (in_flight selectedChatId final)
  /\ Forall (fun m => Send.is_fresh_answer m = true) (in_flight selectedChatId opened).
Proof.
  intros opened final.
  assert (H : appended selectedChatId opened final).
  { unfold final, sendMessage.
    set (w1 := setChats S (Send.optimistic_add now text selectedChatId) w).
    change opened with (chats w1).
    destruct r as [err|status statusText|chunks failure].
    - apply appended_append_text.
    - apply appended_append_text.
    - pose proof (read_loop_appends selectedChatId chunks "" w1) as H.
      destruct (read_loop JSON_parse S onAudioEvent onTextEvent selectedChatId
                  chunks "" w1) as [[buffer w2]|w2]; cbn [state_after] in H.
      + destruct failure as [err|]; [|exact H].
        eapply appended_trans; [exact H | apply appended_append_text].
      + eapply appended_trans; [exact H | apply appended_append_text]. }
  destruct H as [H1 H2]. split; [exact H1|]. split; [exact H2|].
  apply (Send.add_opens_answer now text selectedChatId (chats w)).
Qed.

(** *** What the answer shows *)

Lemma in_flight_assistant selectedChatId cs :
  Forall (fun m => is_assistant m = true) (in_flight selectedChatId cs).
Proof.
  unfold in_flight. induction cs as [|c cs IH]; [constructor|].
  cbn [flat_map]. apply Forall_app. split; [|exact IH].
  destruct (Z.eqb (chat_id c) selectedChatId); [|constructor].
  destruct (last (chat_messages c)) as [l|]; [|constructor].
  destruct (is_assistant l) eqn:E; repeat constructor. exact E.
Qed.



(** *** The end of the stream *)

Lemma complete_frames_tail (stream tail : string) :
  JS.includes JS.sep (trailing stream +:+ tail) = false ->
  complete_frames (stream +:+ tail) = complete_frames stream.
Proof.
  intros H. unfold complete_frames, trailing in *.
  rewrite JSFacts.split_blank_app.
  rewrite (JSFacts.split_blank_no_sep _ H).
  rewrite removelast_app by discriminate.
  cbn [removelast]. now rewrite app_nil_r.
Qed.

Lemma concat_all_app (a b : list string) :
  JS.concat_all (a ++ b) = JS.concat_all a +:+ JS.concat_all b.
Proof.
  induction a as [|x a IH]; [reflexivity|].
  cbn [app JS.concat_all]. now rewrite IH, JSFacts.app_assoc_s.
Qed.

(** What follows the last blank line is never dispatched.  The read loop
    hands over the frames a blank line terminates and keeps the rest in its
    buffer; when the stream is done the buffer is dropped.  So a stream that
    ends with a frame the server did not terminate by a blank line leaves the
    chats, the console and the sinks exactly as the stream without that frame
    does. *)
Theorem unterminated_tail_is_dropped (text : string) (selectedChatId : Z)
    (chunks : list string) (tail : string) (failure : option string)
    (w : session S) :
  JS.includes JS.sep (trailing (JS.concat_all chunks) +:+ tail) = false ->
  sendMessage text selectedChatId (Body (chunks ++ [tail]) failure) w
  = sendMessage text selectedChatId (Body chunks failure) w.
Proof.
  intros H. unfold sendMessage.
  rewrite !read_loop_from by reflexivity.
  change ("" +:+ JS.concat_all (chunks ++ [tail]))
    with (JS.concat_all (chunks ++ [tail])).
  change ("" +:+ JS.concat_all chunks) with (JS.concat_all chunks).
  rewrite concat_all_app. cbn [JS.concat_all]. rewrite JSFacts.app_empty_r.
  rewrite (complete_frames_tail _ _ H).
  now destruct (dispatch JSON_parse S onAudioEvent onTextEvent selectedChatId _ _).
Qed.

(** *** A frame that stops the stream *)

(** A text frame whose content is not a string stops the stream.  When the
    hook has a text callback (the shell always supplies one) and a text event
    carries a content that is truthy but not a string - a number, [true], an
    array, an object - the handler raises an exception at [content.trim()]:
    the callback is not called, the content may already have been appended to
    the answer, and the dispatch loop ends there, so that no later frame of
    the stream is handled. *)
Theorem nonstring_text_content_stops_stream (cb : props -> S -> S) (event : props)
    (selectedChatId : Z) (w : session S) :
  onTextEvent = Some cb ->
  get "type" event = JStr "text" ->
  truthy (get "content" event) = true ->
  (forall s, get "content" event <> JStr s) ->
  exists w',
    handleSSEEvent S onAudioEvent onTextEvent event selectedChatId w = Throw w'
    /\ sink w' = sink w
    /\ handled w' = handled w ++ [event]
    /\ (chats w' = chats w
        \/ exists t,
             to_string (get "content" event) = Some t
             /\ chats w' = update_last selectedChatId (append_text t) (chats w))
    /\ forall eventBlock rest,
         is_blank eventBlock = false ->
         parseSSEEvent JSON_parse eventBlock = Some event ->
         dispatch JSON_parse S onAudioEvent onTextEvent selectedChatId
           (eventBlock :: rest) w = Throw w'.
Proof.
  intros Hcb Hty Ht Hns.
  assert (Hthrow : exists w',
            handleSSEEvent S onAudioEvent onTextEvent event selectedChatId w = Throw w'
            /\ sink w' = sink w
            /\ handled w' = handled w ++ [event]
            /\ (chats w' = chats w
                \/ exists t,
                     to_string (get "content" event) = Some t
                     /\ chats w' = update_last selectedChatId (append_text t) (chats w))).
  { unfold handleSSEEvent. rewrite Hty, Hcb.
    cbn [is_type String.eqb Ascii.eqb Bool.eqb].
    unfold or_else. rewrite Ht.
    assert (Htrim : content_trim (get "content" event) = None).
    { destruct (get "content" event) as [| |b|n|s|items|ps]; try reflexivity.
      now destruct (Hns s). }
    rewrite Htrim. unfold append_content.
    assert (Hlog : handled (say S (LogEvent (JStr "text") event) w) = handled w ++ [event]).
    { rewrite <- Hty. apply handled_say. }
    destruct (in_flight selectedChatId (chats (say S (LogEvent (JStr "text") event) w)));
      destruct (to_string (get "content" event)) as [t|] eqn:Es;
      eexists; (split; [reflexivity|]); (split; [reflexivity|]);
      (split; [exact Hlog|]);
      first [now left | right; exists t; split; reflexivity]. }
  destruct Hthrow as (w' & Hh & Hrest).
  exists w'. split; [exact Hh|].
  destruct Hrest as (H1 & H2 & H3). split; [exact H1|]. split; [exact H2|].
  split; [exact H3|].
  intros eventBlock rest Hb Hp. cbn [dispatch]. now rewrite Hb, Hp, Hh.
Qed.

End Sending.

(** ** Sample runs of sendMessage *)

Definition sample_clock (k : nat) : Z := (1700 + Z.of_nat k)%Z.

(** A store with one chat, newly created. *)
Definition new_session : session unit :=
  mkSession [mkChat 1 "New Chat" 0 []] [] tt.



Lemma unterminated_tail_is_dropped_witness :
  let chunks := [block ["event: text"; Json.q "data: {'content':'Water is'}"] +:+ JS.sep] in
  let tail := block ["event: text"; Json.q "data: {'content':' polar.'}"; ""] in
  let final :=
    sendMessage Json.parse unit None None sample_clock "TypeError: x"
      "What is water?" 1 (Body (chunks ++ [tail]) None) new_session in
  JS.includes JS.sep (trailing (JS.concat_all chunks) +:+ tail) = false
  /\ final
     = sendMessage Json.parse unit None None sample_clock "TypeError: x"
         "What is water?" 1 (Body chunks None) new_session
  /\ map msg_text (in_flight 1 (chats final)) = ["Water is"].
Proof.
  intros chunks tail final.
  assert (H : JS.includes JS.sep (trailing (JS.concat_all chunks) +:+ tail) = false)
    by (vm_compute; reflexivity).
  split; [exact H|]. split.
  - exact (unterminated_tail_is_dropped Json.parse unit None None sample_clock
             "TypeError: x" "What is water?" 1 chunks tail None new_session H).
  - vm_compute. reflexivity.
Defined.

Lemma nonstring_text_content_stops_stream_witness :
  let bad := block ["event: text"; Json.q "data: {'content': 5}"] in
  let next := block ["event: text"; Json.q "data: {'content': ' is a ring'}"] in
  let cb : props -> list props -> list props := fun event calls => calls ++ [event] in
  let w := mkSession sample_chats [] [] in
  exists event w',
    parseSSEEvent Json.parse bad = Some event
    /\ dispatch Json.parse (list props) None (Some cb) 1 [bad; next] w = Throw w'
    /\ sink w' = []
    /\ map msg_text (in_flight 1 (chats w')) = ["Benzene is5"].
Proof.
  intros bad next cb w.
  eexists. 
  assert (Hp : parseSSEEvent Json.parse bad
               = Some [("type", JStr "text"); ("content", JNum (mkNum true "5"))])
    by (vm_compute; reflexivity).
  destruct (nonstring_text_content_stops_stream Json.parse (list props) None (Some cb) cb
              [("type", JStr "text"); ("content", JNum (mkNum true "5"))] 1 w
              eq_refl eq_refl eq_refl ltac:(discriminate))
    as (w' & Hh & Hs & _ & _ & Hd).
  exists w'. split; [exact Hp|].
  split; [apply Hd; [reflexivity | exact Hp]|].
  split; [exact Hs|].
  vm_compute in Hh. injection Hh as <-. reflexivity.
Defined.

End SSEChat.

(* ===================================================================== *)
(** * frontend/src/hooks/useStreamingVoice.js *)
(* ===================================================================== *)

Module StreamingVoice.
Import JSV.

(** An [Audio] element with its object URL: [{ audio, audioUrl }].  Elements
    are told apart by the order of their creation. *)
Record clip : Type := mkClip {
  clip_id : nat;
  clip_bytes : string
}.

(** The three handlers [playNextInQueue] attaches to an element: [onended],
    [onerror] and the rejection handler of [audio.play()]. *)
Inductive ending : Type := Ended | Failed | Rejected.

Definition same_ending (h k : ending) : bool :=
  match h, k with
  | Ended, Ended | Failed, Failed | Rejected, Rejected => true
  | _, _ => false
  end.

(** The hook and the part of the browser it talks to.

    - [isSpeaking], [isMuted]: the React state;
    - [audioQueue], [currentAudio], [isProcessing]: [audioQueueRef.current],
      [currentAudioRef.current], [isProcessingRef.current];
    - [sounding]: the elements on which [play()] was called and that have not
      ended, failed or been paused since: the clips actively playing;
    - [timers]: the pending [setTimeout(() => playNextInQueue(), 200)];
    - [created]: the number of elements created so far;
    - [enqueued], [started]: the history of [audioQueueRef.current.push] and
      of [audio.play()] calls, oldest first;
    - [handled]: the handlers of the elements that have run, as pairs of an
      element and a handler, oldest first. *)
Record world : Type := mkWorld {
  isSpeaking : bool;
  isMuted : bool;
  audioQueue : list clip;
  currentAudio : option clip;
  isProcessing : bool;
  sounding : list clip;
  timers : nat;
  created : nat;
  enqueued : list clip;
  started : list clip;
  handled : list (nat * ending)
}.

Definition init : world :=
  mkWorld false false [] None false [] 0 0 [] [] [].

Definition has_id (i : nat) (c : clip) : bool := Nat.eqb (clip_id c) i.

Section Hook.

(** [atob], [None] when it throws. *)
Variable atob : string -> option string.

Definition playNextInQueue (w : world) : world :=
  match audioQueue w with
  | [] =>
      mkWorld false (isMuted w) [] None false
        (sounding w) (timers w) (created w) (enqueued w) (started w) (handled w)
  | c :: rest =>
      mkWorld true (isMuted w) rest (Some c) (isProcessing w)
        (sounding w ++ [c]) (timers w) (created w) (enqueued w) (started w ++ [c]) (handled w)
  end.

Definition processAudioQueue (w : world) : world :=
  if isProcessing w then w
  else
    playNextInQueue
      (mkWorld (isSpeaking w) (isMuted w) (audioQueue w) (currentAudio w) true
         (sounding w) (timers w) (created w) (enqueued w) (started w) (handled w)).

(** The body of the [try] block of [playAudio] once the audio data decoded. *)
Definition enqueue (bytes : string) (w : world) : world :=
  let c := mkClip (created w) bytes in
  let w1 :=
    mkWorld (isSpeaking w) (isMuted w) (audioQueue w ++ [c]) (currentAudio w)
      (isProcessing w) (sounding w) (timers w) (S (created w))
      (enqueued w ++ [c]) (started w) (handled w) in
  if isProcessing w1 then w1 else processAudioQueue w1.

(** [playAudio] is made by [useCallback(..., [isMuted])]: every render in
    which [isMuted] has changed makes a new function, and the function tests
    the [isMuted] of the render that made it, [muted] here - not the state of
    the hook at the time of the call.  A caller that kept the function of an
    earlier render calls it with the flag of that render. *)
Definition playAudio (muted : bool) (audioBase64 : jsval) (w : world) : world :=
  if muted then w
  else if negb (truthy audioBase64) then w
  else
    match to_string audioBase64 with
    | None => w
    | Some b64 =>
        match atob b64 with
        | None => w
        | Some bytes => enqueue bytes w
        end
    end.

(** The [playAudio] the hook returns from a render in state [w]. *)
Definition rendered_playAudio (w : world) : jsval -> world -> world :=
  playAudio (isMuted w).

(** [audio.onended], [audio.onerror] and the rejection handler of
    [audio.play()] do the same: release the clip, clear
    [currentAudioRef.current] and schedule [playNextInQueue]. *)
Definition clip_done (i : nat) (w : world) : world :=
  mkWorld (isSpeaking w) (isMuted w) (audioQueue w) None (isProcessing w)
    (List.filter (fun c => negb (has_id i c)) (sounding w)) (S (timers w))
    (created w) (enqueued w) (started w) (handled w).

Definition timer_fired (w : world) : world :=
  playNextInQueue
    (mkWorld (isSpeaking w) (isMuted w) (audioQueue w) (currentAudio w)
       (isProcessing w) (sounding w) (timers w - 1) (created w) (enqueued w)
       (started w) (handled w)).

(** [stopSpeaking] is made by [useCallback(..., [isMuted])] too; its callers,
    the stop control and [handleTTSModeChange] of the shell, take it from
    the render on screen when the user acts, so the flag it tests is the
    state of the hook. *)
Definition stopSpeaking (w : world) : world :=
  if isMuted w then
    mkWorld (isSpeaking w) false (audioQueue w) (currentAudio w) (isProcessing w)
      (sounding w) (timers w) (created w) (enqueued w) (started w) (handled w)
  else
    mkWorld false true [] None false
      (match currentAudio w with
       | Some c => List.filter (fun x => negb (has_id (clip_id c) x)) (sounding w)
       | None => sounding w
       end)
      (timers w) (created w) (enqueued w) (started w) (handled w).

Definition setIsMuted (b : bool) (w : world) : world :=
  mkWorld (isSpeaking w) b (audioQueue w) (currentAudio w) (isProcessing w)
    (sounding w) (timers w) (created w) (enqueued w) (started w) (handled w).

(** The browser has run the handler [how] of the element [i]. *)
Definition mark (i : nat) (how : ending) (w : world) : world :=
  mkWorld (isSpeaking w) (isMuted w) (audioQueue w) (currentAudio w) (isProcessing w)
    (sounding w) (timers w) (created w) (enqueued w) (started w)
    (handled w ++ [(i, how)]).

Definition has_run (i : nat) (how : ending) (w : world) : bool :=
  existsb (fun d => Nat.eqb (fst d) i && same_ending (snd d) how) (handled w).

(** When the browser can run a handler of the element [i].  The three
    handlers are independent and nothing in them looks at the others.  An
    element that sounds comes to its end by any of them.  An element that was
    started and sounds no longer - its playback failed, or [stopSpeaking]
    paused it and emptied its [src] - can still have its [error] event fired
    and the promise of its [play()] rejected, once each, unless it played to
    its end: when the audio cannot be loaded the browser does both, so that
    [onerror] and the rejection handler both run for the one clip. *)
Definition can_run (i : nat) (how : ending) (w : world) : bool :=
  existsb (has_id i) (sounding w)
  || match how with
     | Ended => false
     | Failed | Rejected =>
         existsb (has_id i) (started w)
         && negb (has_run i how w)
         && negb (has_run i Ended w)
     end.

Definition clip_callback (i : nat) (how : ending) (w : world) : option world :=
  if can_run i how w then Some (mark i how (clip_done i w)) else None.

(** What can happen to the hook: calls of its exported functions, and the
    callbacks the browser delivers.  A [playAudio] call carries the flag of
    the render whose function is called; a clip callback carries the id of
    the element whose handler runs.  [stopSpeaking] and [setIsMuted] are
    called from the controls of the current render. *)
Inductive event : Type :=
| PlayAudio (muted : bool) (audioBase64 : jsval)
| ClipEnded (i : nat)
| ClipError (i : nat)
| PlayRejected (i : nat)
| TimerFired
| StopSpeaking
| SetIsMuted (b : bool).

(** One event; [None] when the browser cannot deliver it: a handler that
    cannot run, a timer callback without a pending timer. *)
Definition step (w : world) (e : event) : option world :=
  match e with
  | PlayAudio muted a => Some (playAudio muted a w)
  | ClipEnded i => clip_callback i Ended w
  | ClipError i => clip_callback i Failed w
  | PlayRejected i => clip_callback i Rejected w
  | TimerFired =>
      match timers w with
      | O => None
      | S _ => Some (timer_fired w)
      end
  | StopSpeaking => Some (stopSpeaking w)
  | SetIsMuted b => Some (setIsMuted b w)
  end.

Fixpoint run (w : world) (es : list event) : option world :=
  match es with
  | [] => Some w
  | e :: rest =>
      match step w e with
      | Some w' => run w' rest
      | None => None
      end
  end.

Definition is_stop (e : event) : bool :=
  match e with StopSpeaking => true | _ => false end.

(** The callback is the first of its clip: the clip sounds. *)
Definition first_ending (w : world) (e : event) : bool :=
  match e with
  | ClipEnded i | ClipError i | PlayRejected i => existsb (has_id i) (sounding w)
  | _ => true
  end.

(** Playback in which the browser brings every clip to its end by one
    callback, and [stopSpeaking] is not called. *)
Fixpoint orderly (w : world) (es : list event) : bool :=
  match es with
  | [] => true
  | e :: rest =>
      negb (is_stop e) && first_ending w e
      && match step w e with
         | Some w' => orderly w' rest
         | None => true
         end
  end.

Definition ending_event (how : ending) (i : nat) : event :=
  match how with
  | Ended => ClipEnded i
  | Failed => ClipError i
  | Rejected => PlayRejected i
  end.

(** The callbacks by which the clips [cs] come to their end one after the
    other, each followed by its settle timer. *)
Definition play_out (cs : list (clip * ending)) : list event :=
  flat_map (fun ce => [ending_event (snd ce) (clip_id (fst ce)); TimerFired]) cs.

(** The invariant of playback without [stopSpeaking]: while the queue is being
    processed exactly one of a sounding clip and a pending timer exists, an
    idle hook has an empty queue, [currentAudioRef] is the sounding clip, and
    the clips started are the clips pushed minus those still queued. *)
Definition playback_inv (w : world) : Prop :=
  length (sounding w) + timers w = (if isProcessing w then 1 else 0)
  /\ (isProcessing w = false -> audioQueue w = [])
  /\ sounding w = match currentAudio w with Some c => [c] | None => [] end
  /\ enqueued w = started w ++ audioQueue w.

Lemma playback_inv_init : playback_inv init.
Proof. repeat split. Qed.

Lemma playback_inv_enqueue bytes w :
  playback_inv w -> playback_inv (enqueue bytes w).
Proof.
  destruct w as [sp mu q cur pr snd tm cr enq st hd].
  unfold playback_inv, enqueue, processAudioQueue, playNextInQueue; simpl.
  intros (Hcount & Hidle & Hcur & Hfifo).
  destruct pr; simpl.
  - repeat split; auto; try discriminate.
    rewrite Hfifo. now rewrite app_assoc.
  - specialize (Hidle eq_refl). subst q. simpl.
    destruct snd as [|x snd]; simpl in Hcount; [|lia].
    assert (tm = 0) by lia. subst tm.
    destruct cur; [discriminate|].
    repeat split; auto; try discriminate.
    rewrite Hfifo. now rewrite !app_nil_r.
Qed.

(** A call that is skipped - the function was made by a render in which the
    hook was muted, or the audio data is empty or absent - changes nothing. *)
Lemma playAudio_skips muted a w :
  muted = true \/ truthy a = false -> playAudio muted a w = w.
Proof.
  intros H. unfold playAudio. destruct H as [-> | ->]; [reflexivity|].
  now destruct muted.
Qed.

Lemma playback_inv_playAudio muted a w :
  playback_inv w -> playback_inv (playAudio muted a w).
Proof.
  intros H. unfold playAudio.
  destruct muted; [exact H|].
  destruct (negb (truthy a)); [exact H|].
  destruct (to_string a) as [b64|]; [|exact H].
  destruct (atob b64); [|exact H].
  now apply playback_inv_enqueue.
Qed.

Lemma playback_inv_clip_done i w :
  playback_inv w -> existsb (has_id i) (sounding w) = true ->
  playback_inv (clip_done i w).
Proof.
  destruct w as [sp mu q cur pr snd tm cr enq st hd].
  unfold playback_inv, clip_done; simpl.
  intros (Hcount & Hidle & Hcur & Hfifo) Hin.
  destruct snd as [|x snd]; [discriminate|].
  destruct pr; simpl in Hcount; [|lia].
  destruct snd; simpl in Hcount; [|lia].
  assert (tm = 0) by lia. subst tm.
  simpl in Hin. rewrite orb_false_r in Hin. simpl. rewrite Hin. simpl.
  repeat split; auto.
Qed.

Lemma playback_inv_mark i how w : playback_inv w -> playback_inv (mark i how w).
Proof. intros H. exact H. Qed.

Lemma playback_inv_timer w :
  playback_inv w -> timers w <> 0 -> playback_inv (timer_fired w).
Proof.
  destruct w as [sp mu q cur pr snd tm cr enq st hd].
  unfold playback_inv, timer_fired, playNextInQueue; simpl.
  intros (Hcount & Hidle & Hcur & Hfifo) Htm.
  destruct pr; simpl in Hcount; [|lia].
  destruct snd; simpl in Hcount; [|lia].
  assert (tm = 1) by lia. subst tm.
  destruct q as [|c q]; simpl.
  - repeat split; auto.
  - repeat split; auto; try discriminate.
    rewrite Hfifo. now rewrite <- app_assoc.
Qed.

Lemma playback_inv_callback i how w w' :
  playback_inv w -> existsb (has_id i) (sounding w) = true ->
  clip_callback i how w = Some w' -> playback_inv w'.
Proof.
  intros Hinv Hs H. unfold clip_callback in H.
  destruct (can_run i how w); [|discriminate].
  injection H as <-. now apply playback_inv_mark, playback_inv_clip_done.
Qed.

Lemma playback_inv_step w e w' :
  is_stop e = false -> first_ending w e = true ->
  playback_inv w -> step w e = Some w' -> playback_inv w'.
Proof.
  intros Hns Hfirst Hinv Hstep.
  destruct e; cbn [step first_ending] in Hstep, Hfirst; try discriminate Hns.
  - injection Hstep as <-. now apply playback_inv_playAudio.
  - now apply (playback_inv_callback i Ended w).
  - now apply (playback_inv_callback i Failed w).
  - now apply (playback_inv_callback i Rejected w).
  - destruct (timers w) eqn:E; [discriminate|].
    injection Hstep as <-. apply playback_inv_timer; [assumption|lia].
  - injection Hstep as <-. exact Hinv.
Qed.

Lemma playback_inv_run es : forall w w',
  orderly w es = true -> playback_inv w -> run w es = Some w' ->
  playback_inv w'.
Proof.
  induction es as [|e es IH]; cbn [orderly run]; intros w w' Hes Hinv Hrun.
  - now injection Hrun as <-.
  - apply andb_prop in Hes as [He Hes]. apply andb_prop in He as [Hns Hfirst].
    destruct (step w e) as [w1|] eqn:E; [|discriminate].
    apply (IH w1); auto.
    eapply playback_inv_step; eauto.
    now destruct (is_stop e).
Qed.

(** While a clip sounds, [playAudio] starts nothing and only grows the tail
    of the queue. *)
Lemma playAudio_while_sounding muted a w c :
  playback_inv w -> sounding w = [c] ->
  sounding (playAudio muted a w) = [c]
  /\ currentAudio (playAudio muted a w) = Some c
  /\ started (playAudio muted a w) = started w
  /\ exists new, length new <= 1
       /\ audioQueue (playAudio muted a w) = audioQueue w ++ new
       /\ enqueued (playAudio muted a w) = enqueued w ++ new.
Proof.
  intros (Hcount & Hidle & Hcur & Hfifo) Hs.
  assert (Hc : currentAudio w = Some c).
  { rewrite Hs in Hcur. destruct (currentAudio w); [now injection Hcur as ->|discriminate]. }
  assert (Hp : isProcessing w = true).
  { rewrite Hs in Hcount. simpl in Hcount. destruct (isProcessing w); [reflexivity|lia]. }
  assert (Hsame : sounding w = [c] /\ currentAudio w = Some c /\ started w = started w
      /\ exists new, length new <= 1 /\ audioQueue w = audioQueue w ++ new
           /\ enqueued w = enqueued w ++ new).
  { repeat split; auto. exists []. rewrite !app_nil_r. simpl. repeat split; auto. }
  unfold playAudio.
  destruct muted; [exact Hsame|].
  destruct (negb (truthy a)); [exact Hsame|].
  destruct (to_string a) as [b64|]; [|exact Hsame].
  destruct (atob b64) as [bytes|]; [|exact Hsame].
  unfold enqueue. simpl. rewrite Hp. simpl.
  repeat split; auto.
  exists [mkClip (created w) bytes]. simpl. repeat split; auto.
Qed.

(** One ending per clip: no overlap, and first in, first out.  In a run from
    the idle hook in which every clip callback is the first of its clip and
    [stopSpeaking] is not called, at most one clip sounds, the clips started
    followed by the clips still queued are the clips enqueued, in their order
    of arrival, and a [playAudio] call made while a clip sounds leaves that
    clip playing and at most appends its clip to the tail of the queue. *)
Lemma orderly_playback_is_sequential (es : list event) (w : world) :
  orderly init es = true ->
  run init es = Some w ->
  length (sounding w) <= 1
  /\ enqueued w = started w ++ audioQueue w
  /\ (forall c muted a, sounding w = [c] ->
        sounding (playAudio muted a w) = [c]
        /\ currentAudio (playAudio muted a w) = Some c
        /\ started (playAudio muted a w) = started w
        /\ exists new, length new <= 1
             /\ audioQueue (playAudio muted a w) = audioQueue w ++ new
             /\ enqueued (playAudio muted a w) = enqueued w ++ new).
Proof.
  intros Hes Hrun.
  assert (Hinv : playback_inv w)
    by (eapply playback_inv_run; eauto using playback_inv_init).
  split; [|split].
  - destruct Hinv as (Hcount & _). destruct (isProcessing w); lia.
  - apply Hinv.
  - intros c muted a Hs. now apply playAudio_while_sounding.
Qed.

(** The first callback of the sounding clip, whichever handler it is. *)
Lemma step_clip_ended w c how :
  sounding w = [c] ->
  step w (ending_event how (clip_id c))
  = Some (mark (clip_id c) how (clip_done (clip_id c) w))
  /\ sounding (clip_done (clip_id c) w) = [].
Proof.
  intros Hs.
  assert (H : clip_callback (clip_id c) how w
              = Some (mark (clip_id c) how (clip_done (clip_id c) w))
              /\ sounding (clip_done (clip_id c) w) = []).
  { unfold clip_callback, can_run, clip_done. rewrite Hs.
    cbn [existsb List.filter sounding].
    unfold has_id. rewrite Nat.eqb_refl. split; reflexivity. }
  destruct how; exact H.
Qed.

(** Letting the sounding clip and then every queued clip come to its end,
    in whichever way, plays the queue out, in order. *)
Lemma play_out_drains (q : list clip) :
  forall (hows : list ending) (w : world) (c : clip) (how : ending),
  playback_inv w -> sounding w = [c] -> audioQueue w = q ->
  length hows = length q ->
  exists w',
    run w (play_out ((c, how) :: combine q hows)) = Some w'
    /\ started w' = started w ++ q
    /\ audioQueue w' = []
    /\ sounding w' = []
    /\ isProcessing w' = false
    /\ playback_inv w'.
Proof.
  induction q as [|c' q IH]; intros hows w c how Hinv Hs Hq Hlen;
    destruct (step_clip_ended w c how Hs) as [Hstep Hsil];
    assert (Hd : playback_inv (mark (clip_id c) how (clip_done (clip_id c) w)))
      by (apply playback_inv_mark, playback_inv_clip_done; [exact Hinv|];
          rewrite Hs; cbn [existsb]; unfold has_id; now rewrite Nat.eqb_refl);
    assert (Ht : playback_inv
                   (timer_fired (mark (clip_id c) how (clip_done (clip_id c) w))))
      by (apply playback_inv_timer; [exact Hd|]; cbn; discriminate).
  - cbn [combine play_out flat_map app fst snd run]. rewrite Hstep.
    cbn [step mark clip_done timers].
    exists (timer_fired (mark (clip_id c) how (clip_done (clip_id c) w))).
    split; [reflexivity|].
    split; [|split; [|split; [|split; [|exact Ht]]]].
    + unfold timer_fired, playNextInQueue. cbn. rewrite Hq. cbn.
      now rewrite app_nil_r.
    + unfold timer_fired, playNextInQueue. cbn. now rewrite Hq.
    + unfold timer_fired, playNextInQueue. cbn. rewrite Hq. cbn. exact Hsil.
    + unfold timer_fired, playNextInQueue. cbn. now rewrite Hq.
  - destruct hows as [|how' hows]; [discriminate|].
    injection Hlen as Hlen.
    destruct (IH hows (timer_fired (mark (clip_id c) how (clip_done (clip_id c) w)))
                c' how' Ht)
      as (w' & Hr & Hst & Hrest).
    + unfold timer_fired, playNextInQueue. cbn. rewrite Hq. cbn.
      unfold clip_done in Hsil. cbn in Hsil. now rewrite Hsil.
    + unfold timer_fired, playNextInQueue. cbn. now rewrite Hq.
    + exact Hlen.
    + exists w'. split; [|split; [|exact Hrest]].
      * change (play_out ((c, how) :: combine (c' :: q) (how' :: hows)))
          with (ending_event how (clip_id c) :: TimerFired
                  :: play_out ((c', how') :: combine q hows)).
        cbn [run]. rewrite Hstep. cbn [step mark clip_done timers]. exact Hr.
      * rewrite Hst. unfold timer_fired, playNextInQueue. cbn. rewrite Hq. cbn.
        now rewrite <- app_assoc.
Qed.

End Hook.

(** Base64 decoding stood in for by the identity on the sample clips. *)
Definition sample_atob (s : string) : option string := Some s.

(** ** C1 *)

(** C1, the code at the failing input.  Three clips arrive; the first starts
    and the other two wait.  The audio of the first cannot be loaded: the
    element fires [error] and the promise of [play()] is rejected, so both
    [onerror] and the rejection handler run, and each schedules
    [playNextInQueue].  The first timer starts the second clip, the second
    timer starts the third on top of it: two clips sound at once. *)
Theorem failed_load_starts_two_clips :
  let first := mkClip 0 "QQ==" in
  let second := mkClip 1 "Qg==" in
  let third := mkClip 2 "Qw==" in
  let arrivals :=
    [PlayAudio false (JStr "QQ=="); PlayAudio false (JStr "Qg==");
     PlayAudio false (JStr "Qw==")] in
  (exists w,
     run sample_atob init arrivals = Some w
     /\ sounding w = [first] /\ audioQueue w = [second; third])
  /\ (exists w,
        run sample_atob init (arrivals ++ [ClipError 0; PlayRejected 0]) = Some w
        /\ sounding w = [] /\ timers w = 2 /\ audioQueue w = [second; third])
  /\ (exists w,
        run sample_atob init (arrivals ++ [ClipError 0; PlayRejected 0; TimerFired])
        = Some w
        /\ sounding w = [second] /\ timers w = 1 /\ audioQueue w = [third])
  /\ (exists w,
        run sample_atob init
          (arrivals ++ [ClipError 0; PlayRejected 0; TimerFired; TimerFired])
        = Some w
        /\ sounding w = [second; third]
        /\ started w = [first; second; third]
        /\ enqueued w = [first; second; third]).
Proof.
  intros first second third arrivals.
  split; [|split; [|split]]; eexists; (split; [vm_compute; reflexivity|]);
    repeat split.
Qed.

(** ** stopSpeaking *)

Section Stopping.

Variable atob : string -> option string.

(** [audioBase64] is audio data that [playAudio] can decode to [bytes]. *)
Definition decodes (audioBase64 : jsval) (bytes : string) : Prop :=
  truthy audioBase64 = true
  /\ exists b64, to_string audioBase64 = Some b64 /\ atob b64 = Some bytes.

(** The clips that wait in the queue were made by the hook: their numbers are
    below the number of elements created. *)
Definition queue_known (w : world) : Prop :=
  Forall (fun c => clip_id c < created w) (audioQueue w).

(** Since the hook had created [n] elements and started the clips [before],
    it has started and queued only elements created later. *)
Definition fresh_since (n : nat) (before : list clip) (w : world) : Prop :=
  n <= created w
  /\ exists later,
       started w = before ++ later
       /\ Forall (fun c => n <= clip_id c) (later ++ audioQueue w).

Lemma playAudio_decodes a bytes w :
  decodes a bytes -> playAudio atob false a w = enqueue bytes w.
Proof.
  intros (Ha & b64 & Hs & Hd). unfold playAudio.
  now rewrite Ha, Hs, Hd.
Qed.

Lemma playAudio_cases muted a w :
  playAudio atob muted a w = w \/ exists bytes, playAudio atob muted a w = enqueue bytes w.
Proof.
  unfold playAudio. destruct muted; [now left|].
  destruct (negb (truthy a)); [now left|].
  destruct (to_string a) as [b64|]; [|now left].
  destruct (atob b64) as [bytes|]; [|now left].
  right. now exists bytes.
Qed.

Lemma queue_known_playNext w : queue_known w -> queue_known (playNextInQueue w).
Proof.
  unfold queue_known, playNextInQueue. intros H.
  destruct (audioQueue w) as [|c rest]; cbn [audioQueue created].
  - constructor.
  - now inversion H.
Qed.

Lemma queue_known_enqueue bytes w : queue_known w -> queue_known (enqueue bytes w).
Proof.
  intros H.
  assert (H1 : Forall (fun c => clip_id c < S (created w))
                 (audioQueue w ++ [mkClip (created w) bytes])).
  { apply Forall_app. split.
    - eapply List.Forall_impl; [|exact H]. cbn. intros c Hc. lia.
    - constructor; [cbn; lia | constructor]. }
  unfold enqueue. cbn [isProcessing]. destruct (isProcessing w); [exact H1|].
  unfold processAudioQueue. cbn [isProcessing].
  apply queue_known_playNext. exact H1.
Qed.

Lemma queue_known_step w e w' :
  queue_known w -> step atob w e = Some w' -> queue_known w'.
Proof.
  intros H Hstep.
  assert (Hcb : forall i how, clip_callback i how w = Some w' -> queue_known w').
  { intros i how Hc. unfold clip_callback in Hc.
    destruct (can_run i how w); [|discriminate]. injection Hc as <-. exact H. }
  destruct e; cbn [step] in Hstep; eauto.
  - injection Hstep as <-.
    destruct (playAudio_cases muted audioBase64 w) as [-> | [bytes ->]];
      [exact H | now apply queue_known_enqueue].
  - destruct (timers w); [discriminate|]. injection Hstep as <-.
    unfold timer_fired. now apply queue_known_playNext.
  - injection Hstep as <-. unfold stopSpeaking.
    destruct (isMuted w); [exact H | constructor].
  - injection Hstep as <-. exact H.
Qed.

Lemma queue_known_run es : forall w w',
  queue_known w -> run atob w es = Some w' -> queue_known w'.
Proof.
  induction es as [|e es IH]; intros w w' H Hrun; cbn [run] in Hrun.
  - now injection Hrun as <-.
  - destruct (step atob w e) as [w1|] eqn:E; [|discriminate].
    eapply IH; [|exact Hrun]. eapply queue_known_step; eauto.
Qed.

Lemma fresh_since_playNext n before w :
  fresh_since n before w -> fresh_since n before (playNextInQueue w).
Proof.
  unfold fresh_since, playNextInQueue. intros (Hn & later & Hst & Hall).
  destruct (audioQueue w) as [|c rest]; cbn [audioQueue created started].
  - split; [exact Hn|]. exists later. split; [exact Hst | exact Hall].
  - split; [exact Hn|]. exists (later ++ [c]). split.
    + now rewrite Hst, app_assoc.
    + now rewrite <- app_assoc.
Qed.

Lemma fresh_since_enqueue n before bytes w :
  fresh_since n before w -> fresh_since n before (enqueue bytes w).
Proof.
  intros (Hn & later & Hst & Hall).
  assert (H1 : fresh_since n before
                 (mkWorld (isSpeaking w) (isMuted w)
                    (audioQueue w ++ [mkClip (created w) bytes]) (currentAudio w)
                    (isProcessing w) (sounding w) (timers w) (S (created w))
                    (enqueued w ++ [mkClip (created w) bytes]) (started w) (handled w))).
  { split; [cbn; lia|]. exists later. cbn [started audioQueue].
    split; [exact Hst|]. rewrite app_assoc. apply Forall_app. split; [exact Hall|].
    constructor; [exact Hn | constructor]. }
  unfold enqueue. cbn [isProcessing]. destruct (isProcessing w); [exact H1|].
  unfold processAudioQueue. cbn [isProcessing].
  apply fresh_since_playNext. exact H1.
Qed.

Lemma fresh_since_step n before w e w' :
  fresh_since n before w -> step atob w e = Some w' -> fresh_since n before w'.
Proof.
  intros H Hstep.
  assert (Hcb : forall i how, clip_callback i how w = Some w' -> fresh_since n before w').
  { intros i how Hc. unfold clip_callback in Hc.
    destruct (can_run i how w); [|discriminate]. injection Hc as <-. exact H. }
  destruct e; cbn [step] in Hstep; eauto.
  - injection Hstep as <-.
    destruct (playAudio_cases muted audioBase64 w) as [-> | [bytes ->]];
      [exact H | now apply fresh_since_enqueue].
  - destruct (timers w); [discriminate|]. injection Hstep as <-.
    unfold timer_fired. now apply fresh_since_playNext.
  - injection Hstep as <-. unfold stopSpeaking.
    destruct (isMuted w); [exact H|].
    destruct H as (Hn & later & Hst & Hall).
    split; [exact Hn|]. exists later. cbn [started audioQueue].
    split; [exact Hst|]. rewrite app_nil_r.
    apply Forall_app in Hall. apply Hall.
  - injection Hstep as <-. exact H.
Qed.

Lemma fresh_since_run n before es : forall w w',
  fresh_since n before w -> run atob w es = Some w' -> fresh_since n before w'.
Proof.
  induction es as [|e es IH]; intros w w' H Hrun; cbn [run] in Hrun.
  - now injection Hrun as <-.
  - destruct (step atob w e) as [w1|] eqn:E; [|discriminate].
    eapply IH; [|exact Hrun]. eapply fresh_since_step; eauto.
Qed.

(** Stop discards the waiting clips for good.  Whatever led to the state in
    which [stopSpeaking] is called on a hook that is not muted, the call
    empties the queue, clears [currentAudioRef] and the processing flag and
    sets the mute flag; and whatever happens afterwards - audio arriving
    through the [playAudio] of any render, clip callbacks, timers, unmuting,
    further stops - no clip that was waiting in the queue is ever started or
    queued again: the clips started later were all created after the stop. *)
Theorem stopSpeaking_discards_waiting_clips (es0 es : list event) (w w' : world) :
  run atob init es0 = Some w ->
  isMuted w = false ->
  run atob (stopSpeaking w) es = Some w' ->
  (audioQueue (stopSpeaking w) = []
   /\ currentAudio (stopSpeaking w) = None
   /\ isProcessing (stopSpeaking w) = false
   /\ isMuted (stopSpeaking w) = true)
  /\ exists later,
       started w' = started w ++ later
       /\ Forall (fun c => created w <= clip_id c) (later ++ audioQueue w')
       /\ forall c, In c (audioQueue w) -> ~ In c later /\ ~ In c (audioQueue w').
Proof.
  intros Hreach Hm Hrun.
  assert (Hknown : queue_known w).
  { eapply queue_known_run; [|exact Hreach]. constructor. }
  assert (Hstop : stopSpeaking w
                  = mkWorld false true [] None false
                      (match currentAudio w with
                       | Some c => List.filter (fun x => negb (has_id (clip_id c) x)) (sounding w)
                       | None => sounding w
                       end)
                      (timers w) (created w) (enqueued w) (started w) (handled w))
    by (unfold stopSpeaking; now rewrite Hm).
  split; [rewrite Hstop; repeat split|].
  assert (Hfresh : fresh_since (created w) (started w) (stopSpeaking w)).
  { rewrite Hstop. split; [cbn; lia|]. exists []. cbn [started audioQueue app].
    split; [now rewrite app_nil_r | constructor]. }
  destruct (fresh_since_run _ _ _ _ _ Hfresh Hrun) as (_ & later & Hst & Hall).
  exists later. split; [exact Hst|]. split; [exact Hall|].
  intros c Hc.
  assert (Hlt : clip_id c < created w).
  { unfold queue_known in Hknown. rewrite List.Forall_forall in Hknown.
    now apply Hknown. }
  rewrite List.Forall_forall in Hall.
  split; intros Hin.
  - assert (created w <= clip_id c) by (apply Hall, in_or_app; now left). lia.
  - assert (created w <= clip_id c) by (apply Hall, in_or_app; now right). lia.
Qed.

(** [stopSpeaking] does not cancel the timer of the settle gap.  When the
    hook is stopped between two clips (the timer that follows the end of a
    clip is pending), then unmuted, the first clip that arrives (through a
    [playAudio] made while the hook was not muted: that of the render before
    the stop, or that of the render after the unmuting) starts at once; the old timer then fires, finds the queue empty and marks the hook
    idle although that clip sounds; so the next clip that arrives starts too,
    on top of it: two clips sound at once. *)
Theorem stop_in_settle_gap_allows_overlap (w : world) (a b : jsval)
    (bytes_a bytes_b : string) :
  playback_inv w ->
  timers w = 1 ->
  isMuted w = false ->
  decodes a bytes_a ->
  decodes b bytes_b ->
  exists w',
    run atob w
      [StopSpeaking; StopSpeaking; PlayAudio false a; TimerFired; PlayAudio false b]
    = Some w'
    /\ sounding w'
       = [mkClip (created w) bytes_a; mkClip (S (created w)) bytes_b]
    /\ started w'
       = started w ++ [mkClip (created w) bytes_a; mkClip (S (created w)) bytes_b].
Proof.
  intros (Hcount & _ & Hcur & _) Ht Hm Ha Hb.
  assert (Hs : sounding w = []).
  { rewrite Ht in Hcount. destruct (sounding w); [reflexivity|].
    cbn in Hcount. destruct (isProcessing w); lia. }
  destruct w as [sp mu q cur pr snd tm cr enq st hd].
  cbn in Ht, Hm, Hs, Hcur. subst tm mu snd.
  destruct cur; [discriminate|].
  eexists. cbn [run step stopSpeaking isMuted].
  rewrite (playAudio_decodes a bytes_a) by exact Ha.
  unfold enqueue, processAudioQueue, playNextInQueue. cbn -[playAudio].
  rewrite (playAudio_decodes b bytes_b) by exact Hb.
  unfold enqueue, processAudioQueue, playNextInQueue. cbn.
  split; [reflexivity|].
  split; [reflexivity | cbn; now rewrite <- app_assoc].
Qed.

(** *** Everything that arrives is played *)

(** The clips made of [bytes], numbered from [i] on. *)
Fixpoint clips_from (i : nat) (bytes : list string) : list clip :=
  match bytes with
  | [] => []
  | b :: rest => mkClip i b :: clips_from (S i) rest
  end.

Lemma run_app (es es' : list event) : forall w,
  run atob w (es ++ es') =
  match run atob w es with
  | Some w' => run atob w' es'
  | None => None
  end.
Proof.
  induction es as [|e es IH]; intros w; [reflexivity|].
  cbn [app run]. destruct (step atob w e); [apply IH | reflexivity].
Qed.

Lemma clips_from_length i bytes : length (clips_from i bytes) = length bytes.
Proof.
  revert i. induction bytes as [|b bytes IH]; intros i; [reflexivity|].
  cbn [clips_from length]. now rewrite IH.
Qed.

(** Audio that arrives while a clip sounds queues up behind it. *)
Lemma arrivals_queue_up (payloads : list jsval) : forall (bytes : list string) w c,
  Forall2 decodes payloads bytes ->
  playback_inv w -> sounding w = [c] ->
  exists w',
    run atob w (map (PlayAudio false) payloads) = Some w'
    /\ playback_inv w' /\ sounding w' = [c]
    /\ started w' = started w
    /\ audioQueue w' = audioQueue w ++ clips_from (created w) bytes.
Proof.
  induction payloads as [|a payloads IH]; intros bytes w c Hd Hinv Hs.
  - inversion Hd; subst. exists w. cbn [map run clips_from]. rewrite app_nil_r.
    repeat split; auto; try apply Hinv.
  - inversion Hd as [|? b ? bytes' Ha Hrest]; subst.
    cbn [map run step]. rewrite (playAudio_decodes a b w Ha).
    assert (Hp : isProcessing w = true).
    { destruct Hinv as (Hcount & _). rewrite Hs in Hcount. cbn in Hcount.
      destruct (isProcessing w); [reflexivity | lia]. }
    assert (He : enqueue b w
                 = mkWorld (isSpeaking w) (isMuted w) (audioQueue w ++ [mkClip (created w) b])
                     (currentAudio w) (isProcessing w) (sounding w) (timers w)
                     (S (created w)) (enqueued w ++ [mkClip (created w) b]) (started w)
                     (handled w)).
    { unfold enqueue. cbn [isProcessing]. now rewrite Hp. }
    destruct (IH bytes' (enqueue b w) c Hrest) as (w' & Hr & Hi & Hsn & Hst & Hq).
    + now apply playback_inv_enqueue.
    + rewrite He. exact Hs.
    + exists w'. split; [exact Hr|]. split; [exact Hi|]. split; [exact Hsn|].
      rewrite Hst, Hq, He. cbn [started audioQueue created clips_from].
      split; [reflexivity | now rewrite <- app_assoc].
Qed.

(** Every clip is played, in the order of arrival.  When audio data arrives
    at a hook that is idle and not muted - any number of clips, one call of
    the [playAudio] of that hook each - and the clips then come to their end one after the
    other (each by ending, by a playback error or by a rejected [play()], and
    each followed by its timer), every clip is started, once, in the order
    the audio arrived, and the hook ends idle with an empty queue. *)
Theorem every_clip_is_played_in_order (payloads : list jsval) (bytes : list string)
    (hows : list ending) :
  Forall2 decodes payloads bytes ->
  length hows = length bytes ->
  exists w',
    run atob init
      (map (PlayAudio false) payloads ++ play_out (combine (clips_from 0 bytes) hows))
    = Some w'
    /\ started w' = clips_from 0 bytes
    /\ enqueued w' = clips_from 0 bytes
    /\ audioQueue w' = []
    /\ sounding w' = []
    /\ isProcessing w' = false.
Proof.
  intros Hd Hlen. rewrite run_app.
  destruct Hd as [|a b payloads bytes Ha Hrest].
  - exists init. cbn. repeat split; reflexivity.
  - destruct hows as [|how hows]; [discriminate|]. injection Hlen as Hlen.
    cbn [map run step]. rewrite (playAudio_decodes a b init Ha).
    assert (Hinv : playback_inv (enqueue b init))
      by (apply playback_inv_enqueue, playback_inv_init).
    destruct (arrivals_queue_up payloads bytes (enqueue b init) (mkClip 0 b) Hrest Hinv
                eq_refl) as (w1 & Hr & Hi & Hsn & Hst & Hq).
    rewrite Hr. cbn [clips_from combine].
    change (created (enqueue b init)) with 1 in Hq.
    change (audioQueue (enqueue b init)) with (@nil clip) in Hq. cbn [app] in Hq.
    rewrite <- Hq.
    destruct (play_out_drains atob (audioQueue w1) hows w1 (mkClip 0 b) how Hi Hsn eq_refl)
      as (w' & Hrun & Hstarted & Hqueue & Hsound & Hproc & Hinv').
    + rewrite Hq, clips_from_length. exact Hlen.
    + exists w'. split; [exact Hrun|].
      assert (Hall : started w' = mkClip 0 b :: audioQueue w1)
        by (rewrite Hstarted, Hst; reflexivity).
      split; [exact Hall|]. split; [|auto].
      destruct Hinv' as (_ & _ & _ & Hfifo).
      now rewrite Hfifo, Hqueue, app_nil_r.
Qed.

End Stopping.

Lemma stopSpeaking_discards_waiting_clips_witness :
  let es0 := [PlayAudio false (JStr "QQ=="); PlayAudio false (JStr "Qg==");
              PlayAudio false (JStr "Qw==")] in
  let w := mkWorld true false [mkClip 1 "Qg=="; mkClip 2 "Qw=="]
             (Some (mkClip 0 "QQ==")) true [mkClip 0 "QQ=="] 0 3
             [mkClip 0 "QQ=="; mkClip 1 "Qg=="; mkClip 2 "Qw=="] [mkClip 0 "QQ=="] [] in
  let es := [PlayAudio false (JStr "RA=="); StopSpeaking; ClipEnded 3; TimerFired;
             PlayAudio false (JStr "RQ==")] in
  (run sample_atob init es0 = Some w /\ isMuted w = false)
  /\ exists w',
       run sample_atob (stopSpeaking w) es = Some w'
       /\ started w' = [mkClip 0 "QQ=="; mkClip 3 "RA=="; mkClip 4 "RQ=="]
       /\ ~ In (mkClip 1 "Qg==") (started w')
       /\ ~ In (mkClip 2 "Qw==") (started w').
Proof.
  intros es0 w es.
  split; [split; reflexivity|].
  assert (Hrun : exists w', run sample_atob (stopSpeaking w) es = Some w'
                            /\ started w' = [mkClip 0 "QQ=="; mkClip 3 "RA=="; mkClip 4 "RQ=="]).
  { eexists. split; vm_compute; reflexivity. }
  destruct Hrun as (w' & Hrun & Hstarted). exists w'.
  destruct (stopSpeaking_discards_waiting_clips sample_atob es0 es w w' eq_refl eq_refl Hrun)
    as (_ & later & Hst & _ & Hgone).
  split; [exact Hrun|]. split; [exact Hstarted|].
  assert (Hnot : forall c, In c (audioQueue w) -> ~ In c (started w')).
  { intros c Hc Hin. rewrite Hst in Hin. apply in_app_or in Hin as [Hin|Hin].
    - cbn in Hc, Hin. destruct Hc as [<-|[<-|[]]]; destruct Hin as [Hin|[]];
        discriminate Hin.
    - now apply (proj1 (Hgone c Hc)). }
  split; apply Hnot; cbn; auto.
Defined.

Lemma stop_in_settle_gap_allows_overlap_witness :
  let w := clip_done 0 (enqueue "QQ==" init) in
  (playback_inv w /\ timers w = 1 /\ isMuted w = false
   /\ decodes sample_atob (JStr "Qg==") "Qg=="
   /\ decodes sample_atob (JStr "Qw==") "Qw==")
  /\ exists w',
       run sample_atob w
         [StopSpeaking; StopSpeaking; PlayAudio false (JStr "Qg=="); TimerFired;
          PlayAudio false (JStr "Qw==")]
       = Some w'
       /\ sounding w' = [mkClip 1 "Qg=="; mkClip 2 "Qw=="].
Proof.
  intros w.
  assert (Hinv : playback_inv w).
  { apply playback_inv_clip_done; [|reflexivity].
    apply playback_inv_enqueue, playback_inv_init. }
  assert (Ha : decodes sample_atob (JStr "Qg==") "Qg==")
    by (split; [reflexivity | now exists "Qg=="]).
  assert (Hb : decodes sample_atob (JStr "Qw==") "Qw==")
    by (split; [reflexivity | now exists "Qw=="]).
  split.
  { split; [exact Hinv|]. split; [reflexivity|]. split; [reflexivity|].
    split; [exact Ha | exact Hb]. }
  destruct (stop_in_settle_gap_allows_overlap sample_atob w _ _ _ _
              Hinv eq_refl eq_refl Ha Hb) as (w' & Hrun & Hsnd & _).
  exists w'. split; [exact Hrun | exact Hsnd].
Defined.

Lemma every_clip_is_played_in_order_witness :
  let payloads := [JStr "QQ=="; JStr "Qg=="; JStr "Qw=="] in
  let bytes := ["QQ=="; "Qg=="; "Qw=="] in
  Forall2 (decodes sample_atob) payloads bytes
  /\ exists w',
       run sample_atob init
         (map (PlayAudio false) payloads
          ++ play_out (combine (clips_from 0 bytes) [Ended; Failed; Rejected]))
       = Some w'
       /\ started w' = [mkClip 0 "QQ=="; mkClip 1 "Qg=="; mkClip 2 "Qw=="]
       /\ audioQueue w' = [].
Proof.
  intros payloads bytes.
  assert (Hd : Forall2 (decodes sample_atob) payloads bytes).
  { repeat constructor; eexists; split; reflexivity. }
  split; [exact Hd|].
  destruct (every_clip_is_played_in_order sample_atob payloads bytes
              [Ended; Failed; Rejected] Hd eq_refl) as (w' & Hr & Hs & _ & Hq & _).
  exists w'. split; [exact Hr|]. split; [exact Hs | exact Hq].
Defined.

End StreamingVoice.

(* ===================================================================== *)
(** * frontend/src/components/AppShell.js: the wiring of the two hooks *)
(* ===================================================================== *)

Module AppShell.
Import JSV Chat.

Inductive tts_mode : Type := OpenAI | Browser.

(** What the callbacks of [useSSEChat] act on: the playback hook, and the
    texts handed to [browserTTSHook.speakText]. *)
Record sinks : Type := mkSinks {
  voice : StreamingVoice.world;
  browser_spoken : list string
}.

Section Shell.

Variable atob : string -> option string.

(** The callbacks handed to [useSSEChat] are made anew by every render, and
    [sendMessage] keeps those of the render in which the message was sent for
    as long as the answer streams.  [voiceMuted] is the [isMuted] of the
    playback hook in that render and [ttsMode] the mode of that render. *)
Variable voiceMuted : bool.
Variable ttsMode : tts_mode.

(** [(audioEvent) => voiceHook.playAudio(audioEvent.audio)], with the
    [voiceHook] of the render. *)
Definition onAudioEvent : option (jsval -> jsval -> jsval -> sinks -> sinks) :=
  Some (fun audio _ _ s =>
          mkSinks (StreamingVoice.playAudio atob voiceMuted audio (voice s))
            (browser_spoken s)).

(** [(textEvent) => { if (ttsMode === 'browser' && textEvent.content)
    browserTTSHook.speakText(textEvent.content) }] *)
Definition onTextEvent : option (props -> sinks -> sinks) :=
  Some (fun textEvent s =>
          match ttsMode, get "content" textEvent with
          | Browser, JStr (String c t) =>
              mkSinks (voice s) (browser_spoken s ++ [String c t])
          | _, _ => s
          end).

Definition handle (event : props) (selectedChatId : Z) (w : SSEChat.session sinks)
    : SSEChat.outcome sinks (SSEChat.session sinks) :=
  SSEChat.handleSSEEvent sinks onAudioEvent onTextEvent event selectedChatId w.

(** ** C6 *)

(** C6. An error event keeps what was rendered and what was queued.  The
    handler returns normally; the in-flight assistant message keeps its text
    and gets the annotation appended at its end, nothing else in the chats
    changes; the sinks are untouched, so the playback queue, the sounding
    clip and the hook's flags are what they were, and as the clips come to
    their end one after the other (by ending or by a playback error) the
    queued clips still play, in their order. *)
Theorem error_event_keeps_text_and_queue (selectedChatId : Z) (event : props)
    (m : string) (w : SSEChat.session sinks) :
  get "type" event = JStr "error" ->
  to_string (get "message" event) = Some m ->
  let annotation := String JS.LF ("[Error: " +:+ m +:+ "]") in
  exists w',
    handle event selectedChatId w = SSEChat.Ok w'
    /\ SSEChat.chats w'
       = update_last selectedChatId (append_text annotation) (SSEChat.chats w)
    /\ in_flight selectedChatId (SSEChat.chats w')
       = map (fun l => set_text l (msg_text l +:+ annotation))
           (in_flight selectedChatId (SSEChat.chats w))
    /\ SSEChat.sink w' = SSEChat.sink w
    /\ forall c how hows,
         StreamingVoice.playback_inv (voice (SSEChat.sink w)) ->
         StreamingVoice.sounding (voice (SSEChat.sink w)) = [c] ->
         length hows = length (StreamingVoice.audioQueue (voice (SSEChat.sink w))) ->
         exists v',
           StreamingVoice.run atob (voice (SSEChat.sink w'))
             (StreamingVoice.play_out
                ((c, how)
                 :: combine (StreamingVoice.audioQueue (voice (SSEChat.sink w)))
                      hows))
           = Some v'
           /\ StreamingVoice.started v'
              = StreamingVoice.started (voice (SSEChat.sink w))
                ++ StreamingVoice.audioQueue (voice (SSEChat.sink w))
           /\ StreamingVoice.audioQueue v' = [].
Proof.
  intros Hty Hm annotation.
  unfold handle, SSEChat.handleSSEEvent. rewrite Hty, Hm. cbn [SSEChat.is_type].
  eexists. split; [reflexivity|].
  cbn [SSEChat.chats SSEChat.sink SSEChat.setChats SSEChat.say].
  split; [reflexivity|]. split; [|split; [reflexivity|]].
  - now rewrite in_flight_update_last.
  - intros c how hows Hinv Hs Hlen.
    destruct (StreamingVoice.play_out_drains atob _ hows _ c how Hinv Hs eq_refl Hlen)
      as (v' & Hr & Hst & Hq & _).
    exists v'. auto.
Qed.

End Shell.

Definition sample_voice : StreamingVoice.world :=
  StreamingVoice.enqueue "Qg==" (StreamingVoice.enqueue "QQ==" StreamingVoice.init).

Definition shell_session : SSEChat.session sinks :=
  SSEChat.mkSession SSEChat.sample_chats [] (mkSinks sample_voice []).

Lemma sample_voice_inv : StreamingVoice.playback_inv sample_voice.
Proof.
  unfold sample_voice.
  do 2 apply StreamingVoice.playback_inv_enqueue.
  apply StreamingVoice.playback_inv_init.
Qed.

(** A run of the dispatcher: two text frames, then an error frame, while one
    clip sounds and one is queued. *)
Example text_then_error_run :
  let frames :=
    [SSEChat.block ["event: text"; Json.q "data: {'content': ' a ring'}"];
     SSEChat.block ["event: text"; Json.q "data: {'content': '.'}"];
     SSEChat.block ["event: error"; Json.q "data: {'message': 'model timed out'}"]] in
  match SSEChat.dispatch Json.parse sinks (onAudioEvent StreamingVoice.sample_atob false)
          (onTextEvent OpenAI) 1 frames shell_session with
  | SSEChat.Ok w' =>
      map msg_text (in_flight 1 (SSEChat.chats w'))
      = ["Benzene is a ring." +:+ String JS.LF "[Error: model timed out]"]
      /\ voice (SSEChat.sink w') = sample_voice
  | SSEChat.Throw _ => False
  end.
Proof. vm_compute. split; reflexivity. Qed.

Lemma error_event_keeps_text_and_queue_witness :
  let event := [("type", JStr "error"); ("message", JStr "model timed out")] in
  let annotation := String JS.LF "[Error: model timed out]" in
  let first := StreamingVoice.mkClip 0 "QQ==" in
  let second := StreamingVoice.mkClip 1 "Qg==" in
  (get "type" event = JStr "error"
   /\ to_string (get "message" event) = Some "model timed out"
   /\ StreamingVoice.sounding sample_voice = [first]
   /\ StreamingVoice.audioQueue sample_voice = [second])
  /\ exists w',
       handle StreamingVoice.sample_atob false OpenAI event 1 shell_session = SSEChat.Ok w'
       /\ in_flight 1 (SSEChat.chats w')
          = [mkMessage 11 "assistant" ("Benzene is" +:+ annotation) None]
       /\ StreamingVoice.audioQueue (voice (SSEChat.sink w')) = [second]
       /\ exists v',
            StreamingVoice.run StreamingVoice.sample_atob (voice (SSEChat.sink w'))
              (StreamingVoice.play_out
                 [(first, StreamingVoice.Failed); (second, StreamingVoice.Ended)])
            = Some v'
            /\ StreamingVoice.started v' = [first; second].
Proof.
  intros event annotation first second.
  split; [repeat split; reflexivity|].
  destruct (error_event_keeps_text_and_queue StreamingVoice.sample_atob false OpenAI 1 event
              "model timed out" shell_session eq_refl eq_refl)
    as (w' & Hh & _ & Hf & Hs & Hplay).
  exists w'. split; [exact Hh|]. split; [|split].
  - rewrite Hf. reflexivity.
  - rewrite Hs. reflexivity.
  - destruct (Hplay first StreamingVoice.Failed [StreamingVoice.Ended]
                sample_voice_inv eq_refl eq_refl) as (v' & Hr & Hst & _).
    exists v'. split; [exact Hr | exact Hst].
Defined.

(** ** C9 *)

(** What [handleTTSModeChange] does to the playback hook:
    [if (voiceHook.isSpeaking) voiceHook.stopSpeaking()]. *)
Definition stop_voice (s : sinks) : sinks :=
  if StreamingVoice.isSpeaking (voice s)
  then mkSinks (StreamingVoice.stopSpeaking (voice s)) (browser_spoken s)
  else s.

(** The session in which a message is sent while the playback hook is idle
    and not muted. *)
Definition session_at_send : SSEChat.session sinks :=
  SSEChat.mkSession SSEChat.sample_chats [] (mkSinks StreamingVoice.init []).

Definition audio_event (audio_base64 : string) : props :=
  [("type", JStr "audio"); ("audio_base64", JStr audio_base64)].

(** C9, the code at the failing input.  A message is sent while the playback
    hook is not muted, the first audio event of the answer starts a clip, and
    the speech is stopped while the answer still streams: the clip is paused
    and the hook is muted.  The stream goes on calling the [playAudio] of the
    render in which the message was sent, which tests the [isMuted] of that
    render: the audio of the next audio event is not skipped, its clip is
    queued and started at once, and it sounds while the hook is muted.  The
    [playAudio] of the render that follows the stop would have skipped it. *)
Theorem audio_after_stop_is_played :
  let muted_at_send := StreamingVoice.isMuted (voice (SSEChat.sink session_at_send)) in
  let first := StreamingVoice.mkClip 0 "QQ==" in
  let second := StreamingVoice.mkClip 1 "Qg==" in
  exists w1 w3,
    muted_at_send = false
    /\ handle StreamingVoice.sample_atob muted_at_send OpenAI (audio_event "QQ==") 1
         session_at_send = SSEChat.Ok w1
    /\ StreamingVoice.sounding (voice (SSEChat.sink w1)) = [first]
    /\ let w2 := SSEChat.on_sink sinks stop_voice w1 in
       StreamingVoice.isMuted (voice (SSEChat.sink w2)) = true
       /\ StreamingVoice.sounding (voice (SSEChat.sink w2)) = []
       /\ StreamingVoice.audioQueue (voice (SSEChat.sink w2)) = []
       /\ handle StreamingVoice.sample_atob muted_at_send OpenAI (audio_event "Qg==") 1 w2
          = SSEChat.Ok w3
       /\ StreamingVoice.isMuted (voice (SSEChat.sink w3)) = true
       /\ StreamingVoice.sounding (voice (SSEChat.sink w3)) = [second]
       /\ StreamingVoice.enqueued (voice (SSEChat.sink w3)) = [first; second]
       /\ StreamingVoice.started (voice (SSEChat.sink w3)) = [first; second]
       /\ StreamingVoice.rendered_playAudio StreamingVoice.sample_atob
            (voice (SSEChat.sink w2)) (JStr "Qg==") (voice (SSEChat.sink w2))
          = voice (SSEChat.sink w2).
Proof.
  intros muted_at_send first second.
  eexists. eexists.
  split; [reflexivity|].
  split; [vm_compute; reflexivity|].
  split; [reflexivity|].
  cbv zeta.
  split; [reflexivity|]. split; [reflexivity|]. split; [reflexivity|].
  split; [vm_compute; reflexivity|].
  repeat split.
Qed.

(** ** What the stream hands to the two speech hooks *)

(** The audio data of the audio events that carry some, and the contents of
    the text events that are not blank, in the order of the events. *)
Definition audio_payloads (events : list props) : list jsval :=
  flat_map
    (fun event =>
       if SSEChat.is_type "audio" (get "type" event)
          && truthy (get "audio_base64" event)
       then [get "audio_base64" event]
       else [])
    events.

Definition spoken_contents (events : list props) : list string :=
  flat_map
    (fun event =>
       if SSEChat.is_type "text" (get "type" event) then
         match get "content" event with
         | JStr s => if JS.nonempty (JS.trim s) then [s] else []
         | _ => []
         end
       else [])
    events.

Section Wiring.

Variable JSON_parse : string -> option jsval.
Variable atob : string -> option string.
Variable voiceMuted : bool.
Variable ttsMode : tts_mode.

Definition for_browser (texts : list string) : list string :=
  match ttsMode with
  | Browser => texts
  | OpenAI => []
  end.

Lemma for_browser_nil : for_browser [] = [].
Proof. unfold for_browser. now destruct ttsMode. Qed.

Lemma handle_feeds_hooks event selectedChatId w w' :
  handle atob voiceMuted ttsMode event selectedChatId w = SSEChat.Ok w' ->
  voice (SSEChat.sink w')
  = fold_left (fun v a => StreamingVoice.playAudio atob voiceMuted a v) (audio_payloads [event])
      (voice (SSEChat.sink w))
  /\ browser_spoken (SSEChat.sink w')
     = browser_spoken (SSEChat.sink w) ++ for_browser (spoken_contents [event]).
Proof.
  unfold handle, SSEChat.handleSSEEvent, audio_payloads, spoken_contents.
  cbn [flat_map]. rewrite !app_nil_r.
  assert (Hsame : forall w2 : SSEChat.session sinks,
            SSEChat.sink w2 = SSEChat.sink w ->
            voice (SSEChat.sink w2) = voice (SSEChat.sink w)
            /\ browser_spoken (SSEChat.sink w2) = browser_spoken (SSEChat.sink w) ++ []).
  { intros w2 ->. now rewrite app_nil_r. }
  destruct (SSEChat.is_type "text" (get "type" event)) eqn:Et.
  { apply SSEChat.type_is in Et. rewrite Et.
    cbn [SSEChat.is_type String.eqb Ascii.eqb Bool.eqb andb fold_left].
    unfold SSEChat.append_content, onTextEvent, or_else, for_browser.
    destruct (get "content" event) as [| |b|n|s|items|ps] eqn:Ec;
      cbn [truthy];
      [ | | destruct b | destruct (num_truthy n) | destruct s as [|c s] | | ];
      cbn [SSEChat.content_trim JS.trim JS.trimStart JS.trimEnd String.rev].
    8: { destruct (JS.trim (String c s)) as [|c' s'] eqn:Etrim; cbn [JS.nonempty];
         destruct (to_string _); destruct (in_flight selectedChatId _);
         intros H; inversion H; subst;
         cbn [SSEChat.sink SSEChat.on_sink SSEChat.setChats SSEChat.say
              voice browser_spoken];
         try rewrite Ec; destruct ttsMode;
         cbn [voice browser_spoken]; rewrite ?app_nil_r; split; reflexivity. }
    all: destruct (to_string _); destruct (in_flight selectedChatId _);
      intros H; inversion H; subst; destruct ttsMode; now apply Hsame. }
  rewrite for_browser_nil.
  destruct (SSEChat.is_type "audio" (get "type" event)) eqn:Ea.
  { cbn [andb onAudioEvent].
    destruct (truthy (get "audio_base64" event)); intros H; inversion H; subst;
      cbn [fold_left SSEChat.sink SSEChat.on_sink SSEChat.say voice browser_spoken];
      now rewrite app_nil_r. }
  cbn [andb fold_left].
  destruct (SSEChat.is_type "molecule" (get "type" event)).
  { intros H; inversion H; subst. now apply Hsame. }
  destruct (SSEChat.is_type "complete" (get "type" event)
            || SSEChat.is_type "done" (get "type" event)).
  { intros H; inversion H; subst. now apply Hsame. }
  destruct (SSEChat.is_type "error" (get "type" event)).
  { destruct (to_string (get "message" event)); intros H; inversion H; subst.
    now apply Hsame. }
  intros H; inversion H; subst. now apply Hsame.
Qed.

Lemma handle_all_feeds_hooks selectedChatId (events : list props) : forall w w',
  SSEChat.handle_all sinks (onAudioEvent atob voiceMuted) (onTextEvent ttsMode) selectedChatId
    events w = SSEChat.Ok w' ->
  voice (SSEChat.sink w')
  = fold_left (fun v a => StreamingVoice.playAudio atob voiceMuted a v) (audio_payloads events)
      (voice (SSEChat.sink w))
  /\ browser_spoken (SSEChat.sink w')
     = browser_spoken (SSEChat.sink w) ++ for_browser (spoken_contents events).
Proof.
  induction events as [|event rest IH]; intros w w' H; cbn [SSEChat.handle_all] in H.
  - inversion H; subst. cbn. rewrite for_browser_nil, app_nil_r.
    split; reflexivity.
  - destruct (SSEChat.handleSSEEvent sinks (onAudioEvent atob voiceMuted) (onTextEvent ttsMode)
                event selectedChatId w) as [w1|] eqn:E; [|discriminate].
    destruct (handle_feeds_hooks _ _ _ _ E) as [Hv Hb].
    destruct (IH _ _ H) as [Hv' Hb'].
    rewrite Hv', Hb', Hv, Hb.
    assert (Ea : audio_payloads (event :: rest)
                 = audio_payloads [event] ++ audio_payloads rest)
      by (unfold audio_payloads; cbn [flat_map]; now rewrite app_nil_r).
    assert (Es : spoken_contents (event :: rest)
                 = spoken_contents [event] ++ spoken_contents rest)
      by (unfold spoken_contents; cbn [flat_map]; now rewrite app_nil_r).
    rewrite Ea, Es, fold_left_app. split; [reflexivity|].
    unfold for_browser. destruct ttsMode; rewrite ?app_nil_r; [reflexivity|].
    now rewrite app_assoc.
Qed.

Lemma fold_playAudio_run (payloads : list jsval) : forall v,
  StreamingVoice.run atob v (map (StreamingVoice.PlayAudio voiceMuted) payloads)
  = Some (fold_left (fun v a => StreamingVoice.playAudio atob voiceMuted a v) payloads v).
Proof.
  induction payloads as [|a payloads IH]; intros v; [reflexivity|].
  cbn [map StreamingVoice.run StreamingVoice.step fold_left]. apply IH.
Qed.

Lemma fold_playAudio_inv (payloads : list jsval) : forall v,
  StreamingVoice.playback_inv v ->
  StreamingVoice.playback_inv
    (fold_left (fun v a => StreamingVoice.playAudio atob voiceMuted a v) payloads v).
Proof.
  induction payloads as [|a payloads IH]; intros v Hinv; [exact Hinv|].
  cbn [fold_left]. now apply IH, StreamingVoice.playback_inv_playAudio.
Qed.

(** The stream drives the speech hooks by its events, in their order.  When
    the frames of a stream have been dispatched (no handler raised an
    exception), the playback hook has received exactly one [playAudio] call
    (of the function the render of the send made) for each audio event that
    carries audio data, in stream order and in either mode, and nothing else; orderly playback stays orderly; and the
    browser speech hook has been handed, in browser mode, the content of each
    text event whose content is not blank, in stream order, and nothing in
    the other mode. *)
Theorem stream_feeds_speech_hooks (selectedChatId : Z) (frames : list string)
    (w w' : SSEChat.session sinks) :
  SSEChat.dispatch JSON_parse sinks (onAudioEvent atob voiceMuted) (onTextEvent ttsMode)
    selectedChatId frames w = SSEChat.Ok w' ->
  let events := SSEChat.parsed_events JSON_parse frames in
  StreamingVoice.run atob (voice (SSEChat.sink w))
    (map (StreamingVoice.PlayAudio voiceMuted) (audio_payloads events))
  = Some (voice (SSEChat.sink w'))
  /\ (StreamingVoice.playback_inv (voice (SSEChat.sink w)) ->
      StreamingVoice.playback_inv (voice (SSEChat.sink w')))
  /\ browser_spoken (SSEChat.sink w')
     = browser_spoken (SSEChat.sink w) ++ for_browser (spoken_contents events).
Proof.
  intros H events. rewrite SSEChat.dispatch_handle_all in H.
  destruct (handle_all_feeds_hooks _ _ _ _ H) as [Hv Hb].
  assert (Hrun : StreamingVoice.run atob (voice (SSEChat.sink w))
                   (map (StreamingVoice.PlayAudio voiceMuted) (audio_payloads events))
                 = Some (voice (SSEChat.sink w')))
    by (rewrite fold_playAudio_run; now rewrite Hv).
  split; [exact Hrun|]. split; [|exact Hb].
  intros Hinv. rewrite Hv. now apply fold_playAudio_inv.
Qed.

End Wiring.

Lemma stream_feeds_speech_hooks_witness :
  let frames :=
    [SSEChat.block ["event: text"; Json.q "data: {'content': ' a ring.'}"];
     SSEChat.block ["event: audio";
                    Json.q "data: {'audio_base64': 'Qw==', 'sentence_id': 1}"];
     SSEChat.block ["event: audio"; Json.q "data: {'audio_base64': ''}"];
     SSEChat.block ["event: text"; Json.q "data: {'content': '  '}"];
     SSEChat.block ["event: audio";
                    Json.q "data: {'audio_base64': 'RA==', 'sentence_id': 2}"]] in
  exists w',
    SSEChat.dispatch Json.parse sinks (onAudioEvent StreamingVoice.sample_atob false)
      (onTextEvent Browser) 1 frames shell_session = SSEChat.Ok w'
    /\ StreamingVoice.enqueued (voice (SSEChat.sink w'))
       = [StreamingVoice.mkClip 0 "QQ=="; StreamingVoice.mkClip 1 "Qg==";
          StreamingVoice.mkClip 2 "Qw=="; StreamingVoice.mkClip 3 "RA=="]
    /\ browser_spoken (SSEChat.sink w') = [" a ring."]
    /\ StreamingVoice.playback_inv (voice (SSEChat.sink w')).
Proof.
  intros frames. eexists. split; [vm_compute; reflexivity|].
  split; [reflexivity|]. split; [reflexivity|].
  match goal with
  | |- StreamingVoice.playback_inv (voice (SSEChat.sink ?w')) =>
      assert (Hd : SSEChat.dispatch Json.parse sinks
                     (onAudioEvent StreamingVoice.sample_atob false) (onTextEvent Browser)
                     1 frames shell_session = SSEChat.Ok w')
        by (vm_compute; reflexivity);
      destruct (stream_feeds_speech_hooks Json.parse StreamingVoice.sample_atob
                  false Browser 1 frames shell_session w' Hd) as (_ & Hinv & _)
  end.
  exact (Hinv sample_voice_inv).
Defined.

End AppShell.

(* ===================================================================== *)
(** * chat-ui/hooks/useChatStream.js *)
(* ===================================================================== *)

Module ChatStream.
Import JSV Chat Regex.

Definition quoted (s : string) : string :=
  String Json.dquote (s +:+ String Json.dquote "").

Definition fence : string := "```".

Definition not_rbrace (c : ascii) : bool := negb (Ascii.eqb c "}").
Definition not_lf (c : ascii) : bool := negb (JS.is_lf c).

(** The brace group of a tool block: an opening brace, the quoted word tool
    somewhere before the first closing brace, and that brace. *)
Definition tool_object : re :=
  seqs [Lit "{"; Star (Cls not_rbrace); Lit (quoted "tool");
        Star (Cls not_rbrace); Lit "}"].

(** The literal [toolRegex] of [processStreamChunk]: a fence, an optional
    json tag, white space, the brace group (captured), white space, a
    fence. *)
Definition toolRegex : re :=
  seqs [Lit fence; Opt (Lit "json"); Star (Cls JS.is_ws); Grp tool_object;
        Star (Cls JS.is_ws); Lit fence].

(** The literal of [buffer.matchAll] in [processStreamChunk]: the marker
    [EVENT] and, captured, a brace group running to the last closing brace of
    the line. *)
Definition eventRegex : re :=
  seqs [Lit "[EVENT]"; Grp (seqs [Lit "{"; Plus (Cls not_lf); Lit "}"])].

(** The two literals [sendMessage] strips from the visible text. *)
Definition stripToolRegex : re :=
  seqs [Lit fence; Opt (Lit "json"); Star (Cls JS.is_ws); tool_object;
        Star (Cls JS.is_ws); Lit fence].

Definition stripEventRegex : re :=
  seqs [Lit "[EVENT]"; Lit "{"; Plus (Cls not_lf); Lit "}";
        Opt (Lit (String JS.LF ""))].

(** The refs of the hook and the chats it updates. *)
Record state : Type := mkState {
  chats : list chat;
  seenToolMatches : gmap Z (gset string);
  lastProcessedLen : gmap Z nat
}.

Definition items_attachments (items : list jsval) : list attachment :=
  flat_map
    (fun it =>
       if truthy it && truthy (field "name" it)
       then [mkAttachment (field "name" it) (field "smiles" it)]
       else [])
    items.

(** What a parsed payload asks to attach: its items when it has an array of
    them, else itself when it has a name. *)
Definition payload_attachments (obj : jsval) : list attachment :=
  match field "items" obj with
  | JArr items => items_attachments items
  | _ =>
      if truthy (field "name" obj)
      then [mkAttachment (field "name" obj) (field "smiles" obj)]
      else []
  end.

Definition is_str (name : string) (v : jsval) : bool :=
  match v with JStr s => String.eqb s name | _ => false end.

Section Hook.

(** [JSON.parse], [None] when it throws. *)
Variable JSON_parse : string -> option jsval.

(** [JSON.parse(m[1])]. *)
Definition parse_group (m : rx_match) : option jsval :=
  match m_group m with
  | Some g => JSON_parse g
  | None => None
  end.

(** The body of the [while] loop over the matches of [toolRegex], on the seen
    sets and on [toAttach]. *)
Definition tool_step (selectedId : Z)
    (acc : gmap Z (gset string) * list attachment) (m : rx_match)
    : gmap Z (gset string) * list attachment :=
  let '(seen, toAttach) := acc in
  let seenSet := default ∅ (seen !! selectedId) in
  if bool_decide (m_full m ∈ seenSet) then acc
  else
    match parse_group m with
    | None => acc
    | Some obj =>
        if is_str "draw_molecule" (field "tool" obj) then
          (<[selectedId := seenSet ∪ {[m_full m]}]> seen,
           toAttach ++ payload_attachments obj)
        else acc
    end.

(** The body of the [for] loop over the matches of the event marker. *)
Definition event_step (selectedId : Z) (cs : list chat) (m : rx_match)
    : list chat :=
  match parse_group m with
  | None => cs
  | Some evt =>
      if is_str "molecule" (field "type" evt)
      then update_last selectedId (push_attachments (payload_attachments evt)) cs
      else cs
  end.

(** [processStreamChunk] on the matches of its two scans. *)
Definition scan_matches (tools events : list rx_match) (selectedId : Z)
    (st : state) : state :=
  let '(seen, toAttach) :=
    fold_left (tool_step selectedId) tools (seenToolMatches st, []) in
  let cs1 :=
    match toAttach with
    | [] => chats st
    | _ => update_last selectedId (push_attachments toAttach) (chats st)
    end in
  mkState (fold_left (event_step selectedId) events cs1) seen (lastProcessedLen st).

Definition processStreamChunk (buffer : string) (selectedId : Z) (st : state)
    : state :=
  scan_matches (match_all toolRegex buffer) (match_all eventRegex buffer)
    selectedId st.

(** One turn of the [while (!done)] loop of [sendMessage] on a decoded chunk:
    the text accumulated so far and the state, before and after. *)
Definition on_fragment (selectedChatId : Z) (acc : string * state) (chunk : string)
    : string * state :=
  let '(accumulated0, st) := acc in
  if negb (JS.nonempty chunk) then acc
  else
    let accumulated := accumulated0 +:+ chunk in
    let prevLen := default 0 (lastProcessedLen st !! selectedChatId) in
    let delta := JS.slice_from prevLen accumulated in
    let st1 :=
      mkState (chats st) (seenToolMatches st)
        (<[selectedChatId := String.length accumulated]> (lastProcessedLen st)) in
    let st2 := processStreamChunk accumulated selectedChatId st1 in
    if negb (JS.nonempty delta) then (accumulated, st2)
    else
      let displayDelta :=
        remove_all stripEventRegex (remove_all stripToolRegex delta) in
      if negb (JS.nonempty displayDelta) then (accumulated, st2)
      else
        (accumulated,
         mkState (update_last selectedChatId (append_text displayDelta) (chats st2))
           (seenToolMatches st2) (lastProcessedLen st2)).

(** The response read fragment by fragment. *)
Definition stream (selectedChatId : Z) (fragments : list string) (st : state)
    : string * state :=
  fold_left (on_fragment selectedChatId) fragments ("", st).

(** ** Facts *)

Definition parses (m : rx_match) : bool :=
  match parse_group m with Some _ => true | None => false end.

(** What the candidates of one scan contribute, in order. *)
Definition emitted_tools (selectedId : Z) (tools : list rx_match) (st : state)
    : list attachment :=
  snd (fold_left (tool_step selectedId) tools (seenToolMatches st, [])).

Definition emitted_events (events : list rx_match) : list attachment :=
  flat_map
    (fun m =>
       match parse_group m with
       | Some evt =>
           if is_str "molecule" (field "type" evt)
           then payload_attachments evt
           else []
       | None => []
       end)
    events.

Lemma tool_step_unparsed selectedId acc m :
  parse_group m = None -> tool_step selectedId acc m = acc.
Proof.
  intros H. unfold tool_step. destruct acc as [seen toAttach]. rewrite H.
  now destruct (bool_decide _).
Qed.

(** The fenced path records what it attaches and skips what it recorded: a
    block that was attached is not attached again, on this scan or a later
    one. *)
Lemma tool_step_seen selectedId seen toAttach m :
  m_full m ∈ default ∅ (seen !! selectedId) ->
  tool_step selectedId (seen, toAttach) m = (seen, toAttach).
Proof.
  intros H. unfold tool_step. now rewrite bool_decide_eq_true_2.
Qed.

Lemma tool_step_records selectedId seen toAttach m obj :
  m_full m ∉ default ∅ (seen !! selectedId) ->
  parse_group m = Some obj ->
  is_str "draw_molecule" (field "tool" obj) = true ->
  let '(seen', toAttach') := tool_step selectedId (seen, toAttach) m in
  toAttach' = toAttach ++ payload_attachments obj
  /\ m_full m ∈ default ∅ (seen' !! selectedId).
Proof.
  intros Hnew Hp Ht. unfold tool_step.
  rewrite bool_decide_eq_false_2 by exact Hnew.
  rewrite Hp, Ht. split; [reflexivity|].
  rewrite lookup_insert_eq. cbn. set_solver.
Qed.

Lemma event_step_unparsed selectedId cs m :
  parse_group m = None -> event_step selectedId cs m = cs.
Proof. intros H. unfold event_step. now rewrite H. Qed.

Lemma shown_events selectedId (events : list rx_match) : forall cs,
  map attachments_of (in_flight selectedId (fold_left (event_step selectedId) events cs))
  = map (fun old => old ++ emitted_events events)
      (map attachments_of (in_flight selectedId cs)).
Proof.
  induction events as [|m events IH]; intros cs.
  - cbn [fold_left emitted_events flat_map]. rewrite map_map.
    apply map_ext. intros l. now rewrite app_nil_r.
  - cbn [fold_left emitted_events flat_map]. rewrite IH.
    fold (emitted_events events).
    unfold event_step. destruct (parse_group m) as [evt|].
    + destruct (is_str "molecule" (field "type" evt)).
      * rewrite attachments_update_last, !map_map.
        apply map_ext. intros l. now rewrite app_assoc.
      * reflexivity.
    + reflexivity.
Qed.

(** What one scan attaches to the answer in flight. *)
Lemma scan_attaches buffer selectedId st :
  map attachments_of
    (in_flight selectedId (chats (processStreamChunk buffer selectedId st)))
  = map (fun old =>
           old ++ emitted_tools selectedId (match_all toolRegex buffer) st
               ++ emitted_events (match_all eventRegex buffer))
      (map attachments_of (in_flight selectedId (chats st))).
Proof.
  unfold processStreamChunk, scan_matches, emitted_tools.
  destruct (fold_left (tool_step selectedId) (match_all toolRegex buffer)
              (seenToolMatches st, [])) as [seen toAttach].
  cbn [chats snd]. rewrite shown_events.
  destruct toAttach as [|a toAttach].
  - reflexivity.
  - rewrite attachments_update_last, !map_map.
    apply map_ext. intros l. now rewrite app_assoc.
Qed.

(** The event path keeps no record: a second scan of the same buffer attaches
    what the event markers contribute a second time. *)
Lemma rescan_attaches_events_again buffer selectedId st :
  let st1 := processStreamChunk buffer selectedId st in
  map attachments_of
    (in_flight selectedId (chats (processStreamChunk buffer selectedId st1)))
  = map (fun old =>
           old ++ emitted_tools selectedId (match_all toolRegex buffer) st
               ++ emitted_events (match_all eventRegex buffer)
               ++ emitted_tools selectedId (match_all toolRegex buffer) st1
               ++ emitted_events (match_all eventRegex buffer))
      (map attachments_of (in_flight selectedId (chats st))).
Proof.
  intros st1. unfold st1. rewrite !scan_attaches, map_map.
  apply map_ext. intros l. now rewrite <- !app_assoc.
Qed.

(** The [try] and [catch] around the body of each loop.  A match whose group
    fails to parse is skipped: the scan ends in the state it would end in had
    the match not been among the matches of the regular expression, whatever
    the seen sets are, and every other match, before or after it, is handled
    as it would have been; what a scan attaches to the answer is what the
    matches that parse contribute, in the order of the buffer.  Which
    stretches of the buffer are matches is the business of the two regular
    expressions. *)
Lemma unparsed_match_is_skipped (selectedId : Z) (st : state) :
  (forall t1 bad t2 events,
     parse_group bad = None ->
     scan_matches (t1 ++ bad :: t2) events selectedId st
     = scan_matches (t1 ++ t2) events selectedId st)
  /\ (forall tools e1 bad e2,
        parse_group bad = None ->
        scan_matches tools (e1 ++ bad :: e2) selectedId st
        = scan_matches tools (e1 ++ e2) selectedId st
        /\ emitted_events (e1 ++ bad :: e2) = emitted_events e1 ++ emitted_events e2)
  /\ (forall buffer,
        map attachments_of
          (in_flight selectedId (chats (processStreamChunk buffer selectedId st)))
        = map (fun old =>
                 old ++ emitted_tools selectedId (match_all toolRegex buffer) st
                     ++ emitted_events (match_all eventRegex buffer))
            (map attachments_of (in_flight selectedId (chats st)))).
Proof.
  split; [|split].
  - intros t1 bad t2 events Hbad. unfold scan_matches.
    rewrite !fold_left_app. cbn [fold_left].
    now rewrite (tool_step_unparsed _ _ _ Hbad).
  - intros tools e1 bad e2 Hbad. split.
    + unfold scan_matches.
      destruct (fold_left (tool_step selectedId) tools (seenToolMatches st, []))
        as [seen toAttach].
      rewrite !fold_left_app. cbn [fold_left].
      now rewrite (event_step_unparsed _ _ _ Hbad).
    + unfold emitted_events. rewrite !flat_map_app. cbn [flat_map].
      now rewrite Hbad.
  - intros buffer. apply scan_attaches.
Qed.

End Hook.

(** A chat whose answer has just been created by [sendMessage]. *)
Definition fresh_chats : list chat :=
  [mkChat 1 "New Chat" 0
     [mkMessage 10 "user" "Draw water" None;
      mkMessage 11 "assistant" "" None]].

Definition fresh : state := mkState fresh_chats ∅ ∅.

(** The attachments and the text of the answer in flight. *)
Definition shown_attachments (selectedChatId : Z) (st : state) : list (list attachment) :=
  map attachments_of (in_flight selectedChatId (chats st)).

Definition shown_text (selectedChatId : Z) (st : state) : list string :=
  map msg_text (in_flight selectedChatId (chats st)).

(** ** Sample runs *)

Definition water : attachment := mkAttachment (JStr "water") (JStr "O").

(** C2, the code at the failing input: an event marker that arrived whole in
    the first fragment is attached once by the scan that follows it, and once
    more by the scan that follows the next fragment. *)
Theorem event_marker_attached_on_every_scan :
  let marker := Json.q "[EVENT]{'type':'molecule','name':'water','smiles':'O'}" in
  shown_attachments 1 (snd (stream Json.parse 1 [marker] fresh)) = [[water]]
  /\ shown_attachments 1 (snd (stream Json.parse 1 [marker; " Water is polar."] fresh))
     = [[water; water]].
Proof. split; vm_compute; reflexivity. Qed.

(** The fenced path of the same scan: the block is attached once, however
    many scans see it. *)
Example fenced_block_attached_once :
  let block := Json.q "```json {'tool':'draw_molecule','name':'water','smiles':'O'} ```" in
  shown_attachments 1 (snd (stream Json.parse 1 [block; " Water"; " is polar."] fresh))
  = [[water]].
Proof. vm_compute. reflexivity. Qed.

(** ** C7 *)

(** C7, the code at the failing inputs.  A candidate that fails to parse is
    not isolated from what follows it, and it is not kept from the visible
    text.

    - An event marker by itself is detected.  After a malformed marker on the
      same line it is not: the brace group of the regular expression runs to
      the last closing brace of the line, the two markers are one candidate,
      it fails to parse and nothing is attached.  On a line of its own the
      second marker is detected.
    - A fenced block by itself is detected.  After a fenced block whose
      object is not closed it is not: the candidate runs from the first fence
      to the closing fence of the second block, it fails to parse and nothing
      is attached.
    - A fenced candidate that fails to parse and reached the client in two
      fragments is stripped from neither fragment: both halves are appended
      to the visible text. *)
Theorem malformed_payload_is_not_isolated :
  let marker := Json.q "[EVENT]{'type':'molecule','name':'water','smiles':'O'}" in
  let block := Json.q "```json {'tool':'draw_molecule','name':'water','smiles':'O'} ```" in
  let same_line := "[EVENT]{oops} and " +:+ marker in
  let two_lines := "[EVENT]{oops}" +:+ String JS.LF marker in
  let unclosed := Json.q "```json {'tool':'draw_molecule','name':'ethanol' " +:+ block in
  let halves := [Json.q "```{'tool': "; "oops}```"] in
  (shown_attachments 1 (snd (stream Json.parse 1 [marker] fresh)) = [[water]]
   /\ map m_group (match_all eventRegex same_line) = [Some ("{oops} and " +:+ marker)]
   /\ Json.parse ("{oops} and " +:+ marker) = None
   /\ shown_attachments 1 (snd (stream Json.parse 1 [same_line] fresh)) = [[]]
   /\ shown_attachments 1 (snd (stream Json.parse 1 [two_lines] fresh)) = [[water]])
  /\ (shown_attachments 1 (snd (stream Json.parse 1 [block] fresh)) = [[water]]
      /\ map m_full (match_all toolRegex unclosed) = [unclosed]
      /\ map (fun m => parses Json.parse m) (match_all toolRegex unclosed) = [false]
      /\ shown_attachments 1 (snd (stream Json.parse 1 [unclosed] fresh)) = [[]])
  /\ (map m_group (match_all toolRegex (JS.concat_all halves))
      = [Some (Json.q "{'tool': oops}")]
      /\ Json.parse (Json.q "{'tool': oops}") = None
      /\ shown_attachments 1 (snd (stream Json.parse 1 halves fresh)) = [[]]
      /\ shown_text 1 (snd (stream Json.parse 1 halves fresh)) = [JS.concat_all halves]).
Proof.
  intros marker block same_line two_lines unclosed halves.
  split; [|split]; repeat split; vm_compute; reflexivity.
Qed.

(** ** The seen set, and the visible text *)

(** The seen set of a chat: [seenToolMatchesRef.current.get(id) || new Set()]. *)
Definition seen_of (selectedId : Z) (st : state) : gset string :=
  default ∅ (seenToolMatches st !! selectedId).

(** What [sendMessage] makes of a delta before it shows it. *)
Definition displayDelta (delta : string) : string :=
  remove_all stripEventRegex (remove_all stripToolRegex delta).

(** The fragments that are not empty: [if (!chunk) continue]. *)
Definition received (fragments : list string) : list string :=
  List.filter JS.nonempty fragments.


Section Display.

Variable JSON_parse : string -> option jsval.

(** *** Regular expressions that start with a literal *)





(** *** The scan leaves the text and the offsets alone *)

Lemma text_update_last_push selectedId (a : list attachment) cs :
  map msg_text (in_flight selectedId (update_last selectedId (push_attachments a) cs))
  = map msg_text (in_flight selectedId cs).
Proof.
  rewrite in_flight_update_last by reflexivity.
  rewrite map_map. now apply map_ext.
Qed.

Lemma text_events selectedId (events : list rx_match) : forall cs,
  map msg_text (in_flight selectedId (fold_left (event_step JSON_parse selectedId) events cs))
  = map msg_text (in_flight selectedId cs).
Proof.
  induction events as [|m events IH]; intros cs; [reflexivity|].
  cbn [fold_left]. rewrite IH. unfold event_step.
  destruct (parse_group JSON_parse m) as [evt|]; [|reflexivity].
  destruct (is_str "molecule" (field "type" evt)); [|reflexivity].
  apply text_update_last_push.
Qed.

Lemma scan_keeps_text buffer selectedId st :
  map msg_text (in_flight selectedId (chats (processStreamChunk JSON_parse buffer selectedId st)))
  = map msg_text (in_flight selectedId (chats st))
  /\ lastProcessedLen (processStreamChunk JSON_parse buffer selectedId st)
     = lastProcessedLen st.
Proof.
  unfold processStreamChunk, scan_matches.
  destruct (fold_left (tool_step JSON_parse selectedId) (match_all toolRegex buffer)
              (seenToolMatches st, [])) as [seen toAttach].
  cbn [chats lastProcessedLen]. split; [|reflexivity].
  rewrite text_events.
  destruct toAttach; [reflexivity | apply text_update_last_push].
Qed.

Lemma text_update_last_append selectedId (t : string) cs :
  map msg_text (in_flight selectedId (update_last selectedId (append_text t) cs))
  = map (fun x => x +:+ t) (map msg_text (in_flight selectedId cs)).
Proof.
  rewrite in_flight_update_last by reflexivity.
  rewrite !map_map. now apply map_ext.
Qed.

Lemma map_append_empty (l : list string) : map (fun x => x +:+ "") l = l.
Proof.
  induction l as [|x l IH]; [reflexivity|].
  cbn [map]. now rewrite JSFacts.app_empty_r, IH.
Qed.

Lemma slice_from_length (a b : string) :
  JS.slice_from (String.length a) (a +:+ b) = b.
Proof. induction a as [|c a IH]; [now destruct b | exact IH]. Qed.

(** One turn of the loop on a fragment that is not empty: what it shows and
    the offset it leaves. *)
Lemma on_fragment_shows selectedChatId accumulated st chunk :
  JS.nonempty chunk = true ->
  let prevLen := default 0 (lastProcessedLen st !! selectedChatId) in
  let '(accumulated', st') := on_fragment JSON_parse selectedChatId (accumulated, st) chunk in
  accumulated' = accumulated +:+ chunk
  /\ lastProcessedLen st' !! selectedChatId = Some (String.length (accumulated +:+ chunk))
  /\ map msg_text (in_flight selectedChatId (chats st'))
     = map (fun x => x +:+ displayDelta (JS.slice_from prevLen (accumulated +:+ chunk)))
         (map msg_text (in_flight selectedChatId (chats st))).
Proof.
  intros Hc prevLen. unfold on_fragment. rewrite Hc. cbn [negb].
  fold prevLen.
  set (st1 := mkState (chats st) (seenToolMatches st)
                (<[selectedChatId := String.length (accumulated +:+ chunk)]>
                   (lastProcessedLen st))).
  destruct (scan_keeps_text (accumulated +:+ chunk) selectedChatId st1) as [Ht Hl].
  cbn [chats lastProcessedLen st1] in Ht, Hl.
  fold (displayDelta (JS.slice_from prevLen (accumulated +:+ chunk))).
  destruct (JS.slice_from prevLen (accumulated +:+ chunk)) as [|d delta] eqn:Ed.
  - cbn [JS.nonempty negb]. split; [reflexivity|]. split.
    + rewrite Hl. apply lookup_insert_eq.
    + rewrite Ht. change (displayDelta "") with "". now rewrite map_append_empty.
  - cbn [JS.nonempty negb].
    destruct (displayDelta (String d delta)) as [|x shown] eqn:Es.
    + cbn [JS.nonempty negb]. split; [reflexivity|]. split.
      * rewrite Hl. apply lookup_insert_eq.
      * rewrite Ht. now rewrite map_append_empty.
    + cbn [JS.nonempty negb]. split; [reflexivity|]. split.
      * cbn [lastProcessedLen]. rewrite Hl. apply lookup_insert_eq.
      * cbn [chats]. rewrite text_update_last_append. now rewrite Ht.
Qed.

Lemma on_fragment_empty selectedChatId acc chunk :
  JS.nonempty chunk = false -> on_fragment JSON_parse selectedChatId acc chunk = acc.
Proof. intros H. unfold on_fragment. destruct acc. now rewrite H. Qed.

(** The turns that follow the first: the offset is the length of what has
    accumulated, so each delta is the fragment itself. *)
Lemma later_fragments_show selectedChatId (fragments : list string) :
  forall accumulated st,
  lastProcessedLen st !! selectedChatId = Some (String.length accumulated) ->
  let '(accumulated', st') :=
    fold_left (on_fragment JSON_parse selectedChatId) fragments (accumulated, st) in
  accumulated' = accumulated +:+ JS.concat_all fragments
  /\ lastProcessedLen st' !! selectedChatId = Some (String.length accumulated')
  /\ map msg_text (in_flight selectedChatId (chats st'))
     = map (fun x => x +:+ JS.concat_all (map displayDelta (received fragments)))
         (map msg_text (in_flight selectedChatId (chats st))).
Proof.
  induction fragments as [|chunk rest IH]; intros accumulated st Hlen.
  - cbn [fold_left JS.concat_all received List.filter map].
    rewrite JSFacts.app_empty_r, map_append_empty. auto.
  - cbn [fold_left received List.filter].
    destruct (JS.nonempty chunk) eqn:Hc.
    + pose proof (on_fragment_shows selectedChatId accumulated st chunk Hc) as H.
      cbn zeta in H. rewrite Hlen in H. cbn [from_option id] in H.
      rewrite slice_from_length in H.
      destruct (on_fragment JSON_parse selectedChatId (accumulated, st) chunk)
        as [acc1 st1].
      destruct H as (-> & Hl1 & Ht1).
      specialize (IH (accumulated +:+ chunk) st1 Hl1).
      destruct (fold_left (on_fragment JSON_parse selectedChatId) rest
                  (accumulated +:+ chunk, st1)) as [acc2 st2].
      destruct IH as (-> & Hl2 & Ht2).
      split; [|split; [exact Hl2|]].
      * cbn [JS.concat_all]. now rewrite JSFacts.app_assoc_s.
      * rewrite Ht2, Ht1, map_map. cbn [map JS.concat_all].
        apply map_ext. intros x. now rewrite JSFacts.app_assoc_s.
    + rewrite (on_fragment_empty _ _ _ Hc).
      destruct chunk; [|discriminate].
      specialize (IH accumulated st Hlen).
      destruct (fold_left (on_fragment JSON_parse selectedChatId) rest (accumulated, st))
        as [acc2 st2].
      exact IH.
Qed.

(** A response, from its first fragment that is not empty. *)
Lemma stream_shows selectedChatId (first : string) (rest : list string) (st : state) :
  JS.nonempty first = true ->
  let offset := default 0 (lastProcessedLen st !! selectedChatId) in
  let st' := snd (stream JSON_parse selectedChatId (first :: rest) st) in
  shown_text selectedChatId st'
  = map (fun x =>
           x +:+ displayDelta (JS.slice_from offset first)
             +:+ JS.concat_all (map displayDelta (received rest)))
      (shown_text selectedChatId st)
  /\ lastProcessedLen st' !! selectedChatId
     = Some (String.length (JS.concat_all (first :: rest))).
Proof.
  intros Hf offset st'. unfold st', stream, shown_text.
  cbn [fold_left].
  pose proof (on_fragment_shows selectedChatId "" st first Hf) as H.
  cbn zeta in H. fold offset in H.
  change ("" +:+ first) with first in H.
  destruct (on_fragment JSON_parse selectedChatId ("", st) first) as [acc1 st1].
  destruct H as (-> & Hl1 & Ht1).
  pose proof (later_fragments_show selectedChatId rest first st1 Hl1) as H.
  destruct (fold_left (on_fragment JSON_parse selectedChatId) rest (first, st1))
    as [acc2 st2].
  destruct H as (-> & Hl2 & Ht2). cbn [snd].
  split; [|exact Hl2].
  rewrite Ht2, Ht1, map_map. apply map_ext. intros x.
  now rewrite JSFacts.app_assoc_s.
Qed.



(** The offset outlives the response.  The hook never resets the length it
    recorded for a chat, and the next response starts accumulating from
    nothing: so in a chat that has streamed an answer, the first fragment of
    the next answer is shown only from the length of the previous response
    on - nothing of it when it is not longer than that - while the fragments
    after it are shown in full. *)
Theorem next_answer_loses_its_beginning (selectedChatId : Z)
    (previous : list string) (first : string) (rest : list string)
    (st : state) (next_chats : list chat) :
  JS.nonempty (JS.concat_all previous) = true ->
  JS.nonempty first = true ->
  lastProcessedLen st !! selectedChatId = None ->
  let st1 := snd (stream JSON_parse selectedChatId previous st) in
  let st2 := mkState next_chats (seenToolMatches st1) (lastProcessedLen st1) in
  let st3 := snd (stream JSON_parse selectedChatId (first :: rest) st2) in
  shown_text selectedChatId st3
  = map (fun x =>
           x +:+ displayDelta
                   (JS.slice_from (String.length (JS.concat_all previous)) first)
             +:+ JS.concat_all (map displayDelta (received rest)))
      (shown_text selectedChatId st2)
  /\ (String.length first <= String.length (JS.concat_all previous) ->
      shown_text selectedChatId st3
      = map (fun x => x +:+ JS.concat_all (map displayDelta (received rest)))
          (shown_text selectedChatId st2)).
Proof.
  intros Hprev Hf Hnone st1 st2 st3.
  assert (Hoff : lastProcessedLen st1 !! selectedChatId
                 = Some (String.length (JS.concat_all previous))).
  { unfold st1. clear -Hprev Hnone.
    revert st Hnone. induction previous as [|f prev IH]; intros st Hnone;
      [discriminate|].
    destruct (JS.nonempty f) eqn:Ef.
    - now destruct (stream_shows selectedChatId f prev st Ef) as (_ & Hl).
    - destruct f; [|discriminate]. unfold stream. cbn [fold_left].
      rewrite on_fragment_empty by reflexivity.
      apply IH; assumption. }
  destruct (stream_shows selectedChatId first rest st2 Hf) as (Hshown & _).
  cbn [lastProcessedLen st2] in Hshown. rewrite Hoff in Hshown.
  cbn [from_option id] in Hshown.
  split; [exact Hshown|].
  intros Hshort. fold st3 in Hshown. rewrite Hshown.
  assert (Hcut : JS.slice_from (String.length (JS.concat_all previous)) first = "").
  { clear -Hshort. revert Hshort. generalize (String.length (JS.concat_all previous)).
    induction first as [|c first IH]; intros n Hn; [now destruct n|].
    destruct n as [|n]; [cbn in Hn; lia|].
    cbn [JS.slice_from]. apply IH. cbn in Hn. lia. }
  rewrite Hcut. change (displayDelta "") with "".
  apply map_ext. intros x. reflexivity.
Qed.

(** *** The seen set *)

Lemma tool_step_seen_grows selectedId acc m x :
  x ∈ default ∅ (fst acc !! selectedId) ->
  x ∈ default ∅ (fst (tool_step JSON_parse selectedId acc m) !! selectedId).
Proof.
  intros H. unfold tool_step. destruct acc as [seen toAttach]. cbn [fst] in *.
  destruct (bool_decide _); [exact H|].
  destruct (parse_group JSON_parse m) as [obj|]; [|exact H].
  destruct (is_str "draw_molecule" (field "tool" obj)); [|exact H].
  cbn [fst]. rewrite lookup_insert_eq. cbn. set_solver.
Qed.

Lemma tools_seen_grow selectedId (tools : list rx_match) : forall acc x,
  x ∈ default ∅ (fst acc !! selectedId) ->
  x ∈ default ∅ (fst (fold_left (tool_step JSON_parse selectedId) tools acc) !! selectedId).
Proof.
  induction tools as [|m tools IH]; intros acc x H; [exact H|].
  cbn [fold_left]. apply IH. now apply tool_step_seen_grows.
Qed.

(** A match that a scan has gone over is settled: it is in the seen set, or
    it does not parse, or it is not a [draw_molecule] block. *)
Definition settled_match (selectedId : Z) (seen : gmap Z (gset string))
    (m : rx_match) : Prop :=
  m_full m ∈ default ∅ (seen !! selectedId)
  \/ match parse_group JSON_parse m with
     | None => True
     | Some obj => is_str "draw_molecule" (field "tool" obj) = false
     end.

Lemma tools_settle selectedId (tools : list rx_match) : forall acc,
  Forall (settled_match selectedId
            (fst (fold_left (tool_step JSON_parse selectedId) tools acc)))
    tools.
Proof.
  induction tools as [|m tools IH]; intros acc; [constructor|].
  cbn [fold_left]. constructor; [|apply IH].
  assert (H : settled_match selectedId (fst (tool_step JSON_parse selectedId acc m)) m).
  { unfold settled_match, tool_step. destruct acc as [seen toAttach].
    destruct (bool_decide (m_full m ∈ default ∅ (seen !! selectedId))) eqn:E.
    - left. cbn [fst]. now apply bool_decide_eq_true_1 in E.
    - destruct (parse_group JSON_parse m) as [obj|]; [|now right].
      destruct (is_str "draw_molecule" (field "tool" obj)) eqn:Et; [|now right].
      left. cbn [fst]. rewrite lookup_insert_eq. cbn. set_solver. }
  destruct H as [H|H]; [left | now right].
  now apply tools_seen_grow.
Qed.

Lemma settled_tools_emit_nothing selectedId (tools : list rx_match) :
  forall seen toAttach,
  Forall (settled_match selectedId seen) tools ->
  fold_left (tool_step JSON_parse selectedId) tools (seen, toAttach) = (seen, toAttach).
Proof.
  induction tools as [|m tools IH]; intros seen toAttach H; [reflexivity|].
  inversion H as [|? ? Hm Hrest]; subst. cbn [fold_left].
  assert (E : tool_step JSON_parse selectedId (seen, toAttach) m = (seen, toAttach)).
  { destruct Hm as [Hm|Hm]; [now apply tool_step_seen|].
    unfold tool_step. destruct (bool_decide _); [reflexivity|].
    destruct (parse_group JSON_parse m) as [obj|]; [|reflexivity].
    now rewrite Hm. }
  rewrite E. now apply IH.
Qed.

Lemma seen_after_scan buffer selectedId st :
  seenToolMatches (processStreamChunk JSON_parse buffer selectedId st)
  = fst (fold_left (tool_step JSON_parse selectedId) (match_all toolRegex buffer)
           (seenToolMatches st, [])).
Proof.
  unfold processStreamChunk, scan_matches.
  now destruct (fold_left (tool_step JSON_parse selectedId) (match_all toolRegex buffer)
                  (seenToolMatches st, [])).
Qed.

(** A fenced block is attached once.  The seen set of a chat only grows;
    after a scan every fenced block of the buffer that asked for a drawing is
    in it; a scan attaches nothing for blocks whose text is in the seen set:
    so scanning the same buffer again attaches no fenced block a second time
    (and leaves the seen sets as they are), however often the buffer is
    scanned. *)
Theorem fenced_block_is_attached_once (buffer : string) (selectedId : Z) (st : state) :
  let st1 := processStreamChunk JSON_parse buffer selectedId st in
  (forall x, x ∈ seen_of selectedId st -> x ∈ seen_of selectedId st1)
  /\ (forall m obj,
        In m (match_all toolRegex buffer) ->
        parse_group JSON_parse m = Some obj ->
        is_str "draw_molecule" (field "tool" obj) = true ->
        m_full m ∈ seen_of selectedId st1)
  /\ (forall tools st2,
        (forall m, In m tools -> m_full m ∈ seen_of selectedId st2) ->
        emitted_tools JSON_parse selectedId tools st2 = [])
  /\ emitted_tools JSON_parse selectedId (match_all toolRegex buffer) st1 = []
  /\ seenToolMatches (processStreamChunk JSON_parse buffer selectedId st1)
     = seenToolMatches st1.
Proof.
  intros st1. unfold seen_of, st1.
  pose proof (tools_settle selectedId (match_all toolRegex buffer)
                (seenToolMatches st, [])) as Hsettled.
  rewrite <- seen_after_scan in Hsettled.
  split; [|split; [|split; [|split]]].
  - intros x Hx. rewrite seen_after_scan. now apply tools_seen_grow.
  - intros m obj Hin Hp Ht.
    rewrite List.Forall_forall in Hsettled.
    destruct (Hsettled m Hin) as [H|H]; [exact H|].
    rewrite Hp in H. congruence.
  - intros tools st2 H. unfold emitted_tools.
    rewrite settled_tools_emit_nothing; [reflexivity|].
    apply List.Forall_forall. intros m Hm. left. now apply H.
  - unfold emitted_tools. now rewrite settled_tools_emit_nothing.
  - rewrite seen_after_scan. now rewrite settled_tools_emit_nothing.
Qed.

End Display.

(** ** More sample runs *)


Lemma next_answer_loses_its_beginning_witness :
  let previous := ["Water is "; "polar."] in
  let st1 := snd (stream Json.parse 1 previous fresh) in
  let asked :=
    [mkChat 1 "New Chat" 0
       [mkMessage 10 "user" "Draw water" None;
        mkMessage 11 "assistant" "Water is polar." None;
        mkMessage 12 "user" "And ice?" None;
        mkMessage 13 "assistant" "" None]] in
  let st2 := mkState asked (seenToolMatches st1) (lastProcessedLen st1) in
  shown_text 1 (snd (stream Json.parse 1 ["Ice is "; "solid water."] st2))
  = ["solid water."].
Proof.
  intros previous st1 asked st2.
  destruct (next_answer_loses_its_beginning Json.parse 1 previous "Ice is "
              ["solid water."] fresh asked eq_refl eq_refl eq_refl) as [_ H].
  etransitivity; [apply H; vm_compute; lia | vm_compute; reflexivity].
Defined.

End ChatStream.

(* ===================================================================== *)
(** * useBrowserTTS: the speech queue of the browser fallback *)
(* ===================================================================== *)

Module BrowserTTS.

(** A [SpeechSynthesisUtterance]; utterances are told apart by the order of
    their creation. *)
Record utterance : Type := mkUtterance {
  utt_id : nat;
  utt_text : string
}.

(** The hook and the speech engine of the browser.

    - [isSpeaking], [isMuted], [isAvailable]: the React state;
    - [queue], [utteranceRef], [isProcessing]: [queueRef.current],
      [utteranceRef.current], [isProcessingRef.current];
    - [engine]: the utterances handed to [speechSynthesis.speak] that have
      neither finished nor been cancelled;
    - [pending]: the pending [setTimeout] callbacks (100 ms);
    - [made]: the number of utterances created so far;
    - [accepted], [spoken]: the history of [queueRef.current.push] and of
      [speechSynthesis.speak], oldest first;
    - [cut_short]: the utterances a [speechSynthesis.cancel()] removed from
      the engine; such an utterance is taken to deliver no callback any
      more. *)
Record speech : Type := mkSpeech {
  isSpeaking : bool;
  isMuted : bool;
  isAvailable : bool;
  queue : list string;
  utteranceRef : option utterance;
  isProcessing : bool;
  engine : list utterance;
  pending : nat;
  made : nat;
  accepted : list string;
  spoken : list utterance;
  cut_short : list utterance
}.

(** The hook once its mount effect has run. *)
Definition mounted (avail : bool) : speech :=
  mkSpeech false false avail [] None false [] 0 0 [] [] [].

Definition is_utt (i : nat) (u : utterance) : bool := Nat.eqb (utt_id u) i.

(** [processQueue]: the engine is not taken to throw, so the [catch] block
    is not entered. *)
Definition processQueue (w : speech) : speech :=
  if isProcessing w then w
  else
    match queue w with
    | [] => w
    | text :: rest =>
        let utterance := mkUtterance (made w) text in
        mkSpeech (isSpeaking w) (isMuted w) (isAvailable w) rest (Some utterance)
          true [utterance] (pending w) (S (made w)) (accepted w)
          (spoken w ++ [utterance]) (cut_short w ++ engine w)
    end.

(** [speakText(text)] for a string. *)
Definition speakText (text : string) (w : speech) : speech :=
  if negb (isAvailable w) || isMuted w || negb (JS.nonempty (JS.trim text)) then w
  else
    let w1 :=
      mkSpeech (isSpeaking w) (isMuted w) (isAvailable w)
        (queue w ++ [JS.trim text]) (utteranceRef w) (isProcessing w) (engine w)
        (pending w) (made w) (accepted w ++ [JS.trim text]) (spoken w)
        (cut_short w) in
    if isProcessing w1 then w1 else processQueue w1.

(** [utterance.onstart]. *)
Definition utt_started (w : speech) : speech :=
  mkSpeech true (isMuted w) (isAvailable w) (queue w) (utteranceRef w)
    (isProcessing w) (engine w) (pending w) (made w) (accepted w) (spoken w)
    (cut_short w).

(** [utterance.onend] and [utterance.onerror] do the same. *)
Definition utt_done (i : nat) (w : speech) : speech :=
  mkSpeech false (isMuted w) (isAvailable w) (queue w) None (isProcessing w)
    (List.filter (fun u => negb (is_utt i u)) (engine w)) (S (pending w))
    (made w) (accepted w) (spoken w) (cut_short w).

(** The callback of [setTimeout]:
    [isProcessingRef.current = false; processQueue()]. *)
Definition timer_fired (w : speech) : speech :=
  processQueue
    (mkSpeech (isSpeaking w) (isMuted w) (isAvailable w) (queue w)
       (utteranceRef w) false (engine w) (pending w - 1) (made w) (accepted w)
       (spoken w) (cut_short w)).

Definition stopSpeaking (w : speech) : speech :=
  if isMuted w then
    mkSpeech (isSpeaking w) false (isAvailable w) (queue w) (utteranceRef w)
      (isProcessing w) (engine w) (pending w) (made w) (accepted w) (spoken w)
      (cut_short w)
  else
    mkSpeech false true (isAvailable w) [] None false [] (pending w) (made w)
      (accepted w) (spoken w) (cut_short w ++ engine w).

Definition setIsMuted (b : bool) (w : speech) : speech :=
  mkSpeech (isSpeaking w) b (isAvailable w) (queue w) (utteranceRef w)
    (isProcessing w) (engine w) (pending w) (made w) (accepted w) (spoken w)
    (cut_short w).

(** Calls of the exported functions, and the callbacks the browser
    delivers. *)
Inductive event : Type :=
| SpeakText (text : string)
| UttStart (i : nat)
| UttEnd (i : nat)
| UttError (i : nat)
| TimerFired
| StopSpeaking
| SetIsMuted (b : bool).

(** One event; [None] when the browser cannot deliver it: an utterance
    callback needs the utterance to be with the engine, which lets an
    utterance go once, by [end] or by [error]; a timer callback needs a
    pending timer. *)
Definition step (w : speech) (e : event) : option speech :=
  match e with
  | SpeakText text => Some (speakText text w)
  | UttStart i =>
      if existsb (is_utt i) (engine w) then Some (utt_started w) else None
  | UttEnd i | UttError i =>
      if existsb (is_utt i) (engine w) then Some (utt_done i w) else None
  | TimerFired =>
      match pending w with
      | O => None
      | S _ => Some (timer_fired w)
      end
  | StopSpeaking => Some (stopSpeaking w)
  | SetIsMuted b => Some (setIsMuted b w)
  end.

Fixpoint run (w : speech) (es : list event) : option speech :=
  match es with
  | [] => Some w
  | e :: rest =>
      match step w e with
      | Some w' => run w' rest
      | None => None
      end
  end.

Definition is_stop (e : event) : bool :=
  match e with StopSpeaking => true | _ => false end.

Definition speech_only (es : list event) : bool :=
  forallb (fun e => negb (is_stop e)) es.

(** The callbacks by which the utterances numbered from [i] on come to their
    end one after the other, each by [end] ([true]) or by [error], and each
    followed by its timer. *)
Fixpoint speak_out (i : nat) (ends : list bool) : list event :=
  match ends with
  | [] => []
  | ended :: rest =>
      (if ended then UttEnd i else UttError i) :: TimerFired :: speak_out (S i) rest
  end.

(** The invariant of speech without [stopSpeaking]: while the queue is being
    processed exactly one of an utterance with the engine and a pending timer
    exists; an idle hook has an empty queue; [utteranceRef] is the utterance
    with the engine, and it is the last one made; the texts spoken are the
    texts accepted minus those still queued; no text accepted is empty; and
    no [cancel()] ever removed an utterance. *)
Definition speech_inv (w : speech) : Prop :=
  length (engine w) + pending w = (if isProcessing w then 1 else 0)
  /\ (isProcessing w = false -> queue w = [])
  /\ engine w = match utteranceRef w with Some u => [u] | None => [] end
  /\ (forall u, utteranceRef w = Some u -> S (utt_id u) = made w)
  /\ accepted w = map utt_text (spoken w) ++ queue w
  /\ Forall (fun t => JS.nonempty t = true) (accepted w)
  /\ cut_short w = [].

(** ** Facts *)

Lemma speech_inv_mounted avail : speech_inv (mounted avail).
Proof. repeat split; try constructor. discriminate. Qed.

Lemma speech_inv_speakText text w : speech_inv w -> speech_inv (speakText text w).
Proof.
  intros H. unfold speakText.
  destruct (negb (isAvailable w) || isMuted w || negb (JS.nonempty (JS.trim text))) eqn:E;
    [exact H|].
  apply orb_false_iff in E as [_ E]. apply negb_false_iff in E.
  destruct w as [sp mu av q ref pr eng tm md acc spk cut].
  unfold speech_inv, processQueue in *; cbn in *.
  destruct H as (Hcount & Hidle & Hcur & Hmade & Hfifo & Hne & Hcut).
  assert (Hne' : Forall (fun t => JS.nonempty t = true) (acc ++ [JS.trim text])).
  { apply Forall_app. split; [exact Hne|]. now repeat constructor. }
  destruct pr; cbn.
  - repeat split; auto; try discriminate.
    rewrite Hfifo. now rewrite app_assoc.
  - specialize (Hidle eq_refl). subst q. cbn.
    destruct eng as [|x eng]; cbn in Hcount; [|lia].
    assert (tm = 0) by lia. subst tm.
    destruct ref; [discriminate|].
    repeat split; auto; try discriminate.
    + intros u [= <-]. reflexivity.
    + rewrite Hfifo. rewrite map_app. cbn. now rewrite !app_nil_r.
    + now rewrite app_nil_r.
Qed.

Lemma speech_inv_utt_started w : speech_inv w -> speech_inv (utt_started w).
Proof. destruct w. unfold speech_inv, utt_started. cbn. auto. Qed.

Lemma speech_inv_utt_done i w :
  speech_inv w -> existsb (is_utt i) (engine w) = true -> speech_inv (utt_done i w).
Proof.
  destruct w as [sp mu av q ref pr eng tm md acc spk cut].
  unfold speech_inv, utt_done; cbn.
  intros (Hcount & Hidle & Hcur & Hmade & Hfifo & Hne & Hcut) Hin.
  destruct eng as [|x eng]; [discriminate|].
  destruct pr; cbn in Hcount; [|lia].
  destruct eng; cbn in Hcount; [|lia].
  assert (tm = 0) by lia. subst tm.
  cbn in Hin. rewrite orb_false_r in Hin. cbn. rewrite Hin. cbn.
  repeat split; auto. discriminate.
Qed.

Lemma speech_inv_timer w : speech_inv w -> pending w <> 0 -> speech_inv (timer_fired w).
Proof.
  destruct w as [sp mu av q ref pr eng tm md acc spk cut].
  unfold speech_inv, timer_fired, processQueue; cbn.
  intros (Hcount & Hidle & Hcur & Hmade & Hfifo & Hne & Hcut) Htm.
  destruct pr; cbn in Hcount; [|lia].
  destruct eng; cbn in Hcount; [|lia].
  assert (tm = 1) by lia. subst tm.
  destruct ref; [discriminate|].
  destruct q as [|text q]; cbn.
  - repeat split; auto.
  - repeat split; auto; try discriminate.
    + intros u [= <-]. reflexivity.
    + rewrite Hfifo. rewrite map_app. cbn. now rewrite <- app_assoc.
    + now rewrite app_nil_r.
Qed.

Lemma speech_inv_step w e w' :
  is_stop e = false -> speech_inv w -> step w e = Some w' -> speech_inv w'.
Proof.
  intros Hns Hinv Hstep.
  destruct e; cbn [step] in Hstep; try discriminate Hns.
  - injection Hstep as <-. now apply speech_inv_speakText.
  - destruct (existsb (is_utt i) (engine w)); [|discriminate].
    injection Hstep as <-. now apply speech_inv_utt_started.
  - destruct (existsb (is_utt i) (engine w)) eqn:E; [|discriminate].
    injection Hstep as <-. now apply speech_inv_utt_done.
  - destruct (existsb (is_utt i) (engine w)) eqn:E; [|discriminate].
    injection Hstep as <-. now apply speech_inv_utt_done.
  - destruct (pending w) eqn:E; [discriminate|].
    injection Hstep as <-. apply speech_inv_timer; [assumption|lia].
  - injection Hstep as <-.
    destruct w; unfold speech_inv, setIsMuted in *; cbn in *. exact Hinv.
Qed.

Lemma speech_inv_run es : forall w w',
  speech_only es = true -> speech_inv w -> run w es = Some w' -> speech_inv w'.
Proof.
  induction es as [|e es IH]; cbn [run speech_only forallb]; intros w w' Hes Hinv Hrun.
  - now injection Hrun as <-.
  - apply andb_prop in Hes as [He Hes].
    destruct (step w e) as [w1|] eqn:E; [|discriminate].
    apply (IH w1); auto.
    eapply speech_inv_step; eauto.
    now destruct (is_stop e).
Qed.

(** One utterance at a time, in the order of arrival.  After any sequence of
    [speakText] calls and utterance callbacks (with the timers they
    schedule, and the mute flag set from outside; no [stopSpeaking]), at most
    one utterance is with the engine; the texts spoken so far followed by the
    texts still queued are exactly the texts accepted, in the order they
    came; a text is accepted trimmed and never empty; and the [cancel()] that
    precedes every [speak()] never had anything to cancel: no utterance was
    cut short. *)
Theorem speech_one_at_a_time_in_order (avail : bool) (es : list event)
    (w : speech) :
  speech_only es = true ->
  run (mounted avail) es = Some w ->
  length (engine w) <= 1
  /\ accepted w = map utt_text (spoken w) ++ queue w
  /\ Forall (fun t => JS.nonempty t = true) (accepted w)
  /\ cut_short w = []
  /\ (forall text,
        isAvailable w = true -> isMuted w = false ->
        JS.nonempty (JS.trim text) = true ->
        accepted (speakText text w) = accepted w ++ [JS.trim text])
  /\ (forall text,
        isAvailable w = false \/ isMuted w = true \/ JS.trim text = "" ->
        speakText text w = w).
Proof.
  intros Hes Hrun.
  assert (Hinv : speech_inv w)
    by (eapply speech_inv_run; eauto using speech_inv_mounted).
  destruct Hinv as (Hcount & _ & _ & _ & Hfifo & Hne & Hcut).
  split; [destruct (isProcessing w); lia|].
  split; [exact Hfifo|]. split; [exact Hne|]. split; [exact Hcut|]. split.
  - intros text Ha Hm Ht. unfold speakText. rewrite Ha, Hm, Ht. cbn.
    destruct (isProcessing w); [reflexivity|].
    unfold processQueue. cbn. now destruct (queue w).
  - intros text H. unfold speakText.
    destruct H as [-> | [-> | ->]]; [reflexivity | | ].
    + now rewrite orb_true_r.
    + now rewrite orb_true_r.
Qed.

Lemma step_utt_done w u (ended : bool) :
  engine w = [u] ->
  step w (if ended then UttEnd (utt_id u) else UttError (utt_id u))
  = Some (utt_done (utt_id u) w)
  /\ engine (utt_done (utt_id u) w) = [].
Proof.
  intros He.
  assert (H : (if existsb (is_utt (utt_id u)) (engine w)
               then Some (utt_done (utt_id u) w) else None)
              = Some (utt_done (utt_id u) w)
              /\ engine (utt_done (utt_id u) w) = []).
  { unfold utt_done. rewrite He. cbn [existsb List.filter engine].
    unfold is_utt. rewrite Nat.eqb_refl. split; reflexivity. }
  destruct ended; exact H.
Qed.

(** Everything accepted gets spoken.  From a state of orderly speech in
    which an utterance is with the engine, letting that utterance and then
    every later one come to its end (by [end] or by [error], each followed by
    its timer) speaks the queued texts, one after the other and in their
    order, and leaves the hook idle with an empty queue. *)
Theorem speech_queue_drains (q : list string) :
  forall (ends : list bool) (w : speech) (u : utterance) (ended : bool),
  speech_inv w -> engine w = [u] -> queue w = q ->
  length ends = length q ->
  exists w',
    run w (speak_out (utt_id u) (ended :: ends)) = Some w'
    /\ map utt_text (spoken w') = map utt_text (spoken w) ++ q
    /\ accepted w' = accepted w
    /\ queue w' = []
    /\ engine w' = []
    /\ isProcessing w' = false
    /\ cut_short w' = [].
Proof.
  induction q as [|text q IH]; intros ends w u ended Hinv He Hq Hlen;
    destruct (step_utt_done w u ended He) as [Hstep Hsil];
    assert (Hd : speech_inv (utt_done (utt_id u) w))
      by (apply speech_inv_utt_done; [exact Hinv|];
          rewrite He; cbn [existsb]; unfold is_utt; now rewrite Nat.eqb_refl);
    assert (Ht : speech_inv (timer_fired (utt_done (utt_id u) w)))
      by (apply speech_inv_timer; [exact Hd|]; cbn; discriminate).
  - destruct ends; [|discriminate].
    cbn [speak_out run]. rewrite Hstep. cbn [step utt_done pending].
    exists (timer_fired (utt_done (utt_id u) w)).
    split; [reflexivity|].
    destruct Ht as (_ & _ & _ & _ & _ & _ & Hcut).
    unfold timer_fired, processQueue in *. cbn in *. rewrite Hq in *. cbn in *.
    rewrite app_nil_r. repeat split; auto.
  - destruct ends as [|ended' ends]; [discriminate|].
    injection Hlen as Hlen.
    assert (Hmade : S (utt_id u) = made w).
    { destruct Hinv as (_ & _ & Hcur & Hmade & _).
      rewrite He in Hcur. destruct (utteranceRef w) as [u'|]; [|discriminate].
      injection Hcur as ->. now apply Hmade. }
    destruct (IH ends (timer_fired (utt_done (utt_id u) w)) (mkUtterance (made w) text)
                ended' Ht) as (w' & Hr & Hsp & Hacc & Hrest).
    + unfold timer_fired, processQueue. cbn. rewrite Hq. reflexivity.
    + unfold timer_fired, processQueue. cbn. now rewrite Hq.
    + exact Hlen.
    + exists w'. split; [|split; [|split; [|exact Hrest]]].
      * cbn [speak_out run]. rewrite Hstep. cbn [step utt_done pending].
        rewrite Hmade. exact Hr.
      * rewrite Hsp. unfold timer_fired, processQueue. cbn. rewrite Hq. cbn.
        rewrite map_app. cbn. now rewrite <- app_assoc.
      * rewrite Hacc. unfold timer_fired, processQueue. cbn. now rewrite Hq.
Qed.

Lemma speech_one_at_a_time_in_order_witness :
  let es := [SpeakText "  Water is polar. "; SpeakText "   "; SpeakText "It dissolves salts.";
             UttStart 0; UttEnd 0; TimerFired] in
  exists w,
    (speech_only es = true /\ run (mounted true) es = Some w)
    /\ map utt_text (spoken w) = ["Water is polar."; "It dissolves salts."]
    /\ accepted w = map utt_text (spoken w) ++ queue w
    /\ length (engine w) <= 1.
Proof.
  intros es.
  assert (Hrun : exists w, run (mounted true) es = Some w)
    by (eexists; vm_compute; reflexivity).
  destruct Hrun as [w Hrun]. exists w.
  split; [split; [reflexivity | exact Hrun]|].
  destruct (speech_one_at_a_time_in_order true es w eq_refl Hrun) as (H1 & H2 & _).
  split; [|split; [exact H2 | exact H1]].
  vm_compute in Hrun. injection Hrun as <-. reflexivity.
Defined.

Lemma speech_queue_drains_witness :
  let w := speakText "It dissolves salts." (speakText "Water is polar." (mounted true)) in
  let u := mkUtterance 0 "Water is polar." in
  (speech_inv w /\ engine w = [u] /\ queue w = ["It dissolves salts."])
  /\ exists w',
       run w (speak_out 0 [true; false]) = Some w'
       /\ map utt_text (spoken w') = ["Water is polar."; "It dissolves salts."]
       /\ queue w' = [].
Proof.
  intros w u.
  assert (Hinv : speech_inv w)
    by (do 2 apply speech_inv_speakText; apply speech_inv_mounted).
  split; [split; [exact Hinv | split; reflexivity]|].
  destruct (speech_queue_drains ["It dissolves salts."] [false] w u true
              Hinv eq_refl eq_refl eq_refl) as (w' & Hr & Hsp & _ & Hq & _).
  exists w'. split; [exact Hr|]. split; [exact Hsp | exact Hq].
Defined.

End BrowserTTS.

(* ===================================================================== *)
(** * ApiService: the fetch wrapper with retries *)
(* ===================================================================== *)

Module ApiService.
Import JSV.

(** An exception, by what the wrapper looks at: whether its [name] is
    [AbortError], whether it is a [TypeError], and its [message]. *)
Inductive error_kind : Type := AbortError | IsTypeError | OtherError.

Record error : Type := mkError {
  err_kind : error_kind;
  err_message : string
}.

(** What one call of [fetch] comes to: a response (with its [ok] flag, its
    status line and the text of its body, [None] when [response.text()]
    rejects), or a rejection. *)
Inductive fetched : Type :=
| Responded (ok : bool) (status : nat) (statusText : string)
    (bodyText : option string)
| Rejected (e : error).

(** How [request] ends. *)
Inductive result : Type :=
| Returned (attempt : nat)   (* the response of that attempt *)
| Thrown (e : error).

(** [_backoff(attempt)]: [500 * Math.pow(2, attempt)]. *)
Definition _backoff (attempt : nat) : nat := 500 * 2 ^ attempt.

(** [[429, 500, 502, 503, 504].includes(status)] *)
Definition shouldRetry (status : nat) : bool :=
  existsb (Nat.eqb status) [429; 500; 502; 503; 504].

Section Service.

(** [JSON.parse], [None] when it throws. *)
Variable JSON_parse : string -> option jsval.

(** [_formatHttpError(endpoint, status, statusText, bodyText)]; a body that
    does not parse, or whose [error] cannot be put into the message, is
    quoted by its first 200 characters. *)
Definition _formatHttpError (endpoint : string) (status : nat)
    (statusText bodyText : string) : string :=
  let msg := "HTTP " +:+ pretty status +:+ ": " +:+ statusText +:+ " at " +:+ endpoint in
  if JS.nonempty bodyText then
    let quoted := msg +:+ " - " +:+ JS.slice_to 200 bodyText in
    match JSON_parse bodyText with
    | Some parsed =>
        if truthy parsed && truthy (field "error" parsed) then
          match to_string (field "error" parsed) with
          | Some e => msg +:+ " - " +:+ e
          | None => quoted
          end
        else quoted
    | None => quoted
    end
  else msg.

(** The test of the [catch] block:
    [isAbort || isNetwork], with
    [isNetwork = !isAbort && (error instanceof TypeError ||
                              (error?.message || '').includes('Network'))]. *)
Definition transient (e : error) : bool :=
  match err_kind e with
  | AbortError => true
  | IsTypeError => true
  | OtherError => JS.includes "Network" (err_message e)
  end.

(** The [while (attempt <= retries)] loop of [request], from the values
    [attempt] and [lastErr] reached so far; [fuel] is the number of turns
    left, [outcomes k] what the [fetch] of attempt [k] comes to.  The result
    comes with the pauses made, in milliseconds, oldest first. *)
Fixpoint attempts (fuel : nat) (endpoint : string) (stream : bool) (retries : nat)
    (outcomes : nat -> fetched) (attempt : nat) (lastErr : option error)
    : result * list nat :=
  match fuel with
  | O =>
      (Thrown (match lastErr with
               | Some e => e
               | None => mkError OtherError "Unknown API error"
               end), [])
  | S fuel' =>
      let again (e : error) :=
        let '(r, pauses) :=
          attempts fuel' endpoint stream retries outcomes (S attempt) (Some e) in
        (r, _backoff attempt :: pauses) in
      let caught (e : error) :=
        if transient e && (attempt <? retries) && negb stream
        then again e
        else (Thrown e, []) in
      match outcomes attempt with
      | Responded true _ _ _ => (Returned attempt, [])
      | Responded false status statusText bodyText =>
          let err :=
            mkError OtherError
              (_formatHttpError endpoint status statusText (default "" bodyText)) in
          if shouldRetry status && (attempt <? retries) && negb stream
          then again err
          else caught err
      | Rejected e => caught e
      end
  end.

(** [request(endpoint, options, controls)] for the options that matter here:
    [options.stream] and [controls.retries] (2 when it is not given). *)
Definition request (endpoint : string) (stream : bool) (retries : nat)
    (outcomes : nat -> fetched) : result * list nat :=
  attempts (S retries) endpoint stream retries outcomes 0 None.

(** [sendRagMessage]: [stream: true], [{ retries: 0, timeoutMs: 0 }]. *)
Definition sendRagMessage (outcomes : nat -> fetched) : result * list nat :=
  request "/api/rag-chat" true 0 outcomes.

(** [textToSpeech]: the defaults. *)
Definition textToSpeech (outcomes : nat -> fetched) : result * list nat :=
  request "/api/tts" false 2 outcomes.

(** The error a failed attempt stands for. *)
Definition error_of (endpoint : string) (f : fetched) : option error :=
  match f with
  | Responded true _ _ _ => None
  | Responded false status statusText bodyText =>
      Some (mkError OtherError
              (_formatHttpError endpoint status statusText (default "" bodyText)))
  | Rejected e => Some e
  end.

(** Whether a failed attempt is one the wrapper goes on after. *)
Definition retryable (endpoint : string) (f : fetched) : bool :=
  match f with
  | Responded true _ _ _ => false
  | Responded false status _ _ =>
      shouldRetry status
      || match error_of endpoint f with Some e => transient e | None => false end
  | Rejected e => transient e
  end.

(** What [request] guarantees of a result and its pauses, from attempt
    [attempt] on. *)
Definition ends_well (endpoint : string) (stream : bool) (retries : nat)
    (outcomes : nat -> fetched) (attempt : nat) (rp : result * list nat) : Prop :=
  let last := attempt + length (snd rp) in
  snd rp = map _backoff (seq attempt (length (snd rp)))
  /\ last <= retries
  /\ (stream = true -> snd rp = [])
  /\ (forall k, attempt <= k < last -> retryable endpoint (outcomes k) = true)
  /\ match fst rp with
     | Returned k =>
         k = last
         /\ exists status statusText bodyText,
              outcomes k = Responded true status statusText bodyText
     | Thrown e =>
         error_of endpoint (outcomes last) = Some e
         /\ (retryable endpoint (outcomes last) = false
             \/ last = retries \/ stream = true)
     end.

(** ** Facts *)

Lemma ends_well_thrown endpoint stream retries outcomes attempt e :
  attempt <= retries ->
  error_of endpoint (outcomes attempt) = Some e ->
  retryable endpoint (outcomes attempt) = false \/ attempt = retries \/ stream = true ->
  ends_well endpoint stream retries outcomes attempt (Thrown e, []).
Proof.
  intros Hle He Hwhy. unfold ends_well. cbn [fst snd length seq map].
  rewrite Nat.add_0_r.
  split; [reflexivity|]. split; [exact Hle|]. split; [reflexivity|].
  split; [intros k Hk; lia|]. split; [exact He | exact Hwhy].
Qed.

Lemma ends_well_again endpoint stream retries outcomes attempt rp :
  stream = false ->
  retryable endpoint (outcomes attempt) = true ->
  ends_well endpoint stream retries outcomes (S attempt) rp ->
  ends_well endpoint stream retries outcomes attempt
    (let '(r, pauses) := rp in (r, _backoff attempt :: pauses)).
Proof.
  intros Hs Hre. destruct rp as [r pauses]. unfold ends_well.
  cbn [fst snd length seq map].
  replace (attempt + S (length pauses)) with (S attempt + length pauses) by lia.
  intros (Hp & Hle & _ & Hall & Hr).
  split; [now rewrite <- Hp|]. split; [exact Hle|]. split; [congruence|].
  split; [|exact Hr].
  intros k Hk. destruct (Nat.eq_dec k attempt) as [->|Hne]; [exact Hre|].
  apply Hall. lia.
Qed.

Lemma attempts_end_well (fuel : nat) endpoint stream retries outcomes :
  forall attempt lastErr,
  attempt + fuel = S retries -> attempt <= retries ->
  ends_well endpoint stream retries outcomes attempt
    (attempts fuel endpoint stream retries outcomes attempt lastErr).
Proof.
  induction fuel as [|fuel IH]; intros attempt lastErr Hfuel Hle; [lia|].
  cbn [attempts].
  assert (Hcaught : forall e,
    error_of endpoint (outcomes attempt) = Some e ->
    retryable endpoint (outcomes attempt) = transient e
    \/ retryable endpoint (outcomes attempt) = true
        /\ (attempt <? retries) && negb stream = false ->
    ends_well endpoint stream retries outcomes attempt
      (if transient e && (attempt <? retries) && negb stream
       then
         let '(r, pauses) :=
           attempts fuel endpoint stream retries outcomes (S attempt) (Some e) in
         (r, _backoff attempt :: pauses)
       else (Thrown e, []))).
  { intros e He Hre.
    destruct (transient e && (attempt <? retries) && negb stream) eqn:E.
    - apply andb_prop in E as [E Hs]. apply andb_prop in E as [Ht Hlt].
      apply negb_true_iff in Hs. apply Nat.ltb_lt in Hlt.
      apply ends_well_again; [exact Hs | | apply IH; lia].
      destruct Hre as [-> | [Hr _]]; [exact Ht | exact Hr].
    - apply ends_well_thrown; [exact Hle | exact He |].
      destruct Hre as [Hre | [_ Hre]].
      + rewrite Hre. destruct (transient e); [|now left].
        cbn [andb] in E. apply andb_false_iff in E as [E1|E1].
        * apply Nat.ltb_ge in E1. right. left. lia.
        * apply negb_false_iff in E1. now right; right.
      + apply andb_false_iff in Hre as [E1|E1].
        * apply Nat.ltb_ge in E1. right. left. lia.
        * apply negb_false_iff in E1. now right; right. }
  destruct (outcomes attempt) as [[|] status statusText bodyText|e] eqn:Eo.
  - unfold ends_well. cbn [fst snd length seq map]. rewrite Nat.add_0_r.
    split; [reflexivity|]. split; [exact Hle|]. split; [reflexivity|].
    split; [intros k Hk; lia|]. split; [reflexivity|]. eauto.
  - destruct (shouldRetry status && (attempt <? retries) && negb stream) eqn:E.
    + apply andb_prop in E as [E Hs]. apply andb_prop in E as [Hsr Hlt].
      apply negb_true_iff in Hs. apply Nat.ltb_lt in Hlt.
      apply ends_well_again; [exact Hs | | apply IH; lia].
      rewrite Eo. cbn [retryable]. now rewrite Hsr.
    + apply Hcaught; [reflexivity|].
      cbn [retryable error_of].
      destruct (shouldRetry status); cbn [orb andb] in *; [right | now left].
      split; [reflexivity | exact E].
  - apply Hcaught; [reflexivity|]. now left.
Qed.

(** Retries are bounded, spaced out, and never made on a stream.  A call of
    [request] makes at most [retries + 1] attempts, one after the other; the
    pause before the attempt that follows attempt [i] is [500 * 2^i]
    milliseconds; every attempt but the last failed in a way the wrapper
    retries (a status among 429, 500, 502, 503 and 504, an abort, a
    [TypeError], or an error whose message mentions the network); the call
    returns the response of the last attempt when that one is [ok], and
    otherwise throws the error of the last attempt - the [throw] after the
    loop is never reached; and a call marked as a stream makes one attempt
    and no pause, whatever [retries] is. *)
Theorem request_retries_are_bounded (endpoint : string) (stream : bool)
    (retries : nat) (outcomes : nat -> fetched) :
  let '(r, pauses) := request endpoint stream retries outcomes in
  let last := length pauses in
  last <= retries
  /\ pauses = map _backoff (seq 0 last)
  /\ (stream = true -> last = 0)
  /\ (forall k, k < last -> retryable endpoint (outcomes k) = true)
  /\ match r with
     | Returned k =>
         k = last
         /\ exists status statusText bodyText,
              outcomes k = Responded true status statusText bodyText
     | Thrown e =>
         error_of endpoint (outcomes last) = Some e
         /\ (retryable endpoint (outcomes last) = false
             \/ last = retries \/ stream = true)
     end.
Proof.
  pose proof (attempts_end_well (S retries) endpoint stream retries outcomes 0 None
                ltac:(lia) ltac:(lia)) as H.
  unfold request.
  destruct (attempts (S retries) endpoint stream retries outcomes 0 None)
    as [r pauses].
  unfold ends_well in H. cbn [fst snd Nat.add] in H. cbn zeta.
  destruct H as (Hp & Hle & Hs & Hall & Hr).
  split; [exact Hle|]. split; [exact Hp|]. split.
  - intros E. now rewrite (Hs E).
  - split; [|exact Hr]. intros k Hk. apply Hall. lia.
Qed.

End Service.

(** Three attempts at the speech service: a 503, a timeout, then the
    audio. *)
Example textToSpeech_third_time_lucky :
  let outcomes k :=
    match k with
    | 0 => Responded false 503 "Service Unavailable" (Some (Json.q "{'error':'busy'}"))
    | 1 => Rejected (mkError AbortError "The operation was aborted.")
    | _ => Responded true 200 "OK" None
    end in
  textToSpeech Json.parse outcomes = (Returned 2, [500; 1000])
  /\ sendRagMessage Json.parse outcomes
     = (Thrown (mkError OtherError
                  "HTTP 503: Service Unavailable at /api/rag-chat - busy"), []).
Proof. split; vm_compute; reflexivity. Qed.

End ApiService.
